(** * CppDeque: a deque on a doubly linked list with pluggable allocation strategies

    Shallow embedding of
      - [alloc_strategy_t] / [stupid_strategy_t]   (allocator/stupid_strategy.h)
      - [single_allocator_t]                        (allocator/allocator.h)
      - [deque_t], its [node_t] and [iterator_t]    (deque/deque.h, the revision
        with the [start]/[tail] members, the iterator and [Copy]; of the
        earlier revision, the functions that read differently)
      - [deqGenetor] of the demonstration driver     (main.cpp)

    The C++ objects live in one shared store ([world]): the blocks handed out
    by the C library's [malloc], the strategy objects (reached through
    [std::shared_ptr] handles) and the deque objects (reached through
    references, so that [d = d] really aliases).  Every member function is a
    computation in a small state-and-exception monad over that store.

    What lies outside the repository is modelled by its contract:
    [malloc n] hands out a block of [n] bytes at an address that is not in
    use, or the null pointer when fewer than [n] bytes are available;
    [free] of a live block releases it, [free] of the null pointer does
    nothing, anything else is undefined.  [push_back] on the [std::list] of a
    strategy obtains a list node from [operator new] and throws
    [std::bad_alloc] when there is no room for one.  The reference counts of
    the [shared_ptr] handles are not part of the store: a strategy object
    lives until its destructor is called on it. *)

From Stdlib Require Import NArith ZArith.
From stdpp Require Import gmap list strings.

Open Scope nat_scope.

(** Addresses of malloc'ed blocks; a pointer is [None] ([nullptr]) or an address. *)
Abbreviation loc := positive (only parsing).
Abbreviation ptr := (option positive) (only parsing).
(** Identities of strategy objects and of deque objects. *)
Abbreviation sid := nat (only parsing).
Abbreviation did := nat (only parsing).

(** What the code throws: [std::exception(msg)], and the [std::bad_alloc]
    of the standard library. *)
Inductive exn := Exception (what : string) | bad_alloc.

(** [std::shared_ptr<alloc_strategy_t>]: empty after being moved from. *)
Record single_allocator_t := Allocator { allocStrategy : option sid }.

(** [stupid_strategy_t]: the list of the blocks it handed out. *)
Record stupid_strategy_t := Strategy { allocEls : list ptr }.

Section Deque.

(** The element type.  [T] is a value type: copying is the identity and
    its destructor releases nothing of the store.  [moved_from v] is what a
    [T] holding [v] holds after [std::move] took its value (the identity for
    scalars).  [sizeof_node] is [sizeof(node_t)]. *)
Context {T : Type}.
Variable moved_from : T → T.
Variable sizeof_node : N.

(** [sizeof] of a node of the [std::list<void *>] of a strategy: two links
    and a pointer.  A node of the deque is two links and a [T]; the model
    takes the two to be of one size, as they are for the [deque_t<int>] of
    the driver. *)
Definition sizeof_entry : N := sizeof_node.

(** [deque_t<T>::node_t] *)
Record node_t := Node { next : ptr; prev : ptr; data : T }.

(** What a malloc'ed block holds: nothing yet ([Raw]), a constructed node
    ([Obj]), or the bytes of a node whose destructor already ran ([Dead]). *)
Inductive storage := Raw | Obj (n : node_t) | Dead (n : node_t).

Record block := Block { bsize : N; bstore : storage }.

(** [deque_t<T>] *)
Record deque_t := Deque { start : ptr; tail : ptr; allocator : single_allocator_t }.

(** [deque_t<T>::iterator_t] *)
Record iterator_t := Iterator { node : ptr }.

Record world := World {
  blocks : gmap loc block;                  (* live blocks of the system heap *)
  avail : N;                                (* bytes malloc can still hand out *)
  strategies : gmap sid stupid_strategy_t;  (* the strategy objects *)
  deques : gmap did deque_t                 (* the deque objects *)
}.

Definition with_blocks (f : gmap loc block → gmap loc block) (w : world) : world :=
  World (f (blocks w)) (avail w) (strategies w) (deques w).
Definition with_avail (n : N) (w : world) : world :=
  World (blocks w) n (strategies w) (deques w).
Definition with_strategies (f : gmap sid stupid_strategy_t → gmap sid stupid_strategy_t)
    (w : world) : world :=
  World (blocks w) (avail w) (f (strategies w)) (deques w).
Definition with_deques (f : gmap did deque_t → gmap did deque_t) (w : world) : world :=
  World (blocks w) (avail w) (strategies w) (f (deques w)).

(** ** The monad

    [Val a w]: normal return.  [Throw e w]: a C++ exception left the call,
    with the store as it was at the [throw].  [Fault]: undefined behaviour
    (a null, dangling or uninitialised access).  [Timeout]: a loop ran out
    of fuel. *)
Inductive res (A : Type) :=
  | Val (a : A) (w : world)
  | Throw (e : exn) (w : world)
  | Fault
  | Timeout.
Arguments Val {A} a w.
Arguments Throw {A} e w.
Arguments Fault {A}.
Arguments Timeout {A}.

Definition M (A : Type) : Type := world → res A.

Definition ret {A} (a : A) : M A := λ w, Val a w.
Definition bind {A B} (m : M A) (k : A → M B) : M B := λ w,
  match m w with
  | Val a w' => k a w'
  | Throw e w' => Throw e w'
  | Fault => Fault
  | Timeout => Timeout
  end.

Notation "x <~ m ;; k" := (bind m (λ x, k))
  (at level 100, m at next level, right associativity).
Notation "m ;;; k" := (bind m (λ _, k))
  (at level 100, k at level 200, right associativity).

Definition throw {A} (msg : string) : M A := λ w, Throw (Exception msg) w.
Definition throw_bad_alloc {A} : M A := λ w, Throw bad_alloc w.
Definition fault {A} : M A := λ _, Fault.
Definition timeout {A} : M A := λ _, Timeout.
Definition modify (f : world → world) : M unit := λ w, Val tt (f w).

(** Loops over a node list are given as much fuel as there are live blocks
    (plus one): a walk that visits more nodes than that revisits one. *)
Definition fuel : M nat := λ w, Val (S (size (blocks w))) w.

(** ** The system heap: [malloc] and [free] *)

Definition malloc (n : N) : M ptr := λ w,
  if (n <=? avail w)%N then
    let a := fresh (dom (blocks w)) in
    Val (Some a) (with_blocks <[a := Block n Raw]> (with_avail (avail w - n) w))
  else Val None w.

Definition free (p : ptr) : M unit := λ w,
  match p with
  | None => Val tt w
  | Some a =>
      match blocks w !! a with
      | Some b => Val tt (with_blocks (delete a) (with_avail (avail w + bsize b) w))
      | None => Fault
      end
  end.

(** ** [stupid_strategy_t] *)

Definition get_strategy (s : sid) : M stupid_strategy_t := λ w,
  match strategies w !! s with
  | Some st => Val st w
  | None => Fault
  end.

Definition put_strategy (s : sid) (st : stupid_strategy_t) : M unit :=
  modify (with_strategies <[s := st]>).

(** Whether [operator new] has room for a node of the tracking list.  The
    budget [avail] is charged for the blocks [malloc] hands out, not for the
    nodes of the list; a list node can be had as long as the budget holds
    [sizeof_entry] bytes, the block of the running [alloc] not counted
    against it. *)
Definition list_node_room : M bool := λ w,
  Val (bool_decide (sizeof_entry ≤ avail w)%N) w.

(** [void *alloc(size_t numOfBytes)]: [malloc], then [allocEls.push_back(el)],
    which throws [std::bad_alloc] when it gets no list node; the block
    [malloc] handed out just before is then recorded nowhere. *)
Definition strategy_alloc (s : sid) (numOfBytes : N) : M ptr :=
  get_strategy s ;;;
  room <~ list_node_room ;;
  el <~ malloc numOfBytes ;;
  if room then
    st <~ get_strategy s ;;
    put_strategy s (Strategy (allocEls st ++ [el])) ;;;
    ret el
  else throw_bad_alloc.

(** [void dealloc(void *ptr)]; [list_find] is [std::find], [delete i] is
    [erase] at the position found. *)
Definition strategy_dealloc (s : sid) (p : ptr) : M unit :=
  st <~ get_strategy s ;;
  match list_find (λ x, x = p) (allocEls st) with
  | Some (i, el) =>
      free el ;;;
      put_strategy s (Strategy (delete i (allocEls st)))
  | None => ret tt
  end.

(** ** Node access through a pointer *)

Definition peek (b : block) : option node_t :=
  match bstore b with
  | Raw => None
  | Obj n => Some n
  | Dead n => Some n
  end.

(** Reading [*p].  The bytes of a node whose destructor ran are still
    there as long as the block is not freed. *)
Definition load (p : ptr) : M node_t := λ w,
  match p with
  | None => Fault
  | Some a =>
      match blocks w !! a ≫= peek with
      | Some n => Val n w
      | None => Fault
      end
  end.

Definition poke (f : node_t → node_t) (b : block) : option block :=
  match bstore b with
  | Raw => None
  | Obj n => Some (Block (bsize b) (Obj (f n)))
  | Dead n => Some (Block (bsize b) (Dead (f n)))
  end.

(** Writing fields of [*p]. *)
Definition update (p : ptr) (f : node_t → node_t) : M unit := λ w,
  match p with
  | None => Fault
  | Some a =>
      match blocks w !! a ≫= poke f with
      | Some b => Val tt (with_blocks <[a := b]> w)
      | None => Fault
      end
  end.

Definition set_next (q : ptr) (n : node_t) : node_t := Node q (prev n) (data n).
Definition set_prev (q : ptr) (n : node_t) : node_t := Node (next n) q (data n).
Definition set_data (d : T) (n : node_t) : node_t := Node (next n) (prev n) d.

(** Placement [new (p) node_t(...)]. *)
Definition construct (p : ptr) (n : node_t) : M unit := λ w,
  match p with
  | None => Fault
  | Some a =>
      match blocks w !! a with
      | Some b => Val tt (with_blocks <[a := Block (bsize b) (Obj n)]> w)
      | None => Fault
      end
  end.

(** [p->~node_t()].  The destructor of a node is trivial, as that of [T]
    releases nothing: the call reads and writes no memory, whatever [p] is,
    the null pointer and a released block included.  For a constructed node
    the model records that its lifetime is over. *)
Definition destroy (p : ptr) : M unit := λ w,
  match p with
  | None => Val tt w
  | Some a =>
      match blocks w !! a with
      | Some b =>
          match peek b with
          | Some n => Val tt (with_blocks <[a := Block (bsize b) (Dead n)]> w)
          | None => Val tt w
          end
      | None => Val tt w
      end
  end.

(** ** [single_allocator_t<node_t>] *)

(** The constructor of [node_t] that overload resolution picks for the
    arguments forwarded by [alloc].  An argument [*p] is bound by reference
    at the call, which is undefined for a null or released [p]; the object
    it refers to is read when the constructor runs, that is after the block
    was obtained. *)
Inductive ctor_args :=
  | CopyNode (src : ptr)                 (* node_t(node_t const &), for alloc( *p ) *)
  | MoveNode (src : ptr)                 (* node_t(node_t &&), for alloc(std::move( *p )) *)
  | ByValue (d : T) (p n : ptr)          (* node_t(T const &, prev, next) and
                                            node_t(T &&, prev, next) on the caller's value *)
  | ByField (src : ptr) (p n : ptr).     (* node_t(T const &, prev, next) on src->data,
                                            also for std::move of a const node's data *)

Definition eval_ctor (args : ctor_args) : M node_t :=
  match args with
  | CopyNode src => load src
  | MoveNode src =>
      n <~ load src ;;
      update src (set_data (moved_from (data n))) ;;;
      ret n
  | ByValue d p n => ret (Node n p d)
  | ByField src p n =>
      s <~ load src ;;
      ret (Node n p (data s))
  end.

(** Forming the reference [*p]. *)
Definition bind_ref (p : ptr) : M unit := λ w,
  match p with
  | None => Fault
  | Some a =>
      match blocks w !! a with
      | Some _ => Val tt w
      | None => Fault
      end
  end.

Definition bind_args (args : ctor_args) : M unit :=
  match args with
  | CopyNode src => bind_ref src
  | MoveNode src => bind_ref src
  | ByValue _ _ _ => ret tt
  | ByField src _ _ => bind_ref src
  end.

(** Dereferencing the [shared_ptr]. *)
Definition strategy_of (a : single_allocator_t) : M sid :=
  match allocStrategy a with
  | Some s => ret s
  | None => fault
  end.

(** [T *alloc(Args&&... constructorArgs)], with the binding of its
    arguments at the call. *)
Definition alloc (a : single_allocator_t) (args : ctor_args) : M ptr :=
  bind_args args ;;;
  s <~ strategy_of a ;;
  p <~ strategy_alloc s sizeof_node ;;
  n <~ eval_ctor args ;;
  construct p n ;;;
  ret p.

(** [void dealloc(T *ptr)] *)
Definition dealloc (a : single_allocator_t) (p : ptr) : M unit :=
  destroy p ;;;
  s <~ strategy_of a ;;
  strategy_dealloc s p.

(** ** [deque_t<T>] *)

Definition get_deque (this : did) : M deque_t := λ w,
  match deques w !! this with
  | Some d => Val d w
  | None => Fault
  end.

Definition put_deque (this : did) (f : deque_t → deque_t) : M unit :=
  d <~ get_deque this ;;
  modify (with_deques <[this := f d]>).

Definition set_start (this : did) (p : ptr) : M unit :=
  put_deque this (λ d, Deque p (tail d) (allocator d)).
Definition set_tail (this : did) (p : ptr) : M unit :=
  put_deque this (λ d, Deque (start d) p (allocator d)).
Definition set_allocator (this : did) (a : single_allocator_t) : M unit :=
  put_deque this (λ d, Deque (start d) (tail d) a).

(** [static void FreeList(node_t *begin, single_allocator_t<node_t> &allocator)] *)
Fixpoint FreeList_loop (n : nat) (a : single_allocator_t) (nd : ptr) : M unit :=
  match nd with
  | None => ret tt
  | Some _ =>
      match n with
      | 0 => timeout
      | S n' =>
          cur <~ load nd ;;
          dealloc a nd ;;;
          FreeList_loop n' a (next cur)
      end
  end.

Definition FreeList (begin : ptr) (a : single_allocator_t) : M unit :=
  n <~ fuel ;;
  FreeList_loop n a begin.

(** The [for] loop shared by [CopyList] and [ChangeAllocator]:
    [tmp = allocator.alloc(node->data, prev, nullptr); prev->next = tmp;]
    stepping [node = node->next, prev = prev->next]; returns the last [prev]. *)
Fixpoint CopyList_loop (n : nat) (a : single_allocator_t) (nd pv : ptr) : M ptr :=
  match nd with
  | None => ret pv
  | Some _ =>
      match n with
      | 0 => timeout
      | S n' =>
          tmp <~ alloc a (ByField nd pv None) ;;
          update pv (set_next tmp) ;;;
          cur <~ load nd ;;
          pvn <~ load pv ;;
          CopyList_loop n' a (next cur) (next pvn)
      end
  end.

(** [void CopyList(node_t const *beginToCopy)] *)
Definition CopyList (this : did) (beginToCopy : ptr) : M unit :=
  match beginToCopy with
  | None =>
      set_start this None ;;;
      set_tail this None
  | Some _ =>
      n <~ fuel ;;
      d <~ get_deque this ;;
      p <~ alloc (allocator d) (CopyNode beginToCopy) ;;
      set_start this p ;;;
      src <~ load beginToCopy ;;
      pv <~ CopyList_loop n (allocator d) (next src) p ;;
      set_tail this pv ;;;
      update pv (set_next None)
  end.

(** A new [deque_t] object; its members are written by the constructor. *)
Definition new_deque (d : deque_t) : M did := λ w,
  let this := fresh (dom (deques w)) in
  Val this (with_deques <[this := d]> w).

(** [deque_t(std::shared_ptr<alloc_strategy_t> const &strategy)] *)
Definition deque_ctor (strategy : sid) : M did :=
  new_deque (Deque None None (Allocator (Some strategy))).

(** [deque_t(deque_t const &lhs)] *)
Definition copy_ctor (lhs : did) : M did :=
  l <~ get_deque lhs ;;
  this <~ new_deque (Deque None None (allocator l)) ;;
  l <~ get_deque lhs ;;
  match start l with
  | None =>
      set_start this None ;;;
      set_tail this None ;;;
      ret this
  | Some _ =>
      CopyList this (start l) ;;;
      ret this
  end.

(** [deque_t(deque_t const &lhs, std::shared_ptr<alloc_strategy_t> const &strategy)] *)
Definition copy_ctor_with (lhs : did) (strategy : sid) : M did :=
  this <~ new_deque (Deque None None (Allocator (Some strategy))) ;;
  l <~ get_deque lhs ;;
  CopyList this (start l) ;;;
  ret this.

(** [deque_t(deque_t &&rhs)] *)
Definition move_ctor (rhs : did) : M did :=
  r <~ get_deque rhs ;;
  set_allocator rhs (Allocator None) ;;;
  this <~ new_deque (Deque (start r) (tail r) (allocator r)) ;;
  set_start rhs None ;;;
  set_tail rhs None ;;;
  ret this.

(** [void operator=(deque_t const &lhs)] *)
Definition copy_assign (this lhs : did) : M unit :=
  d <~ get_deque this ;;
  FreeList (start d) (allocator d) ;;;
  l <~ get_deque lhs ;;
  set_allocator this (allocator l) ;;;
  l <~ get_deque lhs ;;
  CopyList this (start l).

(** [void Copy(deque_t const &lhs, std::shared_ptr<alloc_strategy_t> const &strategy)] *)
Definition Copy (this lhs : did) (strategy : sid) : M unit :=
  d <~ get_deque this ;;
  FreeList (start d) (allocator d) ;;;
  set_allocator this (Allocator (Some strategy)) ;;;
  l <~ get_deque lhs ;;
  CopyList this (start l).

(** [void operator=(deque_t &&rhs)]; the [shared_ptr] move assignment
    empties [rhs.allocator] and then stores the handle in [allocator]. *)
Definition move_assign (this rhs : did) : M unit :=
  d <~ get_deque this ;;
  FreeList (start d) (allocator d) ;;;
  r <~ get_deque rhs ;;
  set_allocator rhs (Allocator None) ;;;
  set_allocator this (allocator r) ;;;
  r <~ get_deque rhs ;;
  set_start this (start r) ;;;
  r <~ get_deque rhs ;;
  set_tail this (tail r) ;;;
  set_tail rhs None ;;;
  set_start rhs None.

(** [void PushBack(T const &data)] and [void PushBack(T &&data)] *)
Definition PushBack (this : did) (v : T) : M unit :=
  d <~ get_deque this ;;
  p <~ alloc (allocator d) (ByValue v (tail d) None) ;;
  set_tail this p ;;;
  d <~ get_deque this ;;
  match start d with
  | None => set_start this (tail d)
  | Some _ =>
      t <~ load (tail d) ;;
      update (prev t) (set_next (tail d))
  end.

(** [void PushFront(T const &data)] and [void PushFront(T &&data)] *)
Definition PushFront (this : did) (v : T) : M unit :=
  d <~ get_deque this ;;
  p <~ alloc (allocator d) (ByValue v None (start d)) ;;
  set_start this p ;;;
  d <~ get_deque this ;;
  match tail d with
  | None => set_tail this (start d)
  | Some _ =>
      h <~ load (start d) ;;
      update (next h) (set_prev (start d))
  end.

(** [T PopBack(void)] *)
Definition PopBack (this : did) : M T :=
  d <~ get_deque this ;;
  match tail d with
  | None => throw "Empty list"
  | Some _ =>
      t <~ load (tail d) ;;
      update (tail d) (set_data (moved_from (data t))) ;;;
      let tmp := prev t in
      dealloc (allocator d) (tail d) ;;;
      set_tail this tmp ;;;
      match tmp with
      | None => set_start this None
      | Some _ => update tmp (set_next None)
      end ;;;
      ret (data t)
  end.

(** [T PopFront(void)] *)
Definition PopFront (this : did) : M T :=
  d <~ get_deque this ;;
  match start d with
  | None => throw "Empty list"
  | Some _ =>
      h <~ load (start d) ;;
      update (start d) (set_data (moved_from (data h))) ;;;
      let tmp := next h in
      dealloc (allocator d) (start d) ;;;
      set_start this tmp ;;;
      match tmp with
      | None => set_tail this None
      | Some _ => update tmp (set_prev None)
      end ;;;
      ret (data h)
  end.

(** [bool IsEmpty(void) const] *)
Definition IsEmpty (this : did) : M bool :=
  d <~ get_deque this ;;
  ret (bool_decide (start d = None)).

(** [void Clear(void)] *)
Definition Clear (this : did) : M unit :=
  d <~ get_deque this ;;
  FreeList (start d) (allocator d) ;;;
  set_start this None ;;;
  set_tail this None.

(** [void ChangeAllocator(std::shared_ptr<alloc_strategy_t> const &strategy)];
    [prevBegin] and [prevEnd] are never read. *)
Definition ChangeAllocator (this : did) (strategy : sid) : M unit :=
  d <~ get_deque this ;;
  let prevAllocator := allocator d in
  set_allocator this (Allocator (Some strategy)) ;;;
  d <~ get_deque this ;;
  match start d with
  | None =>
      set_start this None ;;;
      set_tail this None
  | Some _ =>
      n <~ fuel ;;
      p <~ alloc (allocator d) (MoveNode (start d)) ;;
      set_start this p ;;;
      h <~ load p ;;
      pv <~ CopyList_loop n (allocator d) (next h) p ;;
      set_tail this pv ;;;
      update pv (set_next None) ;;;
      d <~ get_deque this ;;
      FreeList (start d) prevAllocator
  end.

(** [operator<<]: the values written, front to back. *)
Fixpoint print_loop (n : nat) (nd : ptr) : M (list T) :=
  match nd with
  | None => ret []
  | Some _ =>
      match n with
      | 0 => timeout
      | S n' =>
          cur <~ load nd ;;
          rest <~ print_loop n' (next cur) ;;
          ret (data cur :: rest)
      end
  end.

Definition print (deq : did) : M (list T) :=
  n <~ fuel ;;
  d <~ get_deque deq ;;
  print_loop n (start d).

(** ** [iterator_t] *)

(** [iterator_t begin(void)] and [iterator_t end(void)] *)
Definition begin (this : did) : M iterator_t :=
  d <~ get_deque this ;;
  ret (Iterator (start d)).
Definition end_ (this : did) : M iterator_t := ret (Iterator None).

(** [bool operator==] and [bool operator!=] *)
Definition iter_eq (it lhs : iterator_t) : bool := bool_decide (node it = node lhs).
Definition iter_ne (it lhs : iterator_t) : bool := negb (iter_eq it lhs).

(** [T &operator*(void)]: the reference returned is the address of the node
    whose [data] it designates. *)
Definition iter_deref (it : iterator_t) : M loc :=
  match node it with
  | None => throw "Try to use end iterator"
  | Some a => ret a
  end.

(** Reading and assigning through the [T &]. *)
Definition ref_get (r : loc) : M T :=
  n <~ load (Some r) ;;
  ret (data n).
Definition ref_set (r : loc) (v : T) : M unit := update (Some r) (set_data v).

(** [iterator_t &operator++(void)]: the iterator after the step. *)
Definition iter_preinc (it : iterator_t) : M iterator_t :=
  match node it with
  | None => throw "Try to use end iterator"
  | Some _ =>
      n <~ load (node it) ;;
      ret (Iterator (next n))
  end.

(** [iterator_t &operator++(int)]: the iterator after the step, and what
    the copy [tmp] taken before it held.  The source returns a reference to
    that local, which is gone when the call comes back: the second component
    is the value [tmp] had, not something a caller may read through the
    reference. *)
Definition iter_postinc (it : iterator_t) : M (iterator_t * iterator_t) :=
  match node it with
  | None => throw "Try to use end iterator"
  | Some _ =>
      let tmp := it in
      n <~ load (node it) ;;
      ret (Iterator (next n), tmp)
  end.

(** [for (auto it = d.begin(); it != d.end(); ++it) out.push_back( *it );] *)
Fixpoint iterate_loop (n : nat) (it last : iterator_t) : M (list T) :=
  if iter_ne it last then
    match n with
    | 0 => timeout
    | S n' =>
        r <~ iter_deref it ;;
        v <~ ref_get r ;;
        it' <~ iter_preinc it ;;
        rest <~ iterate_loop n' it' last ;;
        ret (v :: rest)
    end
  else ret [].

Definition iterate (this : did) : M (list T) :=
  n <~ fuel ;;
  it <~ begin this ;;
  last <~ end_ this ;;
  iterate_loop n it last.


(** ** What a well-formed deque looks like in the store *)

(** The node expected at position [i] of a list laid out at addresses [ls]. *)
Definition pred_ptr (ls : list loc) (i : nat) : ptr :=
  match i with
  | 0 => None
  | S j => ls !! j
  end.

Definition node_at (ls : list loc) (i : nat) (v : T) : node_t :=
  Node (ls !! S i) (pred_ptr ls i) v.

(** The blocks at [ls] hold constructed nodes with the values [vs], linked
    in both directions, the ends closed by null pointers. *)
Record is_list (w : world) (ls : list loc) (vs : list T) : Prop := IsList {
  il_length : length ls = length vs;
  il_NoDup : NoDup ls;
  il_nodes : ∀ i a v, ls !! i = Some a → vs !! i = Some v →
    ∃ sz, blocks w !! a = Some (Block sz (Obj (node_at ls i v)))
}.

(** Strategy [s] tracks every block of [ls]. *)
Definition owns (w : world) (s : sid) (ls : list loc) : Prop :=
  ∃ st, strategies w !! s = Some st ∧ ∀ a, a ∈ ls → Some a ∈ allocEls st.

(** Deque object [this] is bound to strategy [s] and holds the values [vs]
    in the nodes [ls], front to back. *)
Record is_deque (w : world) (this : did) (s : sid) (ls : list loc) (vs : list T) : Prop :=
  IsDeque {
    dq_obj : deques w !! this = Some (Deque (head ls) (last ls) (Allocator (Some s)));
    dq_list : is_list w ls vs;
    dq_owns : owns w s ls
  }.

(** Following [next] from the first block of [l] visits exactly [l] and
    reads the values [vs]. *)
Fixpoint chain (w : world) (l : list loc) (vs : list T) : Prop :=
  match l, vs with
  | [], [] => True
  | x :: l', v :: vs' =>
      (∃ b nd, blocks w !! x = Some b ∧ peek b = Some nd ∧
               next nd = head l' ∧ data nd = v) ∧
      chain w l' vs'
  | _, _ => False
  end.

(** What an operation on deque [this] with nodes [A] leaves alone: the other
    deque objects, the blocks outside [A] that existed before, and the
    tracking of those blocks. *)
Definition unchanged_outside (A : list loc) (this : did) (w w' : world) : Prop :=
  (∀ d, d ≠ this → deques w' !! d = deques w !! d) ∧
  (∀ a, a ∉ A → is_Some (blocks w !! a) → blocks w' !! a = blocks w !! a) ∧
  (∀ s st, strategies w !! s = Some st →
     ∃ st', strategies w' !! s = Some st' ∧
       ∀ a, a ∉ A → Some a ∈ allocEls st → Some a ∈ allocEls st').

(** The tracking list after [dealloc p]. *)
Definition erase (p : ptr) (l : list ptr) : list ptr :=
  match list_find (λ x, x = p) l with
  | Some (i, _) => delete i l
  | None => l
  end.

(** The node a constructor call builds from arguments that it only reads. *)
Definition ctor_node (args : ctor_args) (w : world) : option node_t :=
  match args with
  | CopyNode (Some a) => blocks w !! a ≫= peek
  | ByValue d p n => Some (Node n p d)
  | ByField (Some a) p n => s ← blocks w !! a ≫= peek; Some (Node n p (data s))
  | _ => None
  end.

(** ** Client programs used in the statements *)

(** A run of [PushBack], and runs of [PopFront] and of [PopBack] that
    collect what was returned. *)
Fixpoint push_back_all (this : did) (xs : list T) : M unit :=
  match xs with
  | [] => ret tt
  | x :: xs' => PushBack this x ;;; push_back_all this xs'
  end.

Fixpoint pop_front_n (this : did) (n : nat) : M (list T) :=
  match n with
  | 0 => ret []
  | S n' =>
      v <~ PopFront this ;;
      rest <~ pop_front_n this n' ;;
      ret (v :: rest)
  end.

Fixpoint pop_back_n (this : did) (n : nat) : M (list T) :=
  match n with
  | 0 => ret []
  | S n' =>
      v <~ PopBack this ;;
      rest <~ pop_back_n this n' ;;
      ret (v :: rest)
  end.

(** The operations that change the contents of one deque. *)
Inductive mutation :=
  | MPushBack (v : T)
  | MPushFront (v : T)
  | MPopBack
  | MPopFront
  | MClear.

Definition mutate (m : mutation) (this : did) : M unit :=
  match m with
  | MPushBack v => PushBack this v
  | MPushFront v => PushFront this v
  | MPopBack => PopBack this ;;; ret tt
  | MPopFront => PopFront this ;;; ret tt
  | MClear => Clear this
  end.

(** The call came back, normally or by an exception, with store [w']. *)
Definition finishes {A} (m : M A) (w w' : world) : Prop :=
  (∃ a, m w = Val a w') ∨ (∃ e, m w = Throw e w').

(** Deque [dst] (bound to [s']) is a copy of deque [src]: the same values
    in as many nodes of its own (none for an empty source, one node that is
    both [start] and [tail] for a single value), and whatever is done to one
    leaves the other as it is. *)
Definition copy_of (w : world) (src : did) (s : sid) (ls : list loc) (vs : list T)
    (dst : did) (s' : sid) : Prop :=
  ∃ ls', is_deque w dst s' ls' vs ∧ is_deque w src s ls vs ∧
    length ls' = length ls ∧
    (∀ a, a ∈ ls' → a ∉ ls) ∧
    (∀ m w', finishes (mutate m dst) w w' → is_deque w' src s ls vs) ∧
    (∀ m w', finishes (mutate m src) w w' → is_deque w' dst s' ls' vs).

(** The scenario of the demonstration driver: push 3 and 4 at the back,
    2 and 1 at the front, pop at the front, pop at the back; the deque is
    printed in between.  [v1 .. v4] stand for 1 .. 4. *)
Definition scenario (this : did) (v1 v2 v3 v4 : T)
    : M (list T * list T * T * list T * T * list T) :=
  PushBack this v3 ;;;
  PushBack this v4 ;;;
  l1 <~ print this ;;
  PushFront this v2 ;;;
  PushFront this v1 ;;;
  l2 <~ print this ;;
  a <~ PopFront this ;;
  l3 <~ print this ;;
  b <~ PopBack this ;;
  l4 <~ print this ;;
  ret (l1, l2, a, l3, b, l4).

(** The number of blocks strategy [s] has handed out and not got back. *)
Definition outstanding (s : sid) (w : world) : option nat :=
  (λ st, length (allocEls st)) <$> strategies w !! s.

(** The invariant of the data model: [start] is null exactly when [tail]
    is, and otherwise [n] steps along [next] lead from [start] to [tail] and
    [n] steps along [prev] lead back, for some [n]. *)
Fixpoint walk (sel : node_t → ptr) (n : nat) (p : ptr) (w : world) : option ptr :=
  match n with
  | 0 => Some p
  | S n' =>
      match p with
      | None => None
      | Some a => nd ← blocks w !! a ≫= peek; walk sel n' (sel nd) w
      end
  end.

Definition deque_invariant (w : world) (d : deque_t) : Prop :=
  (start d = None ↔ tail d = None) ∧
  (start d ≠ None →
     ∃ n, walk next n (start d) w = Some (tail d) ∧
          walk prev n (tail d) w = Some (start d)).

(** A store with two strategies, 0 and 1, that have handed out nothing, no
    deque, and [n] bytes for malloc to hand out. *)
Definition fresh_world (n : N) : world :=
  World ∅ n (<[0 := Strategy []]> (<[1 := Strategy []]> ∅)) ∅.

(** A new deque bound to strategy [s], filled with [xs] at the back. *)
Definition build (s : sid) (xs : list T) : M did :=
  this <~ deque_ctor s ;;
  push_back_all this xs ;;;
  ret this.

(** Any sequence of pushes and pops, collecting what the pops return. *)
Inductive op :=
  | OPushBack (v : T)
  | OPushFront (v : T)
  | OPopBack
  | OPopFront.

Definition run_op (this : did) (o : op) : M (list T) :=
  match o with
  | OPushBack v => PushBack this v ;;; ret []
  | OPushFront v => PushFront this v ;;; ret []
  | OPopBack => v <~ PopBack this ;; ret [v]
  | OPopFront => v <~ PopFront this ;; ret [v]
  end.

Fixpoint run_ops (this : did) (ops : list op) : M (list T) :=
  match ops with
  | [] => ret []
  | o :: ops' =>
      out <~ run_op this o ;;
      rest <~ run_ops this ops' ;;
      ret (out ++ rest)
  end.

(** The model the specification describes: the same operations on the
    front-to-back sequence of values; [None] when one pops from an empty
    sequence. *)
Definition seq_op (o : op) (vs : list T) : option (list T * list T) :=
  match o with
  | OPushBack v => Some ([], vs ++ [v])
  | OPushFront v => Some ([], v :: vs)
  | OPopBack =>
      match reverse vs with
      | [] => None
      | v :: r => Some ([v], reverse r)
      end
  | OPopFront =>
      match vs with
      | [] => None
      | v :: vs' => Some ([v], vs')
      end
  end.

Fixpoint seq_ops (ops : list op) (vs : list T) : option (list T * list T) :=
  match ops with
  | [] => Some ([], vs)
  | o :: ops' =>
      '(out, vs1) ← seq_op o vs;
      '(rest, vs2) ← seq_ops ops' vs1;
      Some (out ++ rest, vs2)
  end.

(** The number of pushes in a sequence. *)
Fixpoint pushes (ops : list op) : nat :=
  match ops with
  | [] => 0
  | (OPushBack _ | OPushFront _) :: ops' => S (pushes ops')
  | _ :: ops' => pushes ops'
  end.

(** ** Destructors and strategy creation

    A strategy object dies when the last [shared_ptr] to it goes; the
    handles held by locals and temporaries are not part of the store, so the
    destructor of a strategy is a call of its own here. *)

(** [std::make_shared<stupid_strategy_t>()] *)
Definition make_strategy : M sid := λ w,
  let s := fresh (dom (strategies w)) in
  Val s (with_strategies <[s := Strategy []]> w).

(** [for (auto el : allocEls) free(el);] *)
Fixpoint free_all (l : list ptr) : M unit :=
  match l with
  | [] => ret tt
  | el :: l' => free el ;;; free_all l'
  end.

(** [~stupid_strategy_t(void)] *)
Definition strategy_dtor (s : sid) : M unit :=
  st <~ get_strategy s ;;
  free_all (allocEls st) ;;;
  modify (with_strategies (delete s)).

(** [~deque_t(void)]; the object is gone afterwards. *)
Definition deque_dtor (this : did) : M unit :=
  d <~ get_deque this ;;
  FreeList (start d) (allocator d) ;;;
  modify (with_deques (delete this)).

(** ** The demonstration driver

    [deqGenetor] of [main]: a deque on a strategy of its own, filled with
    [x] and returned by value, that is by the move constructor, after which
    the local deque is destroyed. *)
Definition deqGenetor (x : T) : M did :=
  s <~ make_strategy ;;
  deq <~ deque_ctor s ;;
  PushBack deq x ;;;
  r <~ move_ctor deq ;;
  deque_dtor deq ;;;
  ret r.

(** ** The earlier revision of deque.h

    It names the members [begin] and [end] (here [start] and [tail]); its
    [CopyList] does not test for a null argument, the copying constructors
    and [operator=] test before they call it, and [ChangeAllocator] calls
    it without a test.  The functions not listed read as in the later
    revision. *)

(** [void CopyList(node_t const *beginToCopy)] *)
Definition CopyList_rev1 (this : did) (beginToCopy : ptr) : M unit :=
  n <~ fuel ;;
  d <~ get_deque this ;;
  p <~ alloc (allocator d) (CopyNode beginToCopy) ;;
  set_start this p ;;;
  src <~ load beginToCopy ;;
  pv <~ CopyList_loop n (allocator d) (next src) p ;;
  set_tail this pv ;;;
  update pv (set_next None).

(** [deque_t(deque_t const &lhs)] *)
Definition copy_ctor_rev1 (lhs : did) : M did :=
  l <~ get_deque lhs ;;
  this <~ new_deque (Deque None None (allocator l)) ;;
  l <~ get_deque lhs ;;
  match start l with
  | None =>
      set_start this None ;;;
      set_tail this None ;;;
      ret this
  | Some _ =>
      CopyList_rev1 this (start l) ;;;
      ret this
  end.

(** [deque_t(deque_t const &lhs, std::shared_ptr<alloc_strategy_t> const &strategy)] *)
Definition copy_ctor_with_rev1 (lhs : did) (strategy : sid) : M did :=
  this <~ new_deque (Deque None None (Allocator (Some strategy))) ;;
  l <~ get_deque lhs ;;
  match start l with
  | None =>
      set_start this None ;;;
      set_tail this None ;;;
      ret this
  | Some _ =>
      CopyList_rev1 this (start l) ;;;
      ret this
  end.

(** [void operator=(deque_t const &lhs)] *)
Definition copy_assign_rev1 (this lhs : did) : M unit :=
  d <~ get_deque this ;;
  FreeList (start d) (allocator d) ;;;
  l <~ get_deque lhs ;;
  set_allocator this (allocator l) ;;;
  l <~ get_deque lhs ;;
  match start l with
  | None =>
      set_start this None ;;;
      set_tail this None
  | Some _ => CopyList_rev1 this (start l)
  end.

(** [void ChangeAllocator(std::shared_ptr<alloc_strategy_t> const &strategy)] *)
Definition ChangeAllocator_rev1 (this : did) (strategy : sid) : M unit :=
  d <~ get_deque this ;;
  let prevAllocator := allocator d in
  set_allocator this (Allocator (Some strategy)) ;;;
  d <~ get_deque this ;;
  CopyList_rev1 this (start d) ;;;
  d <~ get_deque this ;;
  FreeList (start d) prevAllocator.

(** ** The bookkeeping of the strategies

    Strategy [s] tracks the block at [a]. *)
Definition tracked (w : world) (s : sid) (a : loc) : Prop :=
  ∃ st, strategies w !! s = Some st ∧ Some a ∈ allocEls st.

(** The addresses in a tracking list, the null pointers it recorded left out. *)
Definition held (l : list ptr) : list loc := omap id l.

(** Every tracked block is live, and tracked by one strategy at one place
    of its list. *)
Record heap_inv (w : world) : Prop := HeapInv {
  hi_live : ∀ s a, tracked w s a → is_Some (blocks w !! a);
  hi_once : ∀ s st, strategies w !! s = Some st → NoDup (held (allocEls st));
  hi_one : ∀ s1 s2 a, tracked w s1 a → tracked w s2 a → s1 = s2
}.

(** Every live block is tracked. *)
Definition no_leak (w : world) : Prop :=
  ∀ a, is_Some (blocks w !! a) → ∃ s, tracked w s a.

(** [m] keeps the bookkeeping in order whenever it comes back, normally or
    by an exception, and loses track of no block unless it comes back by
    [std::bad_alloc]. *)
Definition preserves {A} (m : M A) : Prop :=
  ∀ w, heap_inv w →
    match m w with
    | Val _ w' => heap_inv w' ∧ (no_leak w → no_leak w')
    | Throw e w' => heap_inv w' ∧ (e ≠ bad_alloc → no_leak w → no_leak w')
    | Fault => True
    | Timeout => True
    end.

(** Whenever [m] comes back, normally or by an exception, the store it
    leaves is related by [R] to the store it found. *)
Definition keeps (R : relation world) {A} (m : M A) : Prop :=
  ∀ w,
    match m w with
    | Val _ w' => R w w'
    | Throw _ w' => R w w'
    | Fault => True
    | Timeout => True
    end.

(** No deque object was written; nothing at all was written. *)
Definition same_deques : relation world := λ w w', deques w' = deques w.
Definition unchanged : relation world := λ w w', w' = w.

(** Every call a client can make on the strategies, the typed allocator
    and the deques. *)
Inductive call :=
  | CMakeStrategy
  | CStrategyAlloc (s : sid) (numOfBytes : N)
  | CStrategyDealloc (s : sid) (p : ptr)
  | CStrategyDtor (s : sid)
  | CAlloc (a : single_allocator_t) (args : ctor_args)
  | CDealloc (a : single_allocator_t) (p : ptr)
  | CDequeCtor (s : sid)
  | CCopyCtor (lhs : did)
  | CCopyCtorWith (lhs : did) (s : sid)
  | CMoveCtor (rhs : did)
  | CCopyAssign (this lhs : did)
  | CCopy (this lhs : did) (s : sid)
  | CMoveAssign (this rhs : did)
  | CDequeDtor (this : did)
  | CPushBack (this : did) (v : T)
  | CPushFront (this : did) (v : T)
  | CPopBack (this : did)
  | CPopFront (this : did)
  | CIsEmpty (this : did)
  | CClear (this : did)
  | CChangeAllocator (this : did) (s : sid)
  | CPrint (this : did)
  | CIterate (this : did)
  | CAssign (it : iterator_t) (v : T)        (* *it = v *)
  | CPreInc (it : iterator_t)
  | CPostInc (it : iterator_t).

Definition exec (c : call) : M unit :=
  match c with
  | CMakeStrategy => make_strategy ;;; ret tt
  | CStrategyAlloc s n => strategy_alloc s n ;;; ret tt
  | CStrategyDealloc s p => strategy_dealloc s p
  | CStrategyDtor s => strategy_dtor s
  | CAlloc a args => alloc a args ;;; ret tt
  | CDealloc a p => dealloc a p
  | CDequeCtor s => deque_ctor s ;;; ret tt
  | CCopyCtor lhs => copy_ctor lhs ;;; ret tt
  | CCopyCtorWith lhs s => copy_ctor_with lhs s ;;; ret tt
  | CMoveCtor rhs => move_ctor rhs ;;; ret tt
  | CCopyAssign this lhs => copy_assign this lhs
  | CCopy this lhs s => Copy this lhs s
  | CMoveAssign this rhs => move_assign this rhs
  | CDequeDtor this => deque_dtor this
  | CPushBack this v => PushBack this v
  | CPushFront this v => PushFront this v
  | CPopBack this => PopBack this ;;; ret tt
  | CPopFront this => PopFront this ;;; ret tt
  | CIsEmpty this => IsEmpty this ;;; ret tt
  | CClear this => Clear this
  | CChangeAllocator this s => ChangeAllocator this s
  | CPrint this => print this ;;; ret tt
  | CIterate this => iterate this ;;; ret tt
  | CAssign it v => r <~ iter_deref it ;; ref_set r v
  | CPreInc it => iter_preinc it ;;; ret tt
  | CPostInc it => iter_postinc it ;;; ret tt
  end.

(** A client that catches whatever a call throws and goes on. *)
Definition catch {A} (m : M A) : M unit := λ w,
  match m w with
  | Val _ w' => Val tt w'
  | Throw _ w' => Val tt w'
  | Fault => Fault
  | Timeout => Timeout
  end.

Fixpoint exec_all (cs : list call) : M unit :=
  match cs with
  | [] => ret tt
  | c :: cs' => catch (exec c) ;;; exec_all cs'
  end.

(** The same client, keeping a log of what it caught. *)
Definition attempt {A} (m : M A) : M (list exn) := λ w,
  match m w with
  | Val _ w' => Val [] w'
  | Throw e w' => Val [e] w'
  | Fault => Fault
  | Timeout => Timeout
  end.

Fixpoint exec_log (cs : list call) : M (list exn) :=
  match cs with
  | [] => ret []
  | c :: cs' =>
      caught <~ attempt (exec c) ;;
      later <~ exec_log cs' ;;
      ret (caught ++ later)
  end.

(** * Properties *)

(** ** Stepping through a computation *)

Lemma bind_Val {A B} (m : M A) (k : A → M B) w a w' r :
  m w = Val a w' → k a w' = r → bind m k w = r.
Proof. unfold bind. by intros -> <-. Qed.

Lemma bind_Throw {A B} (m : M A) (k : A → M B) w e w' :
  m w = Throw e w' → bind m k w = Throw e w'.
Proof. unfold bind. by intros ->. Qed.

Lemma bind_Fault {A B} (m : M A) (k : A → M B) w :
  m w = Fault → bind m k w = Fault.
Proof. unfold bind. by intros ->. Qed.

(** [step tac] runs the first action of a sequence, whose result [tac] proves. *)
Ltac step tac := eapply bind_Val; [ tac | cbv beta ].

(** [set_solver], kept from pulling the section's parameters into a proof
    that has no use for them. *)
Ltac sets := try clear moved_from; try clear sizeof_node; set_solver.

Lemma get_deque_Val this d w :
  deques w !! this = Some d → get_deque this w = Val d w.
Proof. unfold get_deque. by intros ->. Qed.

Lemma put_deque_Val this f d w :
  deques w !! this = Some d →
  put_deque this f w = Val tt (with_deques <[this := f d]> w).
Proof. intros H. unfold put_deque. step ltac:(by apply get_deque_Val). done. Qed.

Lemma get_strategy_Val s st w :
  strategies w !! s = Some st → get_strategy s w = Val st w.
Proof. unfold get_strategy. by intros ->. Qed.

Lemma load_Val a b n w :
  blocks w !! a = Some b → peek b = Some n → load (Some a) w = Val n w.
Proof. unfold load. intros -> Hp. simpl. by rewrite Hp. Qed.

Lemma load_freed a w : blocks w !! a = None → load (Some a) w = Fault.
Proof. unfold load. by intros ->. Qed.

Lemma update_Val a sz n f w :
  blocks w !! a = Some (Block sz (Obj n)) →
  update (Some a) f w = Val tt (with_blocks <[a := Block sz (Obj (f n))]> w).
Proof. unfold update. by intros ->. Qed.

(** *** The strategy *)

Lemma malloc_Val n w :
  (n ≤ avail w)%N →
  malloc n w = Val (Some (fresh (dom (blocks w))))
    (with_blocks <[fresh (dom (blocks w)) := Block n Raw]> (with_avail (avail w - n) w)).
Proof. unfold malloc. intros H. by rewrite (proj2 (N.leb_le _ _) H). Qed.

Lemma malloc_null n w : (avail w < n)%N → malloc n w = Val None w.
Proof. unfold malloc. intros H. by rewrite (proj2 (N.leb_gt _ _) H). Qed.

Lemma fresh_block_None w : blocks w !! fresh (dom (blocks w)) = None.
Proof. apply not_elem_of_dom, is_fresh. Qed.

Lemma list_node_room_Val w :
  (sizeof_entry ≤ avail w)%N → list_node_room w = Val true w.
Proof. intros H. unfold list_node_room. by rewrite bool_decide_eq_true_2. Qed.

Lemma list_node_room_none w :
  (avail w < sizeof_entry)%N → list_node_room w = Val false w.
Proof.
  intros H. unfold list_node_room. rewrite bool_decide_eq_false_2; [done|lia].
Qed.

Lemma strategy_alloc_Val s st n w :
  strategies w !! s = Some st → (sizeof_entry ≤ avail w)%N → (n ≤ avail w)%N →
  strategy_alloc s n w = Val (Some (fresh (dom (blocks w))))
    (World (<[fresh (dom (blocks w)) := Block n Raw]> (blocks w)) (avail w - n)
       (<[s := Strategy (allocEls st ++ [Some (fresh (dom (blocks w)))])]> (strategies w))
       (deques w)).
Proof.
  intros Hs Hroom Hn. unfold strategy_alloc.
  step ltac:(by apply get_strategy_Val).
  step ltac:(by apply list_node_room_Val).
  step ltac:(by apply malloc_Val).
  step ltac:(by apply get_strategy_Val).
  done.
Qed.

Lemma strategy_alloc_null s st n w :
  strategies w !! s = Some st → (sizeof_entry ≤ avail w)%N → (avail w < n)%N →
  strategy_alloc s n w =
    Val None (with_strategies <[s := Strategy (allocEls st ++ [None])]> w).
Proof.
  intros Hs Hroom Hn. unfold strategy_alloc.
  step ltac:(by apply get_strategy_Val).
  step ltac:(by apply list_node_room_Val).
  step ltac:(by apply malloc_null).
  step ltac:(by apply get_strategy_Val).
  done.
Qed.

(** No list node: [std::bad_alloc], after [malloc] did what it could. *)
Lemma strategy_alloc_leak s st n w :
  strategies w !! s = Some st → (avail w < sizeof_entry)%N → (n ≤ avail w)%N →
  strategy_alloc s n w = Throw bad_alloc
    (with_blocks <[fresh (dom (blocks w)) := Block n Raw]> (with_avail (avail w - n) w)).
Proof.
  intros Hs Hroom Hn. unfold strategy_alloc.
  step ltac:(by apply get_strategy_Val).
  step ltac:(by apply list_node_room_none).
  step ltac:(by apply malloc_Val).
  done.
Qed.

Lemma strategy_alloc_throws s st n w :
  strategies w !! s = Some st → (avail w < sizeof_entry)%N → (avail w < n)%N →
  strategy_alloc s n w = Throw bad_alloc w.
Proof.
  intros Hs Hroom Hn. unfold strategy_alloc.
  step ltac:(by apply get_strategy_Val).
  step ltac:(by apply list_node_room_none).
  step ltac:(by apply malloc_null).
  done.
Qed.

Lemma list_find_tracked (p : ptr) (l : list ptr) :
  p ∈ l → ∃ i, list_find (λ x, x = p) l = Some (i, p).
Proof.
  intros Hin. destruct (list_find (λ x, x = p) l) as [[i x]|] eqn:E.
  - apply list_find_Some in E as (_ & -> & _). eauto.
  - apply list_find_None in E. rewrite Forall_forall in E. by destruct (E p Hin).
Qed.

Lemma list_find_untracked (p : ptr) (l : list ptr) :
  p ∉ l → list_find (λ x, x = p) l = None.
Proof.
  intros Hin. apply list_find_None, Forall_forall. intros x Hx ->. done.
Qed.

Lemma erase_split (p : ptr) (l : list ptr) :
  p ∈ l → ∃ l1 l2, l = l1 ++ p :: l2 ∧ (p ∉ l1) ∧ erase p l = l1 ++ l2.
Proof.
  intros Hin. unfold erase.
  destruct (list_find (λ x, x = p) l) as [[i x]|] eqn:E.
  - apply list_find_Some in E as (Hi & -> & Hbefore).
    exists (take i l), (drop (S i) l). split_and!.
    + by rewrite take_drop_middle.
    + intros Hel. apply list_elem_of_lookup in Hel as [j Hj].
      pose proof (lookup_lt_Some _ _ _ Hj) as Hlt.
      rewrite length_take in Hlt.
      rewrite lookup_take_lt in Hj by lia.
      apply (Hbefore j p); [done | lia | done].
    + by rewrite delete_take_drop.
  - apply list_find_None in E. rewrite Forall_forall in E. by destruct (E p Hin).
Qed.

Lemma elem_of_erase_ne (p q : ptr) (l : list ptr) :
  q ≠ p → q ∈ l → q ∈ erase p l.
Proof.
  intros Hne Hq. destruct (decide (p ∈ l)) as [Hp|Hp].
  - destruct (erase_split p l Hp) as (l1 & l2 & Hl & _ & ->).
    rewrite Hl in Hq. sets.
  - unfold erase. by rewrite list_find_untracked.
Qed.

Lemma elem_of_erase (p q : ptr) (l : list ptr) : q ∈ erase p l → q ∈ l.
Proof.
  destruct (decide (p ∈ l)) as [Hp|Hp].
  - destruct (erase_split p l Hp) as (l1 & l2 & Hl & _ & ->).
    rewrite Hl. sets.
  - unfold erase. by rewrite list_find_untracked.
Qed.

Lemma strategy_dealloc_tracked s st a b w :
  strategies w !! s = Some st → Some a ∈ allocEls st → blocks w !! a = Some b →
  strategy_dealloc s (Some a) w =
    Val tt (World (delete a (blocks w)) (avail w + bsize b)
              (<[s := Strategy (erase (Some a) (allocEls st))]> (strategies w))
              (deques w)).
Proof.
  intros Hs Hin Hb. unfold strategy_dealloc, erase.
  step ltac:(by apply get_strategy_Val).
  destruct (list_find_tracked _ _ Hin) as [i ->].
  eapply bind_Val; [ unfold free; by rewrite Hb | done ].
Qed.

Lemma strategy_dealloc_untracked s st p w :
  strategies w !! s = Some st → p ∉ allocEls st →
  strategy_dealloc s p w = Val tt w.
Proof.
  intros Hs Hin. unfold strategy_dealloc.
  step ltac:(by apply get_strategy_Val).
  by rewrite list_find_untracked.
Qed.


(** *** The typed allocator *)

Lemma ctor_node_fresh args w b :
  is_Some (ctor_node args w) →
  ctor_node args (with_blocks <[fresh (dom (blocks w)) := b]> w) = ctor_node args w.
Proof.
  intros [nd Hnd].
  destruct args as [[a|]|[a|]|d p n|[a|] p n]; simpl in *; try done.
  - destruct (blocks w !! a) eqn:E; [|done].
    rewrite lookup_insert_ne; [by rewrite E|].
    intros <-. by rewrite fresh_block_None in E.
  - destruct (blocks w !! a) eqn:E; [|done].
    rewrite lookup_insert_ne; [by rewrite E|].
    intros <-. by rewrite fresh_block_None in E.
Qed.

Lemma eval_ctor_Val args nd w :
  ctor_node args w = Some nd → eval_ctor args w = Val nd w.
Proof.
  destruct args as [[a|]|[a|]|d p n|[a|] p n]; simpl; try done.
  - unfold load. by intros ->.
  - by intros [= <-].
  - intros H. unfold bind, load.
    destruct (blocks w !! a ≫= peek) as [sn|]; simplify_eq/=. done.
Qed.

Lemma bind_args_Val args nd w :
  ctor_node args w = Some nd → bind_args args w = Val tt w.
Proof.
  destruct args as [[a|]|[a|]|d p n|[a|] p n]; simpl; try done.
  - unfold bind_ref. by destruct (blocks w !! a).
  - unfold bind_ref. by destruct (blocks w !! a).
Qed.

Lemma alloc_Val a s st args nd w :
  allocStrategy a = Some s → strategies w !! s = Some st →
  (sizeof_node ≤ avail w)%N → ctor_node args w = Some nd →
  alloc a args w = Val (Some (fresh (dom (blocks w))))
    (World (<[fresh (dom (blocks w)) := Block sizeof_node (Obj nd)]> (blocks w))
       (avail w - sizeof_node)
       (<[s := Strategy (allocEls st ++ [Some (fresh (dom (blocks w)))])]> (strategies w))
       (deques w)).
Proof.
  intros Ha Hs Hn Hnd. unfold alloc.
  step ltac:(by eapply bind_args_Val).
  step ltac:(unfold strategy_of; by rewrite Ha).
  step ltac:(by apply strategy_alloc_Val).
  step ltac:(apply eval_ctor_Val;
             rewrite <- Hnd; apply (ctor_node_fresh args w); by rewrite Hnd).
  eapply bind_Val.
  - unfold construct. simpl. by rewrite lookup_insert_eq.
  - unfold ret, with_blocks. simpl. by rewrite insert_insert_eq.
Qed.

(** No room for a node: no room for a list node either. *)
Lemma alloc_throws a s st args w :
  allocStrategy a = Some s → strategies w !! s = Some st →
  (avail w < sizeof_node)%N → bind_args args w = Val tt w →
  alloc a args w = Throw bad_alloc w.
Proof.
  intros Ha Hs Hn Hargs. unfold alloc.
  step ltac:(exact Hargs).
  step ltac:(unfold strategy_of; by rewrite Ha).
  apply bind_Throw. by apply (strategy_alloc_throws s st).
Qed.

Lemma dealloc_Val a s st x b n w :
  allocStrategy a = Some s → strategies w !! s = Some st →
  Some x ∈ allocEls st → blocks w !! x = Some b → peek b = Some n →
  dealloc a (Some x) w =
    Val tt (World (delete x (blocks w)) (avail w + bsize b)
              (<[s := Strategy (erase (Some x) (allocEls st))]> (strategies w))
              (deques w)).
Proof.
  intros Ha Hs Hin Hb Hp. unfold dealloc.
  step ltac:(unfold destroy; by rewrite Hb, Hp).
  step ltac:(unfold strategy_of; by rewrite Ha).
  erewrite strategy_dealloc_tracked; [|done|done|by apply lookup_insert_eq].
  simpl. by rewrite delete_insert_eq.
Qed.

Lemma dealloc_untracked a s st x b n w :
  allocStrategy a = Some s → strategies w !! s = Some st →
  Some x ∉ allocEls st → blocks w !! x = Some b → peek b = Some n →
  dealloc a (Some x) w =
    Val tt (with_blocks <[x := Block (bsize b) (Dead n)]> w).
Proof.
  intros Ha Hs Hin Hb Hp. unfold dealloc.
  step ltac:(unfold destroy; by rewrite Hb, Hp).
  step ltac:(unfold strategy_of; by rewrite Ha).
  by erewrite strategy_dealloc_untracked.
Qed.


(** ** Lists in the store *)

Lemma pred_ptr_app_l (ls l2 : list loc) i :
  i ≤ length ls → pred_ptr (ls ++ l2) i = pred_ptr ls i.
Proof. destruct i as [|j]; simpl; [done|]. intros. apply lookup_app_l. lia. Qed.

Lemma pred_ptr_length (ls l2 : list loc) :
  pred_ptr (ls ++ l2) (length ls) = last ls.
Proof.
  rewrite pred_ptr_app_l by done. rewrite last_lookup.
  by destruct ls.
Qed.

Lemma is_list_nil w : is_list w [] [].
Proof. split; [done|constructor|]. intros i a v Hi. by rewrite lookup_nil in Hi. Qed.

Lemma is_list_frame w w' ls vs :
  (∀ a, a ∈ ls → blocks w' !! a = blocks w !! a) →
  is_list w ls vs → is_list w' ls vs.
Proof.
  intros Hf [Hl Hn Hnodes]. split; [done|done|].
  intros i a v Hi Hv. rewrite Hf; [eauto|]. by eapply list_elem_of_lookup_2.
Qed.

Lemma is_list_block w ls vs a :
  is_list w ls vs → a ∈ ls → ∃ sz n, blocks w !! a = Some (Block sz (Obj n)).
Proof.
  intros [Hl Hn Hnodes] Ha. apply list_elem_of_lookup in Ha as [i Hi].
  destruct (lookup_lt_is_Some_2 vs i) as [v Hv].
  { rewrite <- Hl. by eapply lookup_lt_Some. }
  destruct (Hnodes i a v Hi Hv) as [sz Hb]. eauto.
Qed.

Lemma is_list_head w x ls v vs :
  is_list w (x :: ls) (v :: vs) →
  ∃ sz, blocks w !! x = Some (Block sz (Obj (Node (head ls) None v))).
Proof.
  intros [_ _ Hnodes]. destruct (Hnodes 0 x v eq_refl eq_refl) as [sz Hb].
  exists sz. rewrite Hb. unfold node_at. simpl. by rewrite head_lookup.
Qed.

Lemma is_list_last w x ls v vs :
  is_list w (ls ++ [x]) (vs ++ [v]) →
  ∃ sz, blocks w !! x = Some (Block sz (Obj (Node None (last ls) v))).
Proof.
  intros [Hl _ Hnodes]. rewrite !length_app in Hl. simpl in Hl.
  destruct (Hnodes (length ls) x v) as [sz Hb].
  { by rewrite list_lookup_middle. }
  { rewrite list_lookup_middle; [done|lia]. }
  exists sz. rewrite Hb. unfold node_at.
  rewrite pred_ptr_length. rewrite lookup_ge_None_2; [done|].
  rewrite length_app. simpl. lia.
Qed.

Lemma is_list_snoc w w' ls vs x v sz :
  is_list w ls vs → x ∉ ls →
  blocks w' !! x = Some (Block sz (Obj (Node None (last ls) v))) →
  (∀ t szt nt, last ls = Some t → blocks w !! t = Some (Block szt (Obj nt)) →
     blocks w' !! t = Some (Block szt (Obj (set_next (Some x) nt)))) →
  (∀ a, a ≠ x → last ls ≠ Some a → blocks w' !! a = blocks w !! a) →
  is_list w' (ls ++ [x]) (vs ++ [v]).
Proof.
  intros [Hl Hn Hnodes] Hx Hbx Hlast Hother. split.
  - rewrite !length_app. simpl. lia.
  - apply NoDup_app. split_and!; [done| |apply NoDup_singleton].
    intros a Ha ->%list_elem_of_singleton. done.
  - intros i a v' Hi Hv.
    destruct (decide (i < length ls)) as [Hlt|Hge].
    + rewrite lookup_app_l in Hi by done.
      rewrite lookup_app_l in Hv by lia.
      destruct (Hnodes i a v' Hi Hv) as [sz' Hb].
      exists sz'. destruct (decide (S i = length ls)) as [Hend|Hmid].
      * assert (last ls = Some a) as Hla.
        { rewrite last_lookup. by replace (pred (length ls)) with i by lia. }
        rewrite (Hlast _ _ _ Hla Hb). unfold node_at, set_next. simpl.
        rewrite pred_ptr_app_l by lia. rewrite Hend.
        by rewrite list_lookup_middle.
      * rewrite Hother, Hb.
        -- unfold node_at. rewrite pred_ptr_app_l by lia.
           by rewrite lookup_app_l by lia.
        -- intros ->. apply Hx. by eapply list_elem_of_lookup_2.
        -- rewrite last_lookup. intros Hla.
           pose proof (NoDup_lookup _ _ _ _ Hn Hi Hla). lia.
    + pose proof (lookup_lt_Some _ _ _ Hi) as Hlen.
      rewrite length_app in Hlen. simpl in Hlen.
      assert (i = length ls) as -> by lia.
      rewrite list_lookup_middle in Hi by done.
      rewrite list_lookup_middle in Hv by lia.
      simplify_eq. exists sz. rewrite Hbx. unfold node_at.
      rewrite pred_ptr_length. rewrite lookup_ge_None_2; [done|].
      rewrite length_app. simpl. lia.
Qed.

Lemma is_list_cons w w' ls vs x v sz :
  is_list w ls vs → x ∉ ls →
  blocks w' !! x = Some (Block sz (Obj (Node (head ls) None v))) →
  (∀ h szh nh, head ls = Some h → blocks w !! h = Some (Block szh (Obj nh)) →
     blocks w' !! h = Some (Block szh (Obj (set_prev (Some x) nh)))) →
  (∀ a, a ≠ x → head ls ≠ Some a → blocks w' !! a = blocks w !! a) →
  is_list w' (x :: ls) (v :: vs).
Proof.
  intros [Hl Hn Hnodes] Hx Hbx Hhead Hother. split.
  - simpl. lia.
  - by apply NoDup_cons.
  - intros [|i] a v' Hi Hv; simpl in Hi, Hv.
    + simplify_eq. exists sz. rewrite Hbx. unfold node_at. simpl.
      by rewrite head_lookup.
    + destruct (Hnodes i a v' Hi Hv) as [sz' Hb]. exists sz'.
      destruct i as [|i].
      * assert (head ls = Some a) as Hha by by rewrite head_lookup.
        by rewrite (Hhead _ _ _ Hha Hb).
      * rewrite Hother, Hb; [done| |].
        -- intros ->. apply Hx. by eapply list_elem_of_lookup_2.
        -- rewrite head_lookup. intros Hha.
           pose proof (NoDup_lookup _ _ _ _ Hn Hi Hha). lia.
Qed.

Lemma is_list_unsnoc w w' ls vs x v :
  is_list w (ls ++ [x]) (vs ++ [v]) →
  (∀ t szt nt, last ls = Some t → blocks w !! t = Some (Block szt (Obj nt)) →
     blocks w' !! t = Some (Block szt (Obj (set_next None nt)))) →
  (∀ a, a ≠ x → last ls ≠ Some a → blocks w' !! a = blocks w !! a) →
  is_list w' ls vs.
Proof.
  intros [Hl Hn Hnodes] Hlast Hother.
  rewrite !length_app in Hl. simpl in Hl.
  apply NoDup_app in Hn as (Hn & Hx & _). split; [lia|done|].
  intros i a v' Hi Hv. pose proof (lookup_lt_Some _ _ _ Hi) as Hlt.
  destruct (Hnodes i a v') as [sz' Hb].
  { by rewrite lookup_app_l. }
  { rewrite lookup_app_l; [done|lia]. }
  exists sz'. destruct (decide (S i = length ls)) as [Hend|Hmid].
  - assert (last ls = Some a) as Hla.
    { rewrite last_lookup. by replace (pred (length ls)) with i by lia. }
    rewrite (Hlast _ _ _ Hla Hb). unfold node_at, set_next. simpl.
    rewrite pred_ptr_app_l by lia.
    by rewrite (lookup_ge_None_2 ls (S i)) by lia.
  - rewrite Hother, Hb.
    + unfold node_at. rewrite pred_ptr_app_l by lia.
      by rewrite lookup_app_l by lia.
    + intros ->. apply (Hx x); [by eapply list_elem_of_lookup_2|sets].
    + rewrite last_lookup. intros Hla.
      pose proof (NoDup_lookup _ _ _ _ Hn Hi Hla). lia.
Qed.

Lemma is_list_uncons w w' ls vs x v :
  is_list w (x :: ls) (v :: vs) →
  (∀ h szh nh, head ls = Some h → blocks w !! h = Some (Block szh (Obj nh)) →
     blocks w' !! h = Some (Block szh (Obj (set_prev None nh)))) →
  (∀ a, a ≠ x → head ls ≠ Some a → blocks w' !! a = blocks w !! a) →
  is_list w' ls vs.
Proof.
  intros [Hl Hn Hnodes] Hhead Hother. simpl in Hl.
  apply NoDup_cons in Hn as [Hx Hn]. split; [lia|done|].
  intros i a v' Hi Hv.
  destruct (Hnodes (S i) a v' Hi Hv) as [sz' Hb]. exists sz'.
  destruct i as [|i].
  - assert (head ls = Some a) as Hha by by rewrite head_lookup.
    by rewrite (Hhead _ _ _ Hha Hb).
  - rewrite Hother, Hb; [done| |].
    + intros ->. apply Hx. by eapply list_elem_of_lookup_2.
    + rewrite head_lookup. intros Hha.
      pose proof (NoDup_lookup _ _ _ _ Hn Hi Hha). lia.
Qed.


(** ** Framing *)

Lemma is_deque_unchanged A this w w' d s ls vs :
  unchanged_outside A this w w' → d ≠ this → (∀ a, a ∈ ls → a ∉ A) →
  is_deque w d s ls vs → is_deque w' d s ls vs.
Proof.
  intros (Hd & Hb & Hs) Hne Hdisj [Hobj Hlist (st & Hst & Hown)]. split.
  - by rewrite Hd.
  - eapply is_list_frame; [|done]. intros a Ha. apply Hb; [by apply Hdisj|].
    destruct (is_list_block _ _ _ _ Hlist Ha) as (sz & n & ->). eauto.
  - destruct (Hs _ _ Hst) as (st' & Hst' & Hkeep). exists st'. split; [done|].
    intros a Ha. apply Hkeep; [by apply Hdisj|by apply Hown].
Qed.

Lemma unchanged_outside_intro A this s st l' d' w w' :
  strategies w !! s = Some st →
  deques w' = <[this := d']> (deques w) →
  strategies w' = <[s := Strategy l']> (strategies w) →
  (∀ a, a ∉ A → Some a ∈ allocEls st → Some a ∈ l') →
  (∀ a, a ∉ A → is_Some (blocks w !! a) → blocks w' !! a = blocks w !! a) →
  unchanged_outside A this w w'.
Proof.
  intros Hst Hd Hs Hl Hb. split_and!; [|done|].
  - intros d Hne. rewrite Hd. by apply lookup_insert_ne.
  - intros s0 st0 Hst0. rewrite Hs. destruct (decide (s0 = s)) as [->|Hne].
    + rewrite lookup_insert_eq. eexists. split; [done|]. simpl. simplify_eq. done.
    + rewrite lookup_insert_ne by done. eauto.
Qed.

(** ** Push *)

(** Projections of records and of updated stores. *)
Ltac fields :=
  cbn [start tail allocator allocStrategy next prev data bsize bstore node
       blocks avail strategies deques allocEls
       with_blocks with_deques with_strategies with_avail].
Tactic Notation "fields" "in" hyp(H) :=
  cbn [start tail allocator allocStrategy next prev data bsize bstore node
       blocks avail strategies deques allocEls
       with_blocks with_deques with_strategies with_avail] in H.
Ltac lookup := fields; rewrite ?lookup_insert_eq; done.

Lemma PushBack_spec w this s ls vs v :
  is_deque w this s ls vs → (sizeof_node ≤ avail w)%N →
  ∃ w', PushBack this v w = Val tt w' ∧
    is_deque w' this s (ls ++ [fresh (dom (blocks w))]) (vs ++ [v]) ∧
    avail w' = (avail w - sizeof_node)%N ∧
    unchanged_outside ls this w w'.
Proof.
  intros [Hobj Hlist (st & Hst & Hown)] Hmem.
  pose proof (fresh_block_None w) as Hfresh.
  set (x := fresh (dom (blocks w))) in *.
  assert (∀ a b, blocks w !! a = Some b → x ≠ a) as Hnew.
  { intros a b Hb <-. rewrite Hfresh in Hb. done. }
  assert (x ∉ ls) as Hx.
  { intros Hin. destruct (is_list_block _ _ _ _ Hlist Hin) as (? & ? & ?). by eapply Hnew. }
  destruct (last ls) as [t|] eqn:Hlast.
  - (* a list with last node [t] *)
    assert (t ∈ ls) as Ht.
    { rewrite last_lookup in Hlast. by eapply list_elem_of_lookup_2. }
    destruct (is_list_block _ _ _ _ Hlist Ht) as (szt & nt & Hbt).
    assert (is_Some (head ls)) as [h Hh].
    { destruct ls; [done|]. fields. eauto. }
    rewrite Hh in Hobj.
    eexists. split; [|split_and!].
    + unfold PushBack.
      step ltac:(by apply get_deque_Val).
      step ltac:(by eapply alloc_Val).
      unfold set_tail.
      step ltac:(by eapply put_deque_Val).
      step ltac:(apply get_deque_Val; lookup).
      fields.
      step ltac:(eapply load_Val; [lookup|done]).
      fields. eapply update_Val. fields.
      rewrite lookup_insert_ne; [done|]. by eapply Hnew.
    + split.
      * fields. rewrite lookup_insert_eq. rewrite last_snoc.
        destruct ls; [done|]. simpl in *. by rewrite Hh.
      * eapply is_list_snoc; [done|done| | |].
        -- fields. rewrite lookup_insert_ne; [|apply not_eq_sym; by eapply Hnew].
           rewrite lookup_insert_eq. by rewrite Hlast.
        -- intros t' szt' nt' Ht' Hbt'. fields. simplify_eq.
           by rewrite lookup_insert_eq.
        -- intros a Ha Hla. fields. rewrite !lookup_insert_ne; [done|done|].
           intros <-. by rewrite Hlast in Hla.
      * exists (Strategy (allocEls st ++ [Some x])). split; [lookup|].
        intros a Ha. fields. sets.
    + done.
    + eapply unchanged_outside_intro; [done|done|done| |].
      * intros a _ Ha. sets.
      * intros a Ha [b Hb]. fields. rewrite !lookup_insert_ne; [done| |].
        -- by eapply Hnew.
        -- intros <-. done.
  - (* the empty list *)
    assert (ls = []) as -> by (by destruct ls using rev_ind; [|rewrite last_snoc in Hlast]).
    destruct Hlist as [Hl _ _]. destruct vs; [|done]. simpl in Hobj.
    eexists. split; [|split_and!].
    + unfold PushBack.
      step ltac:(by apply get_deque_Val).
      step ltac:(by eapply alloc_Val).
      unfold set_tail.
      step ltac:(by eapply put_deque_Val).
      step ltac:(apply get_deque_Val; lookup).
      fields. unfold set_start. eapply put_deque_Val. lookup.
    + split.
      * fields. by rewrite lookup_insert_eq.
      * eapply is_list_snoc; [apply is_list_nil|done| | |].
        -- fields. by rewrite lookup_insert_eq.
        -- done.
        -- intros a Ha _. fields. by rewrite lookup_insert_ne.
      * exists (Strategy (allocEls st ++ [Some x])). split; [lookup|].
        intros a Ha. fields. sets.
    + done.
    + eapply unchanged_outside_intro; [done| |done| |].
      * fields. by rewrite insert_insert_eq.
      * intros a _ Ha. sets.
      * intros a Ha [b Hb]. fields. rewrite !lookup_insert_ne; [done|].
        by eapply Hnew.
Qed.


Lemma PushFront_spec w this s ls vs v :
  is_deque w this s ls vs → (sizeof_node ≤ avail w)%N →
  ∃ w', PushFront this v w = Val tt w' ∧
    is_deque w' this s (fresh (dom (blocks w)) :: ls) (v :: vs) ∧
    avail w' = (avail w - sizeof_node)%N ∧
    unchanged_outside ls this w w'.
Proof.
  intros [Hobj Hlist (st & Hst & Hown)] Hmem.
  pose proof (fresh_block_None w) as Hfresh.
  set (x := fresh (dom (blocks w))) in *.
  assert (∀ a b, blocks w !! a = Some b → x ≠ a) as Hnew.
  { intros a b Hb <-. rewrite Hfresh in Hb. done. }
  assert (x ∉ ls) as Hx.
  { intros Hin. destruct (is_list_block _ _ _ _ Hlist Hin) as (? & ? & ?). by eapply Hnew. }
  destruct ls as [|h l0].
  - (* the empty list *)
    destruct Hlist as [Hl _ _]. destruct vs; [|done]. simpl in Hobj.
    eexists. split; [|split_and!].
    + unfold PushFront.
      step ltac:(by apply get_deque_Val).
      step ltac:(by eapply alloc_Val).
      unfold set_start.
      step ltac:(by eapply put_deque_Val).
      step ltac:(apply get_deque_Val; lookup).
      fields. unfold set_tail. eapply put_deque_Val. lookup.
    + split.
      * fields. by rewrite lookup_insert_eq.
      * eapply is_list_cons; [apply is_list_nil|done| | |].
        -- fields. by rewrite lookup_insert_eq.
        -- done.
        -- intros a Ha _. fields. by rewrite lookup_insert_ne.
      * exists (Strategy (allocEls st ++ [Some x])). split; [lookup|].
        intros a Ha. fields. sets.
    + done.
    + eapply unchanged_outside_intro; [done| |done| |].
      * fields. by rewrite insert_insert_eq.
      * intros a _ Ha. sets.
      * intros a Ha [b Hb]. fields. rewrite !lookup_insert_ne; [done|].
        by eapply Hnew.
  - (* a list with first node [h] *)
    assert (h ∈ h :: l0) as Hh by sets.
    destruct (is_list_block _ _ _ _ Hlist Hh) as (szh & nh & Hbh).
    assert (is_Some (last (h :: l0))) as [t Hlast].
    { rewrite last_lookup. apply lookup_lt_is_Some_2. simpl. lia. }
    rewrite Hlast in Hobj. simpl in Hobj.
    eexists. split; [|split_and!].
    + unfold PushFront.
      step ltac:(by apply get_deque_Val).
      step ltac:(by eapply alloc_Val).
      unfold set_start.
      step ltac:(by eapply put_deque_Val).
      step ltac:(apply get_deque_Val; lookup).
      fields.
      step ltac:(eapply load_Val; [lookup|done]).
      fields. eapply update_Val. fields.
      rewrite lookup_insert_ne; [done|]. by eapply Hnew.
    + split.
      * fields. rewrite lookup_insert_eq.
        change (last (x :: h :: l0)) with (last (h :: l0)). by rewrite Hlast.
      * eapply is_list_cons; [done|done| | |].
        -- fields. rewrite lookup_insert_ne; [|apply not_eq_sym; by eapply Hnew].
           by rewrite lookup_insert_eq.
        -- intros h' szh' nh' Hh' Hbh'. fields. simplify_eq/=.
           by rewrite lookup_insert_eq.
        -- intros a Ha Hla. fields. rewrite !lookup_insert_ne; [done|done|].
           intros <-. done.
      * exists (Strategy (allocEls st ++ [Some x])). split; [lookup|].
        intros a Ha. fields. sets.
    + done.
    + eapply unchanged_outside_intro; [done|done|done| |].
      * intros a _ Ha. sets.
      * intros a Ha [b Hb]. fields. rewrite !lookup_insert_ne; [done| |].
        -- by eapply Hnew.
        -- intros <-. done.
Qed.


(** ** Pop *)

Lemma PopBack_spec w this s ls vs x v :
  is_deque w this s (ls ++ [x]) (vs ++ [v]) →
  ∃ w', PopBack this w = Val v w' ∧
    is_deque w' this s ls vs ∧
    blocks w' !! x = None ∧
    (avail w ≤ avail w')%N ∧
    unchanged_outside (ls ++ [x]) this w w'.
Proof.
  intros [Hobj Hlist (st & Hst & Hown)].
  rewrite last_snoc in Hobj.
  destruct (is_list_last _ _ _ _ _ Hlist) as [sz Hbx].
  pose proof (il_NoDup _ _ _ Hlist) as Hnd.
  apply NoDup_app in Hnd as (Hnd & Hx & _).
  assert (x ∉ ls) as Hxls by (intros Hin; apply (Hx x Hin); sets).
  assert (Some x ∈ allocEls st) as Htr by (apply Hown; sets).
  destruct (last ls) as [t|] eqn:Hlast.
  - assert (t ∈ ls) as Ht.
    { rewrite last_lookup in Hlast. by eapply list_elem_of_lookup_2. }
    assert (t ≠ x) as Htx by (by intros ->).
    destruct (is_list_block _ _ _ t Hlist) as (szt & nt & Hbt); [sets|].
    eexists. split; [|split_and!].
    + unfold PopBack.
      step ltac:(by apply get_deque_Val). fields.
      step ltac:(by eapply load_Val). fields.
      step ltac:(by eapply update_Val).
      step ltac:(eapply dealloc_Val; [done|done|done|lookup|done]).
      unfold set_tail.
      step ltac:(by eapply put_deque_Val).
      eapply bind_Val; [|done].
      eapply update_Val. fields.
      rewrite lookup_delete_ne by done. by rewrite lookup_insert_ne.
    + split.
      * fields. rewrite lookup_insert_eq, Hlast.
        destruct ls; [done|done].
      * eapply is_list_unsnoc; [done| |].
        -- intros t' szt' nt' Ht' Hbt'. fields. simplify_eq.
           by rewrite lookup_insert_eq.
        -- intros a Ha Hla. fields. rewrite lookup_insert_ne by congruence.
           rewrite lookup_delete_ne by done. by rewrite lookup_insert_ne.
      * eexists. split; [lookup|]. intros a Ha. fields.
        apply elem_of_erase_ne; [|apply Hown; sets].
        intros [= ->]. done.
    + fields. rewrite lookup_insert_ne by done. by rewrite lookup_delete_eq.
    + fields. lia.
    + eapply unchanged_outside_intro; [done|done|done| |].
      * intros a Ha Hin. apply elem_of_erase_ne; [|done]. intros [= ->]. sets.
      * intros a Ha _. fields.
        rewrite lookup_insert_ne by (intros <-; sets).
        rewrite lookup_delete_ne by (intros <-; sets).
        rewrite lookup_insert_ne by (intros <-; sets). done.
  - assert (ls = []) as -> by (by destruct ls using rev_ind; [|rewrite last_snoc in Hlast]).
    simpl in Hobj.
    eexists. split; [|split_and!].
    + unfold PopBack.
      step ltac:(by apply get_deque_Val). fields.
      step ltac:(by eapply load_Val). fields.
      step ltac:(by eapply update_Val).
      step ltac:(eapply dealloc_Val; [done|done|done|lookup|done]).
      unfold set_tail.
      step ltac:(by eapply put_deque_Val).
      eapply bind_Val; [|done].
      unfold set_start. eapply put_deque_Val. lookup.
    + split.
      * fields. by rewrite lookup_insert_eq.
      * destruct Hlist as [Hl _ _]. rewrite !length_app in Hl.
        destruct vs; [apply is_list_nil|simpl in Hl; lia].
      * eexists. split; [lookup|]. intros a Ha. sets.
    + fields. by rewrite lookup_delete_eq.
    + fields. lia.
    + eapply unchanged_outside_intro; [done| |done| |].
      * fields. by rewrite insert_insert_eq.
      * intros a Ha Hin. apply elem_of_erase_ne; [|done]. intros [= ->]. sets.
      * intros a Ha _. fields.
        rewrite lookup_delete_ne by (intros <-; sets).
        rewrite lookup_insert_ne by (intros <-; sets). done.
Qed.

Lemma PopFront_spec w this s ls vs x v :
  is_deque w this s (x :: ls) (v :: vs) →
  ∃ w', PopFront this w = Val v w' ∧
    is_deque w' this s ls vs ∧
    blocks w' !! x = None ∧
    (avail w ≤ avail w')%N ∧
    unchanged_outside (x :: ls) this w w'.
Proof.
  intros [Hobj Hlist (st & Hst & Hown)].
  simpl in Hobj.
  destruct (is_list_head _ _ _ _ _ Hlist) as [sz Hbx].
  pose proof (il_NoDup _ _ _ Hlist) as Hnd.
  apply NoDup_cons in Hnd as (Hxls & Hnd).
  assert (Some x ∈ allocEls st) as Htr by (apply Hown; sets).
  destruct ls as [|h l0].
  - simpl in Hobj.
    eexists. split; [|split_and!].
    + unfold PopFront.
      step ltac:(by apply get_deque_Val). fields.
      step ltac:(by eapply load_Val). fields.
      step ltac:(by eapply update_Val).
      step ltac:(eapply dealloc_Val; [done|done|done|lookup|done]).
      unfold set_start.
      step ltac:(by eapply put_deque_Val).
      eapply bind_Val; [|done].
      unfold set_tail. eapply put_deque_Val. lookup.
    + split.
      * fields. by rewrite lookup_insert_eq.
      * destruct Hlist as [Hl _ _].
        destruct vs; [apply is_list_nil|simpl in Hl; lia].
      * eexists. split; [lookup|]. intros a Ha. sets.
    + fields. by rewrite lookup_delete_eq.
    + fields. lia.
    + eapply unchanged_outside_intro; [done| |done| |].
      * fields. by rewrite insert_insert_eq.
      * intros a Ha Hin. apply elem_of_erase_ne; [|done]. intros [= ->]. sets.
      * intros a Ha _. fields.
        rewrite lookup_delete_ne by (intros <-; sets).
        rewrite lookup_insert_ne by (intros <-; sets). done.
  - assert (h ≠ x) as Hhx by (intros ->; sets).
    destruct (is_list_block _ _ _ h Hlist) as (szh & nh & Hbh); [sets|].
    change (last (x :: h :: l0)) with (last (h :: l0)) in Hobj.
    eexists. split; [|split_and!].
    + unfold PopFront.
      step ltac:(by apply get_deque_Val). fields.
      step ltac:(by eapply load_Val). fields.
      step ltac:(by eapply update_Val).
      step ltac:(eapply dealloc_Val; [done|done|done|lookup|done]).
      unfold set_start.
      step ltac:(by eapply put_deque_Val).
      eapply bind_Val; [|done].
      eapply update_Val. fields.
      rewrite lookup_delete_ne by done. by rewrite lookup_insert_ne.
    + split.
      * fields. by rewrite lookup_insert_eq.
      * eapply is_list_uncons; [done| |].
        -- intros h' szh' nh' Hh' Hbh'. fields. simplify_eq/=.
           by rewrite lookup_insert_eq.
        -- intros a Ha Hla. fields. simpl in Hla.
           rewrite lookup_insert_ne by congruence.
           rewrite lookup_delete_ne by done. by rewrite lookup_insert_ne.
      * eexists. split; [lookup|]. intros a Ha. fields.
        apply elem_of_erase_ne; [|apply Hown; sets].
        intros [= ->]. done.
    + fields. rewrite lookup_insert_ne by done. by rewrite lookup_delete_eq.
    + fields. lia.
    + eapply unchanged_outside_intro; [done|done|done| |].
      * intros a Ha Hin. apply elem_of_erase_ne; [|done]. intros [= ->]. sets.
      * intros a Ha _. fields.
        rewrite lookup_insert_ne by (intros <-; sets).
        rewrite lookup_delete_ne by (intros <-; sets).
        rewrite lookup_insert_ne by (intros <-; sets). done.
Qed.


(** ** Walking a list: [FreeList], [Clear], [operator<<] *)

Lemma chain_intro w l : ∀ vs,
  length l = length vs →
  (∀ j x v, l !! j = Some x → vs !! j = Some v →
     ∃ b nd, blocks w !! x = Some b ∧ peek b = Some nd ∧
             next nd = l !! S j ∧ data nd = v) →
  chain w l vs.
Proof.
  induction l as [|x l IH]; intros [|v vs] Hl Hn; simpl in *; try done.
  split.
  - destruct (Hn 0 x v eq_refl eq_refl) as (b & nd & ? & ? & ? & ?).
    exists b, nd. by rewrite head_lookup.
  - apply IH; [lia|]. intros j y v' Hj Hv. by apply (Hn (S j)).
Qed.

Lemma is_list_chain w ls vs : is_list w ls vs → chain w ls vs.
Proof.
  intros [Hl _ Hn]. apply chain_intro; [done|].
  intros j x v Hj Hv. destruct (Hn j x v Hj Hv) as [sz Hb].
  eexists _, _. split_and!; [done|done|done|done].
Qed.

Lemma chain_frame w w' l : ∀ vs,
  (∀ x, x ∈ l → blocks w' !! x = blocks w !! x) →
  chain w l vs → chain w' l vs.
Proof.
  induction l as [|x l IH]; intros [|v vs] Hf; simpl; try done.
  intros [(b & nd & Hb & Hrest) Hc]. split.
  - exists b, nd. rewrite Hf; [done|sets].
  - apply IH; [|done]. intros y Hy. apply Hf. sets.
Qed.

Lemma chain_length w l : ∀ vs, chain w l vs → length l = length vs.
Proof.
  induction l as [|x l IH]; intros [|v vs]; simpl; try done.
  intros [_ Hc]. f_equal. by apply IH.
Qed.

Lemma chain_live w l : ∀ vs x, chain w l vs → x ∈ l → is_Some (blocks w !! x).
Proof.
  induction l as [|y l IH]; intros [|v vs] x; simpl; try done.
  - by intros _ ?%elem_of_nil.
  - intros [(b & nd & Hb & _) Hc] [->|Hin]%elem_of_cons; [eauto|by eapply IH].
Qed.

Lemma length_le_size (m : gmap loc block) (l : list loc) :
  NoDup l → (∀ x, x ∈ l → is_Some (m !! x)) → length l ≤ size m.
Proof.
  intros Hnd Hin.
  rewrite <- (size_list_to_set (C:=gset loc) l Hnd), <- (size_dom (D:=gset loc) m).
  apply subseteq_size. intros x Hx%elem_of_list_to_set.
  by apply elem_of_dom, Hin.
Qed.

Lemma FreeList_loop_spec l : ∀ vs n w a s st,
  allocStrategy a = Some s → strategies w !! s = Some st →
  chain w l vs → NoDup l → (∀ x, x ∈ l → Some x ∈ allocEls st) → length l ≤ n →
  ∃ w' st', FreeList_loop n a (head l) w = Val tt w' ∧
    deques w' = deques w ∧
    (∀ x, x ∈ l → blocks w' !! x = None) ∧
    (∀ x, x ∉ l → blocks w' !! x = blocks w !! x) ∧
    (avail w ≤ avail w')%N ∧
    strategies w' = <[s := st']> (strategies w) ∧
    (∀ q, q ∉ (Some <$> l) → q ∈ allocEls st → q ∈ allocEls st').
Proof.
  induction l as [|x l IH]; intros vs n w a s st Ha Hst Hc Hnd Hown Hn.
  - exists w, st.
    split_and!; [by destruct n|done|by intros x ?%elem_of_nil|done|lia
                |by rewrite insert_id|done].
  - destruct vs as [|v vs]; [done|]. simpl in Hc.
    destruct Hc as [(b & nd & Hb & Hp & Hnext & _) Hc].
    apply NoDup_cons in Hnd as [Hx Hnd].
    destruct n as [|n]; [simpl in Hn; lia|].
    edestruct (IH vs n
      (World (delete x (blocks w)) (avail w + bsize b)
         (<[s := Strategy (erase (Some x) (allocEls st))]> (strategies w)) (deques w))
      a s) as (w' & st' & Hrun & Hd & Hfreed & Hkept & Hav & Hs & Htr).
    + done.
    + lookup.
    + eapply chain_frame; [|done]. intros y Hy. fields.
      apply lookup_delete_ne. by intros ->.
    + done.
    + intros y Hy. fields. apply elem_of_erase_ne; [|apply Hown; sets].
      intros [= ->]. done.
    + simpl in Hn. lia.
    + exists w', st'. split_and!.
      * simpl.
        step ltac:(by eapply load_Val).
        step ltac:(eapply dealloc_Val; [done|done|apply Hown; sets|done|done]).
        by rewrite Hnext.
      * done.
      * intros y [->|Hy]%elem_of_cons; [|by apply Hfreed].
        rewrite Hkept by done. fields. apply lookup_delete_eq.
      * intros y Hy. rewrite Hkept by sets. fields.
        apply lookup_delete_ne. sets.
      * fields. simpl in Hav. lia.
      * rewrite Hs. fields. by rewrite insert_insert_eq.
      * intros q Hq Hin. apply Htr; [sets|]. fields.
        apply elem_of_erase_ne; [sets|done].
Qed.

Lemma FreeList_spec w this s ls vs :
  is_deque w this s ls vs →
  ∃ w' st', FreeList (head ls) (Allocator (Some s)) w = Val tt w' ∧
    deques w' = deques w ∧
    (∀ x, x ∈ ls → blocks w' !! x = None) ∧
    (∀ x, x ∉ ls → blocks w' !! x = blocks w !! x) ∧
    (avail w ≤ avail w')%N ∧
    strategies w' = <[s := st']> (strategies w) ∧
    (∀ st, strategies w !! s = Some st →
       ∀ q, q ∉ (Some <$> ls) → q ∈ allocEls st → q ∈ allocEls st').
Proof.
  intros [Hobj Hlist (st & Hst & Hown)].
  pose proof (is_list_chain _ _ _ Hlist) as Hc.
  destruct (FreeList_loop_spec ls vs (S (size (blocks w))) w (Allocator (Some s)) s st)
    as (w' & st' & Hrun & Hrest); [done|done|done|by destruct Hlist|done| |].
  { assert (length ls ≤ size (blocks w)); [|lia].
    apply length_le_size; [by destruct Hlist|].
    intros x Hx. by eapply chain_live. }
  exists w', st'. split; [done|].
  destruct Hrest as (? & ? & ? & ? & ? & Htr). split_and!; try done.
  intros st0 Hst0. by simplify_eq.
Qed.


Lemma is_deque_fuel w this s ls vs :
  is_deque w this s ls vs → length ls ≤ S (size (blocks w)).
Proof.
  intros [_ Hlist _]. assert (length ls ≤ size (blocks w)); [|lia].
  apply length_le_size; [by destruct Hlist|].
  intros x Hx. eapply chain_live; [by apply is_list_chain|done].
Qed.

Lemma Clear_spec w this s ls vs :
  is_deque w this s ls vs →
  ∃ w', Clear this w = Val tt w' ∧
    is_deque w' this s [] [] ∧
    (∀ x, x ∈ ls → blocks w' !! x = None) ∧
    (avail w ≤ avail w')%N ∧
    unchanged_outside ls this w w'.
Proof.
  intros Hdq.
  destruct (FreeList_spec _ _ _ _ _ Hdq)
    as (w1 & st' & Hrun & Hd & Hfreed & Hkept & Hav & Hs & Htr).
  destruct Hdq as [Hobj Hlist (st & Hst & Hown)]. destruct st' as [l'].
  eexists. split; [|split_and!].
  - unfold Clear.
    step ltac:(by apply get_deque_Val). fields.
    step ltac:(exact Hrun).
    unfold set_start, set_tail.
    step ltac:(eapply put_deque_Val; by rewrite Hd).
    eapply put_deque_Val. lookup.
  - split.
    + fields. by rewrite lookup_insert_eq.
    + apply is_list_nil.
    + eexists. split; [|by intros a ?%elem_of_nil].
      fields. rewrite Hs. by rewrite lookup_insert_eq.
  - done.
  - done.
  - eapply unchanged_outside_intro; [done| |fields; by rewrite Hs| |].
    + fields. by rewrite insert_insert_eq, Hd.
    + intros a Ha Hin. apply (Htr st Hst); [|done].
      intros (y & [= ->] & Hy)%list_elem_of_fmap. done.
    + intros a Ha _. by apply Hkept.
Qed.

Lemma print_loop_spec l : ∀ vs n w,
  chain w l vs → length l ≤ n → print_loop n (head l) w = Val vs w.
Proof.
  induction l as [|x l IH]; intros [|v vs] n w Hc Hn; simpl in Hc; try done.
  - by destruct n.
  - destruct Hc as [(b & nd & Hb & Hp & Hnext & Hdata) Hc].
    destruct n as [|n]; [simpl in Hn; lia|]. simpl.
    step ltac:(by eapply load_Val).
    step ltac:(rewrite Hnext; apply IH; [done|simpl in Hn; lia]).
    by rewrite Hdata.
Qed.

Lemma print_spec w this s ls vs :
  is_deque w this s ls vs → print this w = Val vs w.
Proof.
  intros Hdq. pose proof (is_deque_fuel _ _ _ _ _ Hdq) as Hfuel.
  destruct Hdq as [Hobj Hlist _]. unfold print.
  step ltac:(reflexivity).
  step ltac:(by apply get_deque_Val).
  fields. apply print_loop_spec; [by apply is_list_chain|done].
Qed.

Lemma iterate_loop_spec l : ∀ vs n w,
  chain w l vs → length l ≤ n →
  iterate_loop n (Iterator (head l)) (Iterator None) w = Val vs w.
Proof.
  induction l as [|x l IH]; intros [|v vs] n w Hc Hn; simpl in Hc; try done.
  - by destruct n.
  - destruct Hc as [(b & nd & Hb & Hp & Hnext & Hdata) Hc].
    destruct n as [|n]; [simpl in Hn; lia|].
    cbn [iterate_loop head]. unfold iter_ne, iter_eq. fields.
    rewrite bool_decide_eq_false_2 by done. cbn [negb].
    step ltac:(reflexivity).
    step ltac:(unfold ref_get; step ltac:(by eapply load_Val); reflexivity).
    step ltac:(unfold iter_preinc; fields; step ltac:(by eapply load_Val); reflexivity).
    step ltac:(rewrite Hnext; apply IH; [done|simpl in Hn; lia]).
    by rewrite Hdata.
Qed.

Lemma iterate_spec w this s ls vs :
  is_deque w this s ls vs → iterate this w = Val vs w.
Proof.
  intros Hdq. pose proof (is_deque_fuel _ _ _ _ _ Hdq) as Hfuel.
  destruct Hdq as [Hobj Hlist _]. unfold iterate.
  step ltac:(reflexivity).
  step ltac:(unfold begin; step ltac:(by apply get_deque_Val); reflexivity).
  step ltac:(reflexivity).
  fields. apply iterate_loop_spec; [by apply is_list_chain|done].
Qed.


(** ** Copying a list: [CopyList] *)

Lemma CopyList_loop_spec src : ∀ svs n w a s st pv szp pvn,
  allocStrategy a = Some s → strategies w !! s = Some st →
  chain w src svs → pv ∉ src → blocks w !! pv = Some (Block szp (Obj pvn)) →
  (N.of_nat (length src) * sizeof_node ≤ avail w)%N → length src ≤ n →
  ∃ w' new, CopyList_loop n a (head src) (Some pv) w = Val (last (pv :: new)) w' ∧
    length new = length src ∧
    NoDup new ∧ (∀ x, x ∈ new → blocks w !! x = None) ∧
    deques w' = deques w ∧
    strategies w' = <[s := Strategy (allocEls st ++ (Some <$> new))]> (strategies w) ∧
    avail w' = (avail w - N.of_nat (length src) * sizeof_node)%N ∧
    (∀ x, x ≠ pv → x ∉ new → blocks w' !! x = blocks w !! x) ∧
    blocks w' !! pv =
      Some (Block szp (Obj (match new with
                            | [] => pvn
                            | y :: _ => set_next (Some y) pvn
                            end))) ∧
    (∀ j x v, new !! j = Some x → svs !! j = Some v →
       blocks w' !! x = Some (Block sizeof_node (Obj (node_at (pv :: new) (S j) v)))).
Proof.
  induction src as [|y src IH]; intros svs n w a s st pv szp pvn Ha Hst Hc Hpv Hbpv Hmem Hn.
  - destruct svs; [|done]. exists w, [].
    split_and!; try done.
    + by destruct n.
    + constructor.
    + by intros x ?%elem_of_nil.
    + rewrite app_nil_r. destruct st. by rewrite insert_id.
    + simpl. lia.
  - destruct svs as [|v svs]; [done|]. simpl in Hc.
    destruct Hc as [(b & nd & Hb & Hp & Hnext & Hdata) Hc].
    destruct n as [|n]; [simpl in Hn; lia|].
    pose proof (fresh_block_None w) as Hfresh.
    set (x := fresh (dom (blocks w))) in *.
    assert (∀ a b, blocks w !! a = Some b → x ≠ a) as Hnew.
    { intros a' b' Hb' <-. rewrite Hfresh in Hb'. done. }
    assert (y ≠ pv) as Hypv by sets.
    assert (pv ∉ src) as Hpv' by sets.
    change (length (y :: src)) with (S (length src)) in Hmem.
    rewrite Nat2N.inj_succ, N.mul_succ_l in Hmem.
    set (w2 := World
      (<[pv := Block szp (Obj (set_next (Some x) pvn))]>
         (<[x := Block sizeof_node (Obj (Node None (Some pv) v))]> (blocks w)))
      (avail w - sizeof_node)
      (<[s := Strategy (allocEls st ++ [Some x])]> (strategies w)) (deques w)).
    assert (∀ z, z ∈ src → blocks w2 !! z = blocks w !! z) as Hsrc.
    { intros z Hz. destruct (chain_live _ _ _ z Hc Hz) as [bz Hbz]. unfold w2. fields.
      rewrite !lookup_insert_ne; [done|by eapply Hnew|]. by intros <-. }
    edestruct (IH svs n w2 a s (Strategy (allocEls st ++ [Some x])) x sizeof_node
                 (Node None (Some pv) v))
      as (w' & new & Hrun & Hlen & Hnd & Hnone & Hd & Hs & Hav & Hkept & Hx & Hnodes).
    + done.
    + unfold w2. lookup.
    + by eapply chain_frame.
    + intros Hin. destruct (chain_live _ _ _ x Hc Hin) as [bz Hbz]. by eapply Hnew.
    + unfold w2. fields. rewrite lookup_insert_ne by (by eapply not_eq_sym, Hnew).
      by rewrite lookup_insert_eq.
    + unfold w2. fields. lia.
    + simpl in Hn. lia.
    + assert (blocks w2 !! x = Some (Block sizeof_node (Obj (Node None (Some pv) v))))
        as Hbx2.
      { unfold w2. fields. rewrite lookup_insert_ne by (by eapply not_eq_sym, Hnew).
        by rewrite lookup_insert_eq. }
      assert (blocks w2 !! pv = Some (Block szp (Obj (set_next (Some x) pvn)))) as Hbpv2.
      { unfold w2. lookup. }
      assert (x ∉ new) as Hxnew.
      { intros Hin. rewrite (Hnone x Hin) in Hbx2. done. }
      assert (pv ∉ new) as Hpvnew.
      { intros Hin. rewrite (Hnone pv Hin) in Hbpv2. done. }
      exists w', (x :: new). split_and!.
      * cbn [CopyList_loop head].
        step ltac:(eapply (alloc_Val _ _ _ _ (Node None (Some pv) v)); [done|done|lia|];
                   simpl; rewrite Hb; simpl; rewrite Hp; simpl; by rewrite Hdata).
        step ltac:(eapply update_Val; fields; rewrite lookup_insert_ne; [done|by eapply Hnew]).
        step ltac:(eapply load_Val; [|done]; fields;
                   rewrite !lookup_insert_ne; [done|by eapply Hnew|by apply not_eq_sym]).
        step ltac:(eapply load_Val; [lookup|done]).
        rewrite Hnext. cbn [set_next next]. exact Hrun.
      * simpl. by rewrite Hlen.
      * by apply NoDup_cons.
      * intros z [->|Hz]%elem_of_cons; [done|].
        pose proof (Hnone z Hz) as Hz2. unfold w2 in Hz2. cbn [blocks] in Hz2.
        apply lookup_insert_None in Hz2 as [Hz2 _].
        by apply lookup_insert_None in Hz2 as [Hz2 _].
      * by rewrite Hd.
      * rewrite Hs. unfold w2. fields. rewrite insert_insert_eq.
        by rewrite <- app_assoc.
      * rewrite Hav. unfold w2. fields.
        change (length (y :: src)) with (S (length src)).
        rewrite Nat2N.inj_succ, N.mul_succ_l. lia.
      * intros z Hzpv Hz. apply not_elem_of_cons in Hz as [Hzx Hz].
        rewrite Hkept by done. unfold w2. fields.
        by rewrite !lookup_insert_ne.
      * rewrite Hkept by (done || by eapply not_eq_sym, Hnew). done.
      * intros [|j] z v' Hj Hv; simpl in Hj, Hv.
        -- simplify_eq. rewrite Hx. do 3 f_equal. unfold node_at.
           destruct new; done.
        -- rewrite (Hnodes j z v' Hj Hv). done.
Qed.

Lemma is_list_close w w' full vs z :
  length full = length vs → NoDup full → last full = Some z →
  (∀ i a v, full !! i = Some a → vs !! i = Some v →
     ∃ sz nx, blocks w !! a = Some (Block sz (Obj (Node nx (pred_ptr full i) v))) ∧
       (S i < length full → nx = full !! S i)) →
  (∀ sz n, blocks w !! z = Some (Block sz (Obj n)) →
     blocks w' !! z = Some (Block sz (Obj (set_next None n)))) →
  (∀ a, a ≠ z → blocks w' !! a = blocks w !! a) →
  is_list w' full vs.
Proof.
  intros Hl Hnd Hlast Hopen Hz Hother. split; [done|done|].
  intros i a v Hi Hv. destruct (Hopen i a v Hi Hv) as (sz & nx & Hb & Hnx).
  exists sz. rewrite last_lookup in Hlast.
  pose proof (lookup_lt_Some _ _ _ Hi) as Hlt.
  destruct (decide (S i = length full)) as [Hend|Hmid].
  - replace (pred (length full)) with i in Hlast by lia. simplify_eq.
    rewrite (Hz _ _ Hb). unfold node_at, set_next. simpl.
    by rewrite (lookup_ge_None_2 full (S i)) by lia.
  - rewrite Hother, Hb.
    + unfold node_at. rewrite Hnx; [done|lia].
    + intros ->. pose proof (NoDup_lookup _ _ _ _ Hnd Hi Hlast). lia.
Qed.


Lemma copy_tail_spec w a s st x0 szx nx v src svs n :
  allocStrategy a = Some s → strategies w !! s = Some st →
  blocks w !! x0 = Some (Block szx (Obj (Node nx None v))) →
  x0 ∉ src → chain w src svs →
  (N.of_nat (length src) * sizeof_node ≤ avail w)%N → length src ≤ n →
  ∃ w3 new z szz nz,
    CopyList_loop n a (head src) (Some x0) w = Val (Some z) w3 ∧
    last (x0 :: new) = Some z ∧
    blocks w3 !! z = Some (Block szz (Obj nz)) ∧
    NoDup (x0 :: new) ∧
    (∀ x, x ∈ new → blocks w !! x = None) ∧
    deques w3 = deques w ∧
    strategies w3 = <[s := Strategy (allocEls st ++ (Some <$> new))]> (strategies w) ∧
    avail w3 = (avail w - N.of_nat (length src) * sizeof_node)%N ∧
    (∀ x, x ≠ x0 → x ∉ new → blocks w3 !! x = blocks w !! x) ∧
    (∀ w4, blocks w4 = <[z := Block szz (Obj (set_next None nz))]> (blocks w3) →
       is_list w4 (x0 :: new) (v :: svs)).
Proof.
  intros Ha Hst Hbx Hx0 Hc Hmem Hn.
  destruct (CopyList_loop_spec src svs n w a s st x0 szx (Node nx None v))
    as (w3 & new & Hrun & Hlen & Hndn & Hnone & Hd & Hs & Hav & Hkept & Hx & Hnodes);
    [done..|].
  assert (x0 ∉ new) as Hxnew.
  { intros Hin. rewrite (Hnone x0 Hin) in Hbx. done. }
  assert (NoDup (x0 :: new)) as Hndf by by apply NoDup_cons.
  assert (length (x0 :: new) = length (v :: svs)) as Hlf.
  { simpl. rewrite Hlen. f_equal. by eapply chain_length. }
  (* the new list, its last [next] still to be written *)
  assert (∀ i b v', (x0 :: new) !! i = Some b → (v :: svs) !! i = Some v' →
            ∃ sz nx', blocks w3 !! b =
                Some (Block sz (Obj (Node nx' (pred_ptr (x0 :: new) i) v'))) ∧
              (S i < length (x0 :: new) → nx' = (x0 :: new) !! S i)) as Hopen.
  { intros [|i] b v' Hi Hv; simpl in Hi, Hv.
    - simplify_eq. rewrite Hx. destruct new as [|y' new'].
      + eexists _, _. split; [done|]. simpl. lia.
      + eexists _, _. split; [done|]. done.
    - rewrite (Hnodes i b v' Hi Hv). eexists _, _. split; [done|]. done. }
  assert (is_Some (last (x0 :: new))) as [z Hlast].
  { rewrite last_lookup. apply lookup_lt_is_Some_2. simpl. lia. }
  assert (z ∈ x0 :: new) as Hz.
  { rewrite last_lookup in Hlast. by eapply list_elem_of_lookup_2. }
  assert (∃ sz n, blocks w3 !! z = Some (Block sz (Obj n))) as (szz & nz & Hbz).
  { apply list_elem_of_lookup in Hz as [i Hi].
    destruct (lookup_lt_is_Some_2 (v :: svs) i) as [v' Hv].
    { rewrite <- Hlf. by eapply lookup_lt_Some. }
    destruct (Hopen i z v' Hi Hv) as (sz & nx' & Hb & _). eauto. }
  exists w3, new, z, szz, nz. split_and!; try done.
  - by rewrite Hrun, Hlast.
  - intros w4 Hw4. eapply (is_list_close w3); [done|done|done|done| |].
    + intros sz n' Hb. rewrite Hw4. simplify_eq. by rewrite lookup_insert_eq.
    + intros b Hb. rewrite Hw4. by rewrite lookup_insert_ne.
Qed.

Lemma CopyList_spec w this d s st src svs :
  deques w !! this = Some d → allocator d = Allocator (Some s) →
  strategies w !! s = Some st → is_list w src svs →
  (N.of_nat (length src) * sizeof_node ≤ avail w)%N →
  ∃ w' new, CopyList this (head src) w = Val tt w' ∧
    is_list w' new svs ∧
    (∀ x, x ∈ new → blocks w !! x = None) ∧
    deques w' = <[this := Deque (head new) (last new) (Allocator (Some s))]> (deques w) ∧
    strategies w' = <[s := Strategy (allocEls st ++ (Some <$> new))]> (strategies w) ∧
    (∀ x, x ∉ new → blocks w' !! x = blocks w !! x) ∧
    avail w' = (avail w - N.of_nat (length src) * sizeof_node)%N.
Proof.
  intros Hobj Hal Hst Hlist Hmem.
  destruct src as [|y src].
  - destruct Hlist as [Hl _ _]. destruct svs; [|done].
    eexists _, []. split; [|split_and!].
    + unfold CopyList, head, set_start, set_tail.
      step ltac:(by eapply put_deque_Val).
      eapply put_deque_Val. lookup.
    + apply is_list_nil.
    + by intros x ?%elem_of_nil.
    + fields. rewrite insert_insert_eq. by rewrite Hal.
    + fields. rewrite app_nil_r. destruct st. by rewrite insert_id.
    + done.
    + fields. simpl. lia.
  - pose proof (il_length _ _ _ Hlist) as Hl.
    destruct svs as [|v svs]; [done|]. simpl in Hl.
    destruct (is_list_head _ _ _ _ _ Hlist) as [szy Hby].
    pose proof (is_list_chain _ _ _ Hlist) as [_ Hc].
    pose proof (il_NoDup _ _ _ Hlist) as [Hysrc Hnd]%NoDup_cons.
    pose proof (fresh_block_None w) as Hfresh.
    set (x := fresh (dom (blocks w))) in *.
    assert (∀ a b, blocks w !! a = Some b → x ≠ a) as Hnew.
    { intros a' b' Hb' <-. rewrite Hfresh in Hb'. done. }
    change (length (y :: src)) with (S (length src)) in Hmem.
    rewrite Nat2N.inj_succ, N.mul_succ_l in Hmem.
    set (w2 := World
      (<[x := Block sizeof_node (Obj (Node (head src) None v))]> (blocks w))
      (avail w - sizeof_node)
      (<[s := Strategy (allocEls st ++ [Some x])]> (strategies w))
      (<[this := Deque (Some x) (tail d) (allocator d)]> (deques w))).
    assert (∀ z b, blocks w !! z = Some b → blocks w2 !! z = Some b) as Hold.
    { intros z bz Hbz. unfold w2. fields. rewrite lookup_insert_ne; [done|by eapply Hnew]. }
    edestruct (copy_tail_spec w2 (allocator d) s (Strategy (allocEls st ++ [Some x]))
                 x sizeof_node (head src) v src svs (S (size (blocks w))))
      as (w3 & new & z & szz & nz & Hrun & Hlast & Hbz & Hndf & Hnone & Hd & Hs
          & Hav & Hkept & Hclose).
    + by rewrite Hal.
    + unfold w2. lookup.
    + unfold w2. lookup.
    + intros Hin. destruct (chain_live _ _ _ x Hc Hin) as [bz Hbz]. by eapply Hnew.
    + eapply chain_frame; [|done]. intros z Hz.
      destruct (chain_live _ _ _ z Hc Hz) as [bz Hbz]. rewrite Hbz. by eapply Hold.
    + unfold w2. fields. lia.
    + assert (length src ≤ size (blocks w)); [|lia].
      apply length_le_size; [done|]. intros z Hz. by eapply chain_live.
    + eexists _, (x :: new). split; [|split_and!].
      * unfold CopyList, head.
        step ltac:(reflexivity).
        step ltac:(by apply get_deque_Val).
        step ltac:(eapply (alloc_Val _ _ _ _ (Node (head src) None v)); [by rewrite Hal|done|lia|];
                   simpl; by rewrite Hby).
        unfold set_start.
        step ltac:(by eapply put_deque_Val).
        step ltac:(eapply load_Val; [by eapply Hold|done]).
        fields.
        step ltac:(exact Hrun).
        unfold set_tail.
        step ltac:(eapply put_deque_Val; rewrite Hd; unfold w2; lookup).
        eapply update_Val. fields. exact Hbz.
      * by apply Hclose.
      * intros a [->|Ha]%elem_of_cons; [done|].
        pose proof (Hnone a Ha) as Ha2. unfold w2 in Ha2. cbn [blocks] in Ha2.
        by apply lookup_insert_None in Ha2 as [Ha2 _].
      * fields. rewrite Hd. unfold w2. fields. rewrite insert_insert_eq.
        by rewrite Hlast, Hal.
      * fields. rewrite Hs. unfold w2. fields. rewrite insert_insert_eq.
        by rewrite <- app_assoc.
      * intros a Ha. apply not_elem_of_cons in Ha as [Hax Ha]. fields.
        rewrite lookup_insert_ne by (intros <-; apply Ha;
          (rewrite last_lookup in Hlast; apply list_elem_of_lookup_2 in Hlast;
           by apply elem_of_cons in Hlast as [?|?])).
        rewrite Hkept by done. unfold w2. fields. by rewrite lookup_insert_ne.
      * fields. rewrite Hav. unfold w2. fields.
        change (length (y :: src)) with (S (length src)).
        rewrite Nat2N.inj_succ, N.mul_succ_l. lia.
Qed.

(** ** Failing calls *)

Lemma PopBack_empty w this d :
  deques w !! this = Some d → tail d = None →
  PopBack this w = Throw (Exception "Empty list") w.
Proof.
  intros Hobj Ht. unfold PopBack, bind. rewrite (get_deque_Val _ _ _ Hobj).
  by rewrite Ht.
Qed.

Lemma PopFront_empty w this d :
  deques w !! this = Some d → start d = None →
  PopFront this w = Throw (Exception "Empty list") w.
Proof.
  intros Hobj Ht. unfold PopFront, bind. rewrite (get_deque_Val _ _ _ Hobj).
  by rewrite Ht.
Qed.

Lemma PushBack_throws w this d s st v :
  deques w !! this = Some d → allocator d = Allocator (Some s) →
  strategies w !! s = Some st → (avail w < sizeof_node)%N →
  PushBack this v w = Throw bad_alloc w.
Proof.
  intros Hobj Hal Hst Hmem. unfold PushBack.
  step ltac:(by apply get_deque_Val).
  apply bind_Throw. eapply alloc_throws; [by rewrite Hal|done|done|done].
Qed.

Lemma PushFront_throws w this d s st v :
  deques w !! this = Some d → allocator d = Allocator (Some s) →
  strategies w !! s = Some st → (avail w < sizeof_node)%N →
  PushFront this v w = Throw bad_alloc w.
Proof.
  intros Hobj Hal Hst Hmem. unfold PushFront.
  step ltac:(by apply get_deque_Val).
  apply bind_Throw. eapply alloc_throws; [by rewrite Hal|done|done|done].
Qed.

(** ** One deque does not reach into another *)

Lemma unchanged_outside_refl A this w : unchanged_outside A this w w.
Proof. split_and!; [done|done|]. intros s st Hst. eauto. Qed.

Lemma mutate_footprint w m this s ls vs w' :
  is_deque w this s ls vs → finishes (mutate m this) w w' →
  unchanged_outside ls this w w'.
Proof.
  intros Hdq Hfin.
  assert (∀ A (x y : A) (u u' : world) e, Val x u = Throw e u' → False) as HVT by done.
  unfold finishes in Hfin. destruct m as [v|v| | |]; cbn [mutate] in Hfin.
  - destruct (N.le_gt_cases sizeof_node (avail w)) as [Hmem|Hmem].
    + destruct (PushBack_spec _ _ _ _ _ v Hdq Hmem) as (w1 & Hrun & _ & _ & Hun).
      rewrite Hrun in Hfin. destruct Hfin as [[a Hfin]|[e Hfin]]; by simplify_eq.
    + destruct Hdq as [Hobj _ (st & Hst & _)].
      erewrite PushBack_throws in Hfin by done.
      destruct Hfin as [[a Hfin]|[e Hfin]]; simplify_eq.
      apply unchanged_outside_refl.
  - destruct (N.le_gt_cases sizeof_node (avail w)) as [Hmem|Hmem].
    + destruct (PushFront_spec _ _ _ _ _ v Hdq Hmem) as (w1 & Hrun & _ & _ & Hun).
      rewrite Hrun in Hfin. destruct Hfin as [[a Hfin]|[e Hfin]]; by simplify_eq.
    + destruct Hdq as [Hobj _ (st & Hst & _)].
      erewrite PushFront_throws in Hfin by done.
      destruct Hfin as [[a Hfin]|[e Hfin]]; simplify_eq.
      apply unchanged_outside_refl.
  - destruct ls as [|x ls _] using rev_ind.
    + destruct Hdq as [Hobj _ _].
      erewrite bind_Throw in Hfin by (by eapply PopBack_empty).
      destruct Hfin as [[a Hfin]|[e Hfin]]; simplify_eq.
      apply unchanged_outside_refl.
    + destruct vs as [|v vs _] using rev_ind.
      { destruct Hdq as [_ [Hl _ _] _]. rewrite length_app in Hl. simpl in Hl. lia. }
      destruct (PopBack_spec _ _ _ _ _ _ _ Hdq) as (w1 & Hrun & _ & _ & _ & Hun).
      unfold bind, ret in Hfin. rewrite Hrun in Hfin.
      destruct Hfin as [[a Hfin]|[e Hfin]]; by simplify_eq.
  - destruct ls as [|x ls].
    + destruct Hdq as [Hobj _ _].
      erewrite bind_Throw in Hfin by (by eapply PopFront_empty).
      destruct Hfin as [[a Hfin]|[e Hfin]]; simplify_eq.
      apply unchanged_outside_refl.
    + destruct vs as [|v vs].
      { by destruct Hdq as [_ [Hl _ _] _]. }
      destruct (PopFront_spec _ _ _ _ _ _ _ Hdq) as (w1 & Hrun & _ & _ & _ & Hun).
      unfold bind, ret in Hfin. rewrite Hrun in Hfin.
      destruct Hfin as [[a Hfin]|[e Hfin]]; by simplify_eq.
  - destruct (Clear_spec _ _ _ _ _ Hdq) as (w1 & Hrun & _ & _ & _ & Hun).
    rewrite Hrun in Hfin. destruct Hfin as [[a Hfin]|[e Hfin]]; by simplify_eq.
Qed.

Lemma mutate_frame w m d1 s1 ls1 vs1 d2 s2 ls2 vs2 w' :
  is_deque w d1 s1 ls1 vs1 → is_deque w d2 s2 ls2 vs2 →
  d2 ≠ d1 → (∀ a, a ∈ ls2 → a ∉ ls1) →
  finishes (mutate m d1) w w' → is_deque w' d2 s2 ls2 vs2.
Proof.
  intros H1 H2 Hne Hdisj Hfin.
  eapply (is_deque_unchanged ls1 d1 w w'); [|done|done|done].
  eapply mutate_footprint; [exact H1|exact Hfin].
Qed.


(** ** Copies *)

Lemma bind_assoc {A B C} (m : M A) (k1 : A → M B) (k2 : B → M C) w :
  bind (bind m k1) k2 w = bind m (λ x, bind (k1 x) k2) w.
Proof. unfold bind. by destruct (m w). Qed.

Lemma is_deque_ext w w' d s ls vs :
  deques w' !! d = deques w !! d →
  (∀ a, a ∈ ls → blocks w' !! a = blocks w !! a) →
  (∀ st, strategies w !! s = Some st →
     ∃ st', strategies w' !! s = Some st' ∧
       ∀ a, a ∈ ls → Some a ∈ allocEls st → Some a ∈ allocEls st') →
  is_deque w d s ls vs → is_deque w' d s ls vs.
Proof.
  intros Hd Hb Hs [Hobj Hlist (st & Hst & Hown)]. split.
  - by rewrite Hd.
  - by eapply is_list_frame.
  - destruct (Hs _ Hst) as (st' & Hst' & Hkeep). exists st'. split; [done|].
    intros a Ha. by apply Hkeep, Hown.
Qed.

Lemma copy_of_intro w src s ls vs dst s' ls' :
  is_deque w dst s' ls' vs → is_deque w src s ls vs → dst ≠ src →
  (∀ a, a ∈ ls' → a ∉ ls) → copy_of w src s ls vs dst s'.
Proof.
  intros Hdst Hsrc Hne Hdisj. exists ls'. split_and!; [done|done| |done| |].
  - rewrite (il_length _ _ _ (dq_list _ _ _ _ _ Hdst)).
    by rewrite (il_length _ _ _ (dq_list _ _ _ _ _ Hsrc)).
  - intros m w' Hfin. eapply (mutate_frame w m dst); [done|done|done| |done].
    intros a Ha Ha'. by eapply Hdisj.
  - intros m w' Hfin. by eapply (mutate_frame w m src).
Qed.

Lemma copy_into w this d s' st lhs s ls vs :
  deques w !! this = Some d → allocator d = Allocator (Some s') →
  strategies w !! s' = Some st →
  is_deque w lhs s ls vs → this ≠ lhs →
  (N.of_nat (length ls) * sizeof_node ≤ avail w)%N →
  ∃ w', CopyList this (head ls) w = Val tt w' ∧ copy_of w' lhs s ls vs this s' ∧
    (∀ d0, d0 ≠ this → deques w' !! d0 = deques w !! d0).
Proof.
  intros Hobj Hal Hst Hsrc Hne Hmem.
  destruct (CopyList_spec w this d s' st ls vs Hobj Hal Hst (dq_list _ _ _ _ _ Hsrc) Hmem)
    as (w' & new & Hrun & Hlist & Hnone & Hd & Hs & Hkept & Hav).
  assert (∀ a, a ∈ new → a ∉ ls) as Hdisj.
  { intros a Ha Hin.
    destruct (is_list_block _ _ _ _ (dq_list _ _ _ _ _ Hsrc) Hin) as (sz & n & Hb).
    rewrite (Hnone a Ha) in Hb. done. }
  exists w'. split_and!; [done| |].
  - eapply copy_of_intro; [|eapply is_deque_ext; [| | |exact Hsrc]|done|done].
    + split; [|done|].
      * rewrite Hd. by rewrite lookup_insert_eq.
      * eexists. split; [by rewrite Hs, lookup_insert_eq|].
        intros a Ha. fields. apply elem_of_app. right.
        apply list_elem_of_fmap. eauto.
    + rewrite Hd. by rewrite lookup_insert_ne.
    + intros a Ha. apply Hkept. intros Hin. by eapply Hdisj.
    + intros st0 Hst0. rewrite Hs. destruct (decide (s' = s)) as [->|Hss].
      * rewrite lookup_insert_eq. eexists. split; [done|]. simplify_eq.
        intros a _ Ha. fields. sets.
      * rewrite lookup_insert_ne by done. eauto.
  - intros d0 Hd0. rewrite Hd. by rewrite lookup_insert_ne.
Qed.

Lemma fresh_deque_None w : deques w !! fresh (dom (deques w)) = None.
Proof. apply not_elem_of_dom, is_fresh. Qed.

Lemma is_deque_other_object w this d0 d s ls vs :
  d ≠ this → is_deque w d s ls vs →
  is_deque (with_deques <[this := d0]> w) d s ls vs.
Proof.
  intros Hne. apply is_deque_ext; [|done|eauto].
  fields. by rewrite lookup_insert_ne.
Qed.

Lemma copy_ctor_with_spec w lhs s ls vs s' :
  is_deque w lhs s ls vs → is_Some (strategies w !! s') →
  (N.of_nat (length ls) * sizeof_node ≤ avail w)%N →
  ∃ w' this, copy_ctor_with lhs s' w = Val this w' ∧
    deques w !! this = None ∧ copy_of w' lhs s ls vs this s'.
Proof.
  intros Hsrc [st Hst] Hmem.
  pose proof (fresh_deque_None w) as Hfresh.
  set (this := fresh (dom (deques w))) in *.
  assert (this ≠ lhs) as Hne.
  { intros ->. destruct Hsrc as [Hobj _ _]. by rewrite Hfresh in Hobj. }
  set (w1 := with_deques <[this := Deque None None (Allocator (Some s'))]> w).
  assert (is_deque w1 lhs s ls vs) as Hsrc1 by by apply is_deque_other_object.
  destruct (copy_into w1 this (Deque None None (Allocator (Some s'))) s' st lhs s ls vs)
    as (w' & Hrun & Hcopy & _); [unfold w1; lookup|done|done|done|done|done|].
  exists w', this. split_and!; [|done|done].
  unfold copy_ctor_with.
  step ltac:(reflexivity).
  step ltac:(apply get_deque_Val; exact (dq_obj _ _ _ _ _ Hsrc1)).
  fields. by step ltac:(exact Hrun).
Qed.

Lemma copy_ctor_spec w lhs s ls vs :
  is_deque w lhs s ls vs →
  (N.of_nat (length ls) * sizeof_node ≤ avail w)%N →
  ∃ w' this, copy_ctor lhs w = Val this w' ∧
    deques w !! this = None ∧ copy_of w' lhs s ls vs this s.
Proof.
  intros Hsrc Hmem.
  pose proof (fresh_deque_None w) as Hfresh.
  set (this := fresh (dom (deques w))) in *.
  assert (this ≠ lhs) as Hne.
  { intros ->. destruct Hsrc as [Hobj _ _]. by rewrite Hfresh in Hobj. }
  destruct (dq_owns _ _ _ _ _ Hsrc) as (st & Hst & _).
  set (w1 := with_deques <[this := Deque None None (Allocator (Some s))]> w).
  assert (is_deque w1 lhs s ls vs) as Hsrc1 by by apply is_deque_other_object.
  destruct (copy_into w1 this (Deque None None (Allocator (Some s))) s st lhs s ls vs)
    as (w' & Hrun & Hcopy & _); [unfold w1; lookup|done|done|done|done|done|].
  exists w', this. split_and!; [|done|done].
  unfold copy_ctor.
  step ltac:(apply get_deque_Val; exact (dq_obj _ _ _ _ _ Hsrc)).
  fields.
  step ltac:(reflexivity).
  step ltac:(apply get_deque_Val; exact (dq_obj _ _ _ _ _ Hsrc1)).
  fields. destruct ls as [|y ls]; simpl head; cbv iota.
  - rewrite <- (bind_assoc (set_start this None) (λ _, set_tail this None)
                             (λ _, ret this)).
    by step ltac:(exact Hrun).
  - by step ltac:(exact Hrun).
Qed.


Lemma FreeList_other w this s0 ls0 vs0 lhs s ls vs :
  is_deque w this s0 ls0 vs0 → is_deque w lhs s ls vs →
  (∀ a, a ∈ ls0 → a ∉ ls) →
  ∃ w1, FreeList (head ls0) (Allocator (Some s0)) w = Val tt w1 ∧
    deques w1 = deques w ∧ is_deque w1 lhs s ls vs ∧ (avail w ≤ avail w1)%N ∧
    (∀ s', is_Some (strategies w !! s') → is_Some (strategies w1 !! s')) ∧
    (∀ a, a ∈ ls0 → blocks w1 !! a = None).
Proof.
  intros Hthis Hsrc Hdisj.
  destruct (FreeList_spec _ _ _ _ _ Hthis)
    as (w1 & st' & Hrun & Hd & Hfreed & Hkept & Hav & Hs & Htr).
  exists w1. split_and!; [done|done| |done| |done].
  - eapply is_deque_ext; [by rewrite Hd| | |exact Hsrc].
    + intros a Ha. apply Hkept. intros Hin. by eapply Hdisj.
    + intros st Hst. rewrite Hs. destruct (decide (s0 = s)) as [->|Hss].
      * rewrite lookup_insert_eq. eexists. split; [done|].
        intros a Ha Hin. apply (Htr st Hst); [|done].
        intros (y & [= ->] & Hy)%list_elem_of_fmap. by eapply Hdisj.
      * rewrite lookup_insert_ne by done. eauto.
  - intros s' Hs'. rewrite Hs. destruct (decide (s0 = s')) as [->|Hss].
    + rewrite lookup_insert_eq. eauto.
    + by rewrite lookup_insert_ne.
Qed.

Lemma copy_assign_spec w this s0 ls0 vs0 lhs s ls vs :
  is_deque w this s0 ls0 vs0 → is_deque w lhs s ls vs → this ≠ lhs →
  (∀ a, a ∈ ls0 → a ∉ ls) →
  (N.of_nat (length ls) * sizeof_node ≤ avail w)%N →
  ∃ w', copy_assign this lhs w = Val tt w' ∧ copy_of w' lhs s ls vs this s.
Proof.
  intros Hthis Hsrc Hne Hdisj Hmem.
  destruct (FreeList_other _ _ _ _ _ _ _ _ _ Hthis Hsrc Hdisj)
    as (w1 & Hfree & Hd & Hsrc1 & Hav & _ & _).
  set (d2 := Deque (head ls0) (last ls0) (Allocator (Some s))).
  set (w2 := with_deques <[this := d2]> w1).
  assert (is_deque w2 lhs s ls vs) as Hsrc2 by by apply is_deque_other_object.
  destruct (dq_owns _ _ _ _ _ Hsrc2) as (st & Hst & _).
  destruct (copy_into w2 this d2 s st lhs s ls vs)
    as (w' & Hrun & Hcopy & _); [unfold w2; lookup|done|done|done|done| |].
  { unfold w2. fields. lia. }
  exists w'. split; [|done].
  unfold copy_assign.
  step ltac:(apply get_deque_Val; exact (dq_obj _ _ _ _ _ Hthis)). fields.
  step ltac:(exact Hfree).
  step ltac:(apply get_deque_Val; exact (dq_obj _ _ _ _ _ Hsrc1)).
  unfold set_allocator.
  step ltac:(eapply put_deque_Val; rewrite Hd; exact (dq_obj _ _ _ _ _ Hthis)).
  fields.
  step ltac:(apply get_deque_Val; exact (dq_obj _ _ _ _ _ Hsrc2)).
  fields. exact Hrun.
Qed.

Lemma Copy_spec w this s0 ls0 vs0 lhs s ls vs s' :
  is_deque w this s0 ls0 vs0 → is_deque w lhs s ls vs → this ≠ lhs →
  (∀ a, a ∈ ls0 → a ∉ ls) → is_Some (strategies w !! s') →
  (N.of_nat (length ls) * sizeof_node ≤ avail w)%N →
  ∃ w', Copy this lhs s' w = Val tt w' ∧ copy_of w' lhs s ls vs this s'.
Proof.
  intros Hthis Hsrc Hne Hdisj Hs' Hmem.
  destruct (FreeList_other _ _ _ _ _ _ _ _ _ Hthis Hsrc Hdisj)
    as (w1 & Hfree & Hd & Hsrc1 & Hav & Hstr & _).
  destruct (Hstr s' Hs') as [st Hst].
  set (d2 := Deque (head ls0) (last ls0) (Allocator (Some s'))).
  set (w2 := with_deques <[this := d2]> w1).
  assert (is_deque w2 lhs s ls vs) as Hsrc2 by by apply is_deque_other_object.
  destruct (copy_into w2 this d2 s' st lhs s ls vs)
    as (w' & Hrun & Hcopy & _); [unfold w2; lookup|done|done|done|done| |].
  { unfold w2. fields. lia. }
  exists w'. split; [|done].
  unfold Copy.
  step ltac:(apply get_deque_Val; exact (dq_obj _ _ _ _ _ Hthis)). fields.
  step ltac:(exact Hfree).
  unfold set_allocator.
  step ltac:(eapply put_deque_Val; rewrite Hd; exact (dq_obj _ _ _ _ _ Hthis)).
  fields.
  step ltac:(apply get_deque_Val; exact (dq_obj _ _ _ _ _ Hsrc2)).
  fields. exact Hrun.
Qed.


(** ** Moves *)

Lemma is_deque_rebind w w' d d' s ls vs :
  blocks w' = blocks w → strategies w' = strategies w →
  deques w' !! d' = Some (Deque (head ls) (last ls) (Allocator (Some s))) →
  is_deque w d s ls vs → is_deque w' d' s ls vs.
Proof.
  intros Hb Hs Hd [Hobj Hlist (st & Hst & Hown)]. split; [done| |].
  - eapply is_list_frame; [|done]. intros a _. by rewrite Hb.
  - exists st. by rewrite Hs.
Qed.

Lemma IsEmpty_Val w this d :
  deques w !! this = Some d → IsEmpty this w = Val (bool_decide (start d = None)) w.
Proof. intros Hobj. unfold IsEmpty. by step ltac:(by apply get_deque_Val). Qed.

Lemma move_ctor_spec w rhs s ls vs :
  is_deque w rhs s ls vs →
  ∃ w' this, move_ctor rhs w = Val this w' ∧
    deques w !! this = None ∧
    is_deque w' this s ls vs ∧
    deques w' !! rhs = Some (Deque None None (Allocator None)) ∧
    IsEmpty rhs w' = Val true w' ∧
    blocks w' = blocks w ∧ strategies w' = strategies w.
Proof.
  intros Hrhs. pose proof (dq_obj _ _ _ _ _ Hrhs) as Hobj.
  set (w1 := with_deques <[rhs := Deque (head ls) (last ls) (Allocator None)]> w).
  pose proof (fresh_deque_None w1) as Hfresh.
  set (this := fresh (dom (deques w1))) in *.
  assert (this ≠ rhs) as Hne.
  { intros Heq. rewrite Heq in Hfresh. unfold w1 in Hfresh.
    cbn [deques with_deques] in Hfresh. by rewrite lookup_insert_eq in Hfresh. }
  assert (deques w !! this = None) as Hnone.
  { unfold w1 in Hfresh. cbn [deques with_deques] in Hfresh.
    by rewrite lookup_insert_ne in Hfresh. }
  eexists _, this. split; [|split_and!].
  - unfold move_ctor.
    step ltac:(by apply get_deque_Val).
    unfold set_allocator.
    step ltac:(by eapply put_deque_Val).
    fields. step ltac:(reflexivity).
    unfold set_start, set_tail.
    step ltac:(eapply put_deque_Val; fields; rewrite lookup_insert_ne by done; lookup).
    eapply bind_Val; [|reflexivity].
    eapply put_deque_Val. lookup.
  - done.
  - eapply (is_deque_rebind w _ rhs this); [done|done| |exact Hrhs]. fields.
    rewrite !lookup_insert_ne by done. lookup.
  - lookup.
  - erewrite IsEmpty_Val; [|lookup]. done.
  - done.
  - done.
Qed.

Lemma move_assign_spec w this s0 ls0 vs0 rhs s ls vs :
  is_deque w this s0 ls0 vs0 → is_deque w rhs s ls vs → this ≠ rhs →
  (∀ a, a ∈ ls0 → a ∉ ls) →
  ∃ w', move_assign this rhs w = Val tt w' ∧
    is_deque w' this s ls vs ∧
    deques w' !! rhs = Some (Deque None None (Allocator None)) ∧
    IsEmpty rhs w' = Val true w' ∧
    (∀ a, a ∈ ls0 → blocks w' !! a = None).
Proof.
  intros Hthis Hrhs Hne Hdisj.
  destruct (FreeList_other _ _ _ _ _ _ _ _ _ Hthis Hrhs Hdisj)
    as (w1 & Hfree & Hd & Hrhs1 & _ & _ & Hfreed).
  pose proof (dq_obj _ _ _ _ _ Hthis) as Hobj.
  pose proof (dq_obj _ _ _ _ _ Hrhs1) as Hobjr.
  eexists. split; [|split_and!].
  - unfold move_assign.
    step ltac:(by apply get_deque_Val). fields.
    step ltac:(exact Hfree).
    step ltac:(by apply get_deque_Val).
    unfold set_allocator, set_start, set_tail.
    step ltac:(by eapply put_deque_Val).
    step ltac:(eapply put_deque_Val; fields; rewrite lookup_insert_ne by done;
               rewrite Hd; exact Hobj).
    step ltac:(apply get_deque_Val; fields; rewrite lookup_insert_ne by done; lookup).
    step ltac:(eapply put_deque_Val; lookup).
    step ltac:(apply get_deque_Val; fields; rewrite !lookup_insert_ne by done; lookup).
    step ltac:(eapply put_deque_Val; lookup).
    step ltac:(eapply put_deque_Val; fields; rewrite !lookup_insert_ne by done; lookup).
    eapply put_deque_Val. lookup.
  - eapply (is_deque_rebind w1 _ rhs this); [done|done| |exact Hrhs1]. fields.
    rewrite !lookup_insert_ne by done. lookup.
  - lookup.
  - erewrite IsEmpty_Val; [|lookup]. done.
  - done.
Qed.


(** ** Runs of pushes and pops *)

Lemma deque_ctor_spec w s :
  is_Some (strategies w !! s) →
  ∃ w' this, deque_ctor s w = Val this w' ∧ deques w !! this = None ∧
    is_deque w' this s [] [] ∧ blocks w' = blocks w ∧ avail w' = avail w ∧
    strategies w' = strategies w.
Proof.
  intros [st Hst]. eexists _, _. split; [reflexivity|].
  split_and!; [apply fresh_deque_None| |done|done|done].
  split; [lookup|apply is_list_nil|].
  exists st. split; [done|]. by intros a ?%elem_of_nil.
Qed.

Lemma push_back_all_spec this s xs : ∀ w ls vs,
  is_deque w this s ls vs →
  (N.of_nat (length xs) * sizeof_node ≤ avail w)%N →
  ∃ w' ls', push_back_all this xs w = Val tt w' ∧
    is_deque w' this s (ls ++ ls') (vs ++ xs) ∧ length ls' = length xs ∧
    avail w' = (avail w - N.of_nat (length xs) * sizeof_node)%N ∧
    (∀ s', is_Some (strategies w !! s') → is_Some (strategies w' !! s')) ∧
    (∀ d sd lsd vsd, d ≠ this → is_deque w d sd lsd vsd → (∀ a, a ∈ lsd → a ∉ ls) →
       is_deque w' d sd lsd vsd ∧ (∀ a, a ∈ lsd → a ∉ ls ++ ls')).
Proof.
  induction xs as [|x xs IH]; intros w ls vs Hdq Hmem.
  - exists w, []. rewrite !app_nil_r. split_and!; [done|done|done|simpl; lia|done|done].
  - change (length (x :: xs)) with (S (length xs)) in *.
    rewrite Nat2N.inj_succ, N.mul_succ_l in Hmem.
    destruct (PushBack_spec w this s ls vs x Hdq) as (w1 & Hrun & Hdq1 & Hav & Hun); [lia|].
    destruct (IH w1 _ _ Hdq1) as (w' & ls' & Hrun' & Hdq' & Hlen & Hav' & Hstr & Hfr); [lia|].
    exists w', (fresh (dom (blocks w)) :: ls'). split_and!.
    + simpl. by step ltac:(exact Hrun).
    + by rewrite <- !app_assoc in Hdq'.
    + simpl. by rewrite Hlen.
    + rewrite Hav', Hav, Nat2N.inj_succ, N.mul_succ_l. lia.
    + intros s' [st' Hs']. apply Hstr.
      destruct Hun as (_ & _ & Hs). destruct (Hs _ _ Hs') as (? & ? & _). eauto.
    + intros d sd lsd vsd Hne Hd Hdisj.
      assert (∀ a, a ∈ lsd → a ∉ ls ++ [fresh (dom (blocks w))]) as Hdisj1.
      { intros a Ha [Hin|Hin]%elem_of_app; [by eapply Hdisj|].
        apply list_elem_of_singleton in Hin as ->.
        destruct (is_list_block _ _ _ _ (dq_list _ _ _ _ _ Hd) Ha) as (sz & n & Hb).
        by rewrite fresh_block_None in Hb. }
      destruct (Hfr d sd lsd vsd Hne) as [Hd' Hdisj']; [|done|].
      { by eapply is_deque_unchanged. }
      split; [done|]. intros a Ha. specialize (Hdisj' a Ha).
      by rewrite <- app_assoc in Hdisj'.
Qed.

Lemma build_spec w s xs :
  is_Some (strategies w !! s) →
  (N.of_nat (length xs) * sizeof_node ≤ avail w)%N →
  ∃ this w' ls, build s xs w = Val this w' ∧
    deques w !! this = None ∧
    is_deque w' this s ls xs ∧
    avail w' = (avail w - N.of_nat (length xs) * sizeof_node)%N ∧
    (∀ s', is_Some (strategies w !! s') → is_Some (strategies w' !! s')) ∧
    (∀ d sd lsd vsd, is_deque w d sd lsd vsd →
       d ≠ this ∧ is_deque w' d sd lsd vsd ∧ (∀ a, a ∈ lsd → a ∉ ls)).
Proof.
  intros Hs Hmem.
  destruct (deque_ctor_spec w s Hs) as (w1 & this & Hctor & Hnone & Hdq1 & Hb1 & Hav1 & Hs1).
  destruct (push_back_all_spec this s xs w1 [] [] Hdq1)
    as (w' & ls & Hpush & Hdq & Hlen & Hav & Hstr & Hfr); [by rewrite Hav1|].
  exists this, w', ls. split_and!.
  - unfold build. step ltac:(exact Hctor). by step ltac:(exact Hpush).
  - done.
  - done.
  - by rewrite Hav, Hav1.
  - intros s' Hs'. apply Hstr. by rewrite Hs1.
  - intros d sd lsd vsd Hd.
    assert (d ≠ this) as Hne.
    { intros ->. rewrite (dq_obj _ _ _ _ _ Hd) in Hnone. done. }
    destruct (Hfr d sd lsd vsd Hne) as [Hd' Hdisj]; [|by intros a _ ?%elem_of_nil|done].
    unfold deque_ctor, new_deque in Hctor. simplify_eq.
    by apply is_deque_other_object.
Qed.

Lemma pop_front_n_spec this s v1 : ∀ l1 w l2 v2,
  length l1 = length v1 → is_deque w this s (l1 ++ l2) (v1 ++ v2) →
  ∃ w', pop_front_n this (length v1) w = Val v1 w' ∧ is_deque w' this s l2 v2.
Proof.
  induction v1 as [|v v1 IH]; intros [|x l1] w l2 v2 Hl Hdq; try done.
  - by exists w.
  - simpl in Hdq.
    destruct (PopFront_spec _ _ _ _ _ _ _ Hdq) as (w1 & Hrun & Hdq1 & _).
    destruct (IH l1 w1 l2 v2) as (w' & Hrun' & Hdq'); [by simplify_eq/=|done|].
    exists w'. split; [|done]. simpl.
    step ltac:(exact Hrun). by step ltac:(exact Hrun').
Qed.

Lemma pop_back_n_spec this s v2 : ∀ l2 w l1 v1,
  length l2 = length v2 → is_deque w this s (l1 ++ l2) (v1 ++ v2) →
  ∃ w', pop_back_n this (length v2) w = Val (reverse v2) w' ∧ is_deque w' this s l1 v1.
Proof.
  induction v2 as [|v v2 IH] using rev_ind; intros l2 w l1 v1 Hl Hdq.
  - destruct l2; [|done]. rewrite !app_nil_r in Hdq. by exists w.
  - destruct l2 as [|x l2 _] using rev_ind.
    { rewrite length_app in Hl. simpl in Hl. lia. }
    rewrite !length_app in Hl. simpl in Hl.
    rewrite !app_assoc in Hdq.
    destruct (PopBack_spec _ _ _ _ _ _ _ Hdq) as (w1 & Hrun & Hdq1 & _).
    destruct (IH l2 w1 l1 v1) as (w' & Hrun' & Hdq'); [lia|done|].
    exists w'. split; [|done].
    rewrite length_app, Nat.add_1_r, reverse_snoc. simpl.
    step ltac:(exact Hrun). by step ltac:(exact Hrun').
Qed.

Lemma run_ops_spec this s ops : ∀ w ls vs outs vs',
  is_deque w this s ls vs → seq_ops ops vs = Some (outs, vs') →
  (N.of_nat (pushes ops) * sizeof_node ≤ avail w)%N →
  ∃ w' ls', run_ops this ops w = Val outs w' ∧ is_deque w' this s ls' vs'.
Proof.
  induction ops as [|o ops IH]; intros w ls vs outs vs' Hdq Hseq Hmem.
  - simpl in Hseq. simplify_eq. by exists w, ls.
  - simpl in Hseq.
    destruct (seq_op o vs) as [[out vs1]|] eqn:Ho; [|done]. simpl in Hseq.
    destruct (seq_ops ops vs1) as [[rest vs2]|] eqn:Hrest; [|done]. simpl in Hseq.
    simplify_eq.
    assert (∃ w1 ls1, run_op this o w = Val out w1 ∧ is_deque w1 this s ls1 vs1 ∧
              (N.of_nat (pushes ops) * sizeof_node ≤ avail w1)%N)
      as (w1 & ls1 & Hrun & Hdq1 & Hmem1).
    { destruct o as [v|v| |]; simpl in Ho; cbn [pushes] in Hmem.
      - rewrite Nat2N.inj_succ, N.mul_succ_l in Hmem. simplify_eq.
        destruct (PushBack_spec _ _ _ _ _ v Hdq) as (w1 & Hrun & Hdq1 & Hav & _); [lia|].
        eexists w1, _. split_and!; [|exact Hdq1|lia].
        unfold run_op. by step ltac:(exact Hrun).
      - rewrite Nat2N.inj_succ, N.mul_succ_l in Hmem. simplify_eq.
        destruct (PushFront_spec _ _ _ _ _ v Hdq) as (w1 & Hrun & Hdq1 & Hav & _); [lia|].
        eexists w1, _. split_and!; [|exact Hdq1|lia].
        unfold run_op. by step ltac:(exact Hrun).
      - destruct vs as [|v vs _] using rev_ind; [done|].
        rewrite reverse_snoc in Ho. rewrite reverse_involutive in Ho. simplify_eq.
        destruct ls as [|x ls _] using rev_ind.
        { destruct Hdq as [_ [Hl _ _] _]. rewrite length_app in Hl. simpl in Hl. lia. }
        destruct (PopBack_spec _ _ _ _ _ _ _ Hdq) as (w1 & Hrun & Hdq1 & _ & Hav & _).
        eexists w1, _. split_and!; [|exact Hdq1|lia].
        unfold run_op. by step ltac:(exact Hrun).
      - destruct vs as [|v vs]; [done|]. simplify_eq.
        destruct ls as [|x ls].
        { by destruct Hdq as [_ [Hl _ _] _]. }
        destruct (PopFront_spec _ _ _ _ _ _ _ Hdq) as (w1 & Hrun & Hdq1 & _ & Hav & _).
        eexists w1, _. split_and!; [|exact Hdq1|lia].
        unfold run_op. by step ltac:(exact Hrun). }
    destruct (IH w1 ls1 vs1 rest vs' Hdq1 Hrest Hmem1) as (w' & ls' & Hrun' & Hdq').
    exists w', ls'. split; [|done]. simpl.
    step ltac:(exact Hrun). by step ltac:(exact Hrun').
Qed.

(** ** Writing through an element reference *)

Lemma ref_set_spec w this s ls vs i a v :
  is_deque w this s ls vs → ls !! i = Some a →
  ∃ w', ref_set a v w = Val tt w' ∧ ref_get a w' = Val v w' ∧
    is_deque w' this s ls (<[i := v]> vs).
Proof.
  intros [Hobj [Hl Hnd Hnodes] Hown] Hi.
  destruct (lookup_lt_is_Some_2 vs i) as [vi Hvi].
  { rewrite <- Hl. by eapply lookup_lt_Some. }
  destruct (Hnodes i a vi Hi Hvi) as [sz Hb].
  eexists. split; [|split].
  - unfold ref_set. by eapply update_Val.
  - unfold ref_get. by step ltac:(eapply load_Val; [lookup|done]).
  - split; [done| |done]. split; [by rewrite length_insert|done|].
    intros j b v' Hj Hv'. fields. destruct (decide (j = i)) as [->|Hji].
    + simplify_eq. rewrite list_lookup_insert_eq in Hv' by (by eapply lookup_lt_Some).
      simplify_eq. exists sz. by rewrite lookup_insert_eq.
    + rewrite list_lookup_insert_ne in Hv' by done.
      destruct (Hnodes j b v' Hj Hv') as [sz' Hb']. exists sz'.
      rewrite lookup_insert_ne; [done|]. intros ->.
      by pose proof (NoDup_lookup _ _ _ _ Hnd Hi Hj).
Qed.

(** ** Copying from released nodes *)

Lemma CopyList_freed w this d s st h :
  deques w !! this = Some d → allocator d = Allocator (Some s) →
  strategies w !! s = Some st → blocks w !! h = None →
  CopyList this (Some h) w = Fault.
Proof.
  intros Hobj Hal Hst Hh. unfold CopyList.
  step ltac:(reflexivity).
  step ltac:(by apply get_deque_Val).
  apply bind_Fault. unfold alloc.
  apply bind_Fault. simpl. unfold bind_ref. by rewrite Hh.
Qed.

Lemma copy_assign_self w this s x ls v vs :
  is_deque w this s (x :: ls) (v :: vs) →
  ∃ w1, FreeList (Some x) (Allocator (Some s)) w = Val tt w1 ∧
    (∀ a, a ∈ x :: ls → blocks w1 !! a = None) ∧
    CopyList this (Some x) w1 = Fault ∧
    copy_assign this this w = Fault.
Proof.
  intros Hdq.
  destruct (FreeList_spec _ _ _ _ _ Hdq)
    as (w1 & st' & Hrun & Hd & Hfreed & _ & _ & Hs & _).
  pose proof (dq_obj _ _ _ _ _ Hdq) as Hobj.
  assert (blocks w1 !! x = None) as Hx by (apply Hfreed; sets).
  exists w1. split_and!; [done|done| |].
  - eapply CopyList_freed; [by rewrite Hd|done| |done].
    rewrite Hs. by rewrite lookup_insert_eq.
  - unfold copy_assign.
    step ltac:(by apply get_deque_Val). fields.
    step ltac:(exact Hrun).
    step ltac:(apply get_deque_Val; by rewrite Hd).
    unfold set_allocator.
    step ltac:(eapply put_deque_Val; by rewrite Hd).
    step ltac:(apply get_deque_Val; lookup).
    fields. eapply CopyList_freed; [lookup|done| |done].
    fields. rewrite Hs. by rewrite lookup_insert_eq.
Qed.


(** ** The invariant of the data model *)

Lemma walk_next w ls vs k : ∀ i,
  is_list w ls vs → i + k < length ls →
  walk next k (ls !! i) w = Some (ls !! (i + k)).
Proof.
  induction k as [|k IH]; intros i Hlist Hlt.
  - by rewrite Nat.add_0_r.
  - destruct (lookup_lt_is_Some_2 ls i) as [a Ha]; [lia|].
    destruct (lookup_lt_is_Some_2 vs i) as [v Hv].
    { rewrite <- (il_length _ _ _ Hlist). lia. }
    destruct (il_nodes _ _ _ Hlist i a v Ha Hv) as [sz Hb].
    rewrite Ha. simpl. rewrite Hb. simpl.
    rewrite (IH (S i)) by (done || lia). do 2 f_equal. lia.
Qed.

Lemma walk_prev w ls vs k : ∀ i,
  is_list w ls vs → i + k < length ls →
  walk prev k (ls !! (i + k)) w = Some (ls !! i).
Proof.
  induction k as [|k IH]; intros i Hlist Hlt.
  - by rewrite Nat.add_0_r.
  - destruct (lookup_lt_is_Some_2 ls (i + S k)) as [a Ha]; [lia|].
    destruct (lookup_lt_is_Some_2 vs (i + S k)) as [v Hv].
    { rewrite <- (il_length _ _ _ Hlist). lia. }
    destruct (il_nodes _ _ _ Hlist _ a v Ha Hv) as [sz Hb].
    rewrite Ha. simpl. rewrite Hb. simpl.
    replace (i + S k) with (S (i + k)) by lia. simpl.
    apply IH; [done|lia].
Qed.

(** A well-formed deque satisfies the invariant, so every operation shown
    to keep [is_deque] keeps the invariant. *)
Lemma is_deque_invariant w this s ls vs d :
  is_deque w this s ls vs → deques w !! this = Some d → deque_invariant w d.
Proof.
  intros [Hobj Hlist _] Hd. rewrite Hobj in Hd. simplify_eq. split; simpl.
  - destruct ls as [|x ls _] using rev_ind; [done|].
    rewrite last_snoc. by destruct ls.
  - intros Hne. exists (pred (length ls)).
    assert (0 < length ls) by (destruct ls; [done|simpl; lia]).
    rewrite head_lookup, last_lookup. split.
    + by rewrite (walk_next w ls vs) by (done || lia).
    + apply (walk_prev w ls vs (pred (length ls)) 0); [done|lia].
Qed.

(** ** [ChangeAllocator] *)

Lemma alloc_MoveNode a s st h szh nh w :
  allocStrategy a = Some s → strategies w !! s = Some st →
  (sizeof_node ≤ avail w)%N → blocks w !! h = Some (Block szh (Obj nh)) →
  alloc a (MoveNode (Some h)) w = Val (Some (fresh (dom (blocks w))))
    (World (<[fresh (dom (blocks w)) := Block sizeof_node (Obj nh)]>
              (<[h := Block szh (Obj (set_data (moved_from (data nh)) nh))]> (blocks w)))
       (avail w - sizeof_node)
       (<[s := Strategy (allocEls st ++ [Some (fresh (dom (blocks w)))])]> (strategies w))
       (deques w)).
Proof.
  intros Ha Hs Hn Hb. unfold alloc.
  pose proof (fresh_block_None w) as Hfresh.
  assert (fresh (dom (blocks w)) ≠ h) as Hne by (intros Heq; by rewrite Heq, Hb in Hfresh).
  step ltac:(simpl; unfold bind_ref; by rewrite Hb).
  step ltac:(unfold strategy_of; by rewrite Ha).
  step ltac:(by apply strategy_alloc_Val).
  unfold eval_ctor.
  eapply bind_Val.
  - step ltac:(eapply load_Val; [fields; by rewrite lookup_insert_ne|done]).
    step ltac:(eapply update_Val; fields; by rewrite lookup_insert_ne).
    reflexivity.
  - cbv beta. eapply bind_Val.
    + unfold construct. fields. rewrite lookup_insert_ne by done.
      by rewrite lookup_insert_eq.
    + unfold ret, with_blocks. fields.
      rewrite (insert_insert_ne _ h) by done. by rewrite insert_insert_eq.
Qed.

Lemma FreeList_loop_untracked l : ∀ vs n w a s st,
  allocStrategy a = Some s → strategies w !! s = Some st →
  chain w l vs → NoDup l → (∀ x, x ∈ l → Some x ∉ allocEls st) → length l ≤ n →
  ∃ w', FreeList_loop n a (head l) w = Val tt w' ∧
    deques w' = deques w ∧ strategies w' = strategies w ∧ avail w' = avail w ∧
    (∀ x, x ∉ l → blocks w' !! x = blocks w !! x) ∧
    (∀ x, x ∈ l → ∃ sz nd, blocks w' !! x = Some (Block sz (Dead nd))) ∧
    chain w' l vs.
Proof.
  induction l as [|x l IH]; intros vs n w a s st Ha Hst Hc Hnd Hun Hn.
  - exists w. split_and!; try done; [by destruct n|by intros x ?%elem_of_nil].
  - destruct vs as [|v vs]; [done|]. simpl in Hc.
    destruct Hc as [(b & nd & Hb & Hp & Hnext & Hdata) Hc].
    apply NoDup_cons in Hnd as [Hx Hnd].
    destruct n as [|n]; [simpl in Hn; lia|].
    edestruct (IH vs n (with_blocks <[x := Block (bsize b) (Dead nd)]> w) a s st)
      as (w' & Hrun & Hd & Hs & Hav & Hkept & Hdead & Hc').
    + done.
    + done.
    + eapply chain_frame; [|done]. intros y Hy. fields.
      apply lookup_insert_ne. by intros ->.
    + done.
    + intros y Hy. apply Hun. sets.
    + simpl in Hn. lia.
    + exists w'. split_and!; try done.
      * simpl.
        step ltac:(by eapply load_Val).
        step ltac:(eapply dealloc_untracked; [done|done|apply Hun; sets|done|done]).
        by rewrite Hnext.
      * intros y Hy. rewrite Hkept by sets. fields.
        apply lookup_insert_ne. sets.
      * intros y [->|Hy]%elem_of_cons; [|by apply Hdead].
        rewrite Hkept by done. fields. rewrite lookup_insert_eq. eauto.
      * simpl. split; [|done]. eexists _, nd.
        rewrite Hkept by done. fields. rewrite lookup_insert_eq. done.
Qed.

(** The state [ChangeAllocator] has built when it reaches its last
    statement: the values are in a new list [new] of the new strategy, the
    deque's [start] and [tail] are the ends of [new], and what is passed to
    [FreeList] with the previous allocator is the first node of [new]. *)
Lemma ChangeAllocator_rebuild w this s1 s2 st2 x ls v vs :
  is_deque w this s1 (x :: ls) (v :: vs) → strategies w !! s2 = Some st2 →
  (N.of_nat (length (x :: ls)) * sizeof_node ≤ avail w)%N →
  ∃ w6 x0 new,
    ChangeAllocator this s2 w = FreeList (Some x0) (Allocator (Some s1)) w6 ∧
    is_list w6 (x0 :: new) (v :: vs) ∧
    (∀ a, a ∈ x0 :: new → blocks w !! a = None) ∧
    deques w6 =
      <[this := Deque (Some x0) (last (x0 :: new)) (Allocator (Some s2))]> (deques w) ∧
    strategies w6 =
      <[s2 := Strategy (allocEls st2 ++ (Some <$> x0 :: new))]> (strategies w) ∧
    (∀ a, a ∈ x :: ls → is_Some (blocks w6 !! a)).
Proof.
  intros Hdq Hst2 Hmem.
  pose proof (dq_obj _ _ _ _ _ Hdq) as Hobj.
  pose proof (dq_list _ _ _ _ _ Hdq) as Hlist.
  destruct (is_list_head _ _ _ _ _ Hlist) as [szx Hbx].
  pose proof (is_list_chain _ _ _ Hlist) as [_ Hc].
  pose proof (il_NoDup _ _ _ Hlist) as [Hxls Hnd]%NoDup_cons.
  pose proof (fresh_block_None w) as Hfresh.
  set (x0 := fresh (dom (blocks w))) in *.
  assert (∀ a b, blocks w !! a = Some b → x0 ≠ a) as Hnew.
  { intros a' b' Hb' <-. rewrite Hfresh in Hb'. done. }
  change (length (x :: ls)) with (S (length ls)) in Hmem.
  rewrite Nat2N.inj_succ, N.mul_succ_l in Hmem.
  set (nx := Node (head ls) None v) in *.
  set (w3 := World
    (<[x0 := Block sizeof_node (Obj nx)]>
       (<[x := Block szx (Obj (set_data (moved_from (data nx)) nx))]> (blocks w)))
    (avail w - sizeof_node)
    (<[s2 := Strategy (allocEls st2 ++ [Some x0])]> (strategies w))
    (<[this := Deque (Some x0) (last (x :: ls)) (Allocator (Some s2))]> (deques w))).
  assert (∀ z, z ∈ ls → blocks w3 !! z = blocks w !! z) as Hold.
  { intros z Hz. destruct (chain_live _ _ _ z Hc Hz) as [bz Hbz]. unfold w3. fields.
    rewrite !lookup_insert_ne; [done|by intros <-|by eapply Hnew]. }
  edestruct (copy_tail_spec w3 (Allocator (Some s2)) s2
               (Strategy (allocEls st2 ++ [Some x0])) x0 sizeof_node (head ls) v ls vs
               (S (size (blocks w))))
    as (w4 & new & z & szz & nz & Hrun & Hlast & Hbz & Hndf & Hnone & Hd & Hs
        & Hav & Hkept & Hclose).
  { done. }
  { unfold w3. lookup. }
  { unfold w3. lookup. }
  { intros Hin. destruct (chain_live _ _ _ x0 Hc Hin) as [bz Hbz]. by eapply Hnew. }
  { by eapply chain_frame. }
  { unfold w3. fields. lia. }
  { assert (length ls ≤ size (blocks w)); [|lia].
    apply length_le_size; [done|]. intros y Hy. by eapply chain_live. }
  assert (z ∈ x0 :: new) as Hz.
  { rewrite last_lookup in Hlast. by eapply list_elem_of_lookup_2. }
  eexists _, x0, new. split; [|split_and!].
  - unfold ChangeAllocator.
    step ltac:(by apply get_deque_Val). fields.
    unfold set_allocator.
    step ltac:(by eapply put_deque_Val).
    step ltac:(apply get_deque_Val; lookup). fields.
    step ltac:(reflexivity).
    step ltac:(eapply (alloc_MoveNode _ s2 st2 x szx nx); [done|done|fields; lia|done]).
    fields. unfold set_start.
    step ltac:(eapply put_deque_Val; lookup).
    step ltac:(eapply load_Val; [lookup|done]).
    unfold with_deques. fields. rewrite insert_insert_eq.
    step ltac:(exact Hrun).
    unfold set_tail.
    step ltac:(eapply put_deque_Val; rewrite Hd; unfold w3; lookup).
    step ltac:(eapply update_Val; fields; exact Hbz).
    step ltac:(apply get_deque_Val; lookup).
    fields. reflexivity.
  - by apply Hclose.
  - intros a [->|Ha]%elem_of_cons; [done|].
    pose proof (Hnone a Ha) as Ha2. unfold w3 in Ha2. cbn [blocks] in Ha2.
    apply lookup_insert_None in Ha2 as [Ha2 _].
    by apply lookup_insert_None in Ha2 as [Ha2 _].
  - fields. rewrite Hd. unfold w3. fields. rewrite insert_insert_eq.
    by rewrite Hlast.
  - fields. rewrite Hs. unfold w3. fields. rewrite insert_insert_eq.
    by rewrite <- app_assoc.
  - intros a Ha. fields.
    assert (is_Some (blocks w3 !! a)) as [ba Hba].
    { unfold w3. fields. apply elem_of_cons in Ha as [->|Ha].
      - rewrite lookup_insert_ne by (by eapply Hnew). rewrite lookup_insert_eq. eauto.
      - destruct (chain_live _ _ _ a Hc Ha) as [bz' Hbz'].
        rewrite !lookup_insert_ne; [eauto|by intros <-|by eapply Hnew]. }
    assert (a ∉ new) as Hanew.
    { intros Hin. rewrite (Hnone a Hin) in Hba. done. }
    assert (a ≠ x0) as Hax0.
    { intros ->. apply elem_of_cons in Ha as [Ha|Ha].
      - by eapply Hnew.
      - destruct (chain_live _ _ _ x0 Hc Ha) as [bz' Hbz']. by eapply Hnew. }
    rewrite lookup_insert_ne by (intros <-; sets).
    rewrite Hkept by done. eauto.
Qed.

(** * The claims *)

(** C1, what the code does.  For a non-empty deque bound to strategy
    [s1] and another strategy [s2], [ChangeAllocator s2] builds the new list
    under [s2] and the deque then reads the same values in the same order,
    but [FreeList] is handed [start], by then the first node of the new
    list, together with the previous allocator: the destructor runs on
    every node of the new list, [s1] finds none of them in its tracking
    list, and every node of the old list is still allocated and still
    tracked by [s1], whose count of outstanding blocks is what it was. *)
Theorem ChangeAllocator_strands_old_nodes w this s1 st1 s2 x ls v vs :
  is_deque w this s1 (x :: ls) (v :: vs) →
  strategies w !! s1 = Some st1 → s2 ≠ s1 → is_Some (strategies w !! s2) →
  (∀ a, Some a ∈ allocEls st1 → is_Some (blocks w !! a)) →
  (N.of_nat (length (x :: ls)) * sizeof_node ≤ avail w)%N →
  ∃ w' new, ChangeAllocator this s2 w = Val tt w' ∧
    deques w' !! this = Some (Deque (head new) (last new) (Allocator (Some s2))) ∧
    print this w' = Val (v :: vs) w' ∧
    (∀ a, a ∈ new → ∃ sz n, blocks w' !! a = Some (Block sz (Dead n))) ∧
    strategies w' !! s1 = Some st1 ∧
    (∀ a, a ∈ x :: ls → Some a ∈ allocEls st1 ∧ is_Some (blocks w' !! a)) ∧
    outstanding s1 w' = outstanding s1 w.
Proof.
  intros Hdq Hst1 Hne [st2 Hst2] Hlive Hmem.
  destruct (ChangeAllocator_rebuild w this s1 s2 st2 x ls v vs Hdq Hst2 Hmem)
    as (w6 & x0 & new & Hrun & Hlist & Hnone & Hd & Hs & Hold).
  assert (strategies w6 !! s1 = Some st1) as Hst1'.
  { rewrite Hs. by rewrite lookup_insert_ne. }
  pose proof (is_list_chain _ _ _ Hlist) as Hc.
  pose proof (il_NoDup _ _ _ Hlist) as Hnd.
  destruct (FreeList_loop_untracked (x0 :: new) (v :: vs) (S (size (blocks w6))) w6
              (Allocator (Some s1)) s1 st1)
    as (w7 & Hfree & Hd7 & Hs7 & Hav7 & Hkept & Hdead & Hc7); [done..| | |].
  { intros a Ha Htr. destruct (Hlive a Htr) as [b Hb]. by rewrite (Hnone a Ha) in Hb. }
  { assert (length (x0 :: new) ≤ size (blocks w6)); [|lia].
    apply length_le_size; [done|]. intros a Ha. by eapply chain_live. }
  exists w7, (x0 :: new). split_and!.
  - by rewrite Hrun.
  - rewrite Hd7, Hd. by rewrite lookup_insert_eq.
  - unfold print.
    step ltac:(reflexivity).
    step ltac:(apply get_deque_Val; rewrite Hd7, Hd; by rewrite lookup_insert_eq).
    fields. apply (print_loop_spec (x0 :: new)); [done|].
    assert (length (x0 :: new) ≤ size (blocks w7)); [|lia].
    apply length_le_size; [done|]. intros a Ha. by eapply chain_live.
  - done.
  - by rewrite Hs7.
  - intros a Ha. split.
    + destruct (dq_owns _ _ _ _ _ Hdq) as (st & Hst & Hown). simplify_eq. by apply Hown.
    + rewrite Hkept; [by apply Hold|].
      intros Hin. destruct (is_list_block _ _ _ _ (dq_list _ _ _ _ _ Hdq) Ha)
        as (sz & n & Hb). by rewrite (Hnone a Hin) in Hb.
  - unfold outstanding. by rewrite Hs7, Hst1', Hst1.
Qed.

(** C2, what the code does.  [ChangeAllocator] with the strategy the deque
    is already bound to hands the new list to [FreeList] under that same
    strategy, which tracks it: every new node is released, and the deque is
    left with non-null [start] and [tail] that point to released blocks.
    Printing the deque then reads a released block, and for a deque of two
    or more values no number of steps leads from [start] to [tail]. *)
Theorem ChangeAllocator_same_strategy_dangles w this s x ls v vs :
  is_deque w this s (x :: ls) (v :: vs) →
  (N.of_nat (length (x :: ls)) * sizeof_node ≤ avail w)%N →
  ∃ w' d h t, ChangeAllocator this s w = Val tt w' ∧
    deques w' !! this = Some d ∧ start d = Some h ∧ tail d = Some t ∧
    blocks w' !! h = None ∧ blocks w' !! t = None ∧
    print this w' = Fault ∧
    (ls ≠ [] → ¬ deque_invariant w' d).
Proof.
  intros Hdq Hmem.
  destruct (dq_owns _ _ _ _ _ Hdq) as (st & Hst & _).
  destruct (ChangeAllocator_rebuild w this s s st x ls v vs Hdq Hst Hmem)
    as (w6 & x0 & new & Hrun & Hlist & Hnone & Hd & Hs & Hold).
  pose proof (is_list_chain _ _ _ Hlist) as Hc.
  pose proof (il_NoDup _ _ _ Hlist) as Hnd.
  destruct (FreeList_loop_spec (x0 :: new) (v :: vs) (S (size (blocks w6))) w6
              (Allocator (Some s)) s (Strategy (allocEls st ++ (Some <$> x0 :: new))))
    as (w7 & st7 & Hfree & Hd7 & Hfreed & _); [done| |done|done| | |].
  { rewrite Hs. by rewrite lookup_insert_eq. }
  { intros a Ha. fields. apply elem_of_app. right. apply list_elem_of_fmap. eauto. }
  { assert (length (x0 :: new) ≤ size (blocks w6)); [|lia].
    apply length_le_size; [done|]. intros a Ha. by eapply chain_live. }
  assert (is_Some (last (x0 :: new))) as [z Hlast].
  { rewrite last_lookup. apply lookup_lt_is_Some_2. simpl. lia. }
  assert (z ∈ x0 :: new) as Hz.
  { rewrite last_lookup in Hlast. by eapply list_elem_of_lookup_2. }
  assert (blocks w7 !! x0 = None) as Hx0 by (apply Hfreed; sets).
  exists w7, (Deque (Some x0) (Some z) (Allocator (Some s))), x0, z.
  split_and!; try done.
  - by rewrite Hrun.
  - rewrite Hd7, Hd, Hlast. by rewrite lookup_insert_eq.
  - by apply Hfreed.
  - unfold print.
    step ltac:(reflexivity).
    step ltac:(apply get_deque_Val; rewrite Hd7, Hd, Hlast; by rewrite lookup_insert_eq).
    fields. apply bind_Fault. by apply load_freed.
  - intros Hls [_ Hwalk]. destruct Hwalk as (n & Hn & _); [done|].
    fields in Hn. destruct n as [|n]; simpl in Hn.
    + simplify_eq.
      pose proof (il_length _ _ _ Hlist) as Hl1.
      pose proof (il_length _ _ _ (dq_list _ _ _ _ _ Hdq)) as Hl2.
      destruct new as [|y new]; [destruct ls; [done|simpl in *; lia]|].
      apply NoDup_cons in Hnd as [Hnotin _].
      change (last (z :: y :: new)) with (last (y :: new)) in Hlast.
      rewrite last_lookup in Hlast. apply list_elem_of_lookup_2 in Hlast. done.
    + by rewrite Hx0 in Hn.
Qed.

(** C3.  On an empty deque [PopBack] and [PopFront] throw the exception
    "Empty list" and leave the store as it was.  On a deque whose last
    (first) node is [x] holding [v], [PopBack] ([PopFront]) returns [v],
    releases the block of [x], and leaves the deque holding the remaining
    nodes and values, its [start] and [tail] being the ends of what remains
    (both null when [x] was the only node). *)
Theorem pop_contract w this :
  (∀ d, deques w !! this = Some d → start d = None → tail d = None →
     PopBack this w = Throw (Exception "Empty list") w ∧
     PopFront this w = Throw (Exception "Empty list") w) ∧
  (∀ s ls vs x v, is_deque w this s (ls ++ [x]) (vs ++ [v]) →
     ∃ w', PopBack this w = Val v w' ∧
       blocks w' !! x = None ∧
       deques w' !! this = Some (Deque (head ls) (last ls) (Allocator (Some s))) ∧
       is_deque w' this s ls vs) ∧
  (∀ s ls vs x v, is_deque w this s (x :: ls) (v :: vs) →
     ∃ w', PopFront this w = Val v w' ∧
       blocks w' !! x = None ∧
       deques w' !! this = Some (Deque (head ls) (last ls) (Allocator (Some s))) ∧
       is_deque w' this s ls vs).
Proof.
  split_and!.
  - intros d Hobj Hs Ht. split; [by eapply PopBack_empty|by eapply PopFront_empty].
  - intros s ls vs x v Hdq.
    destruct (PopBack_spec _ _ _ _ _ _ _ Hdq) as (w' & Hrun & Hdq' & Hx & _).
    exists w'. split_and!; [done|done|by destruct Hdq'|done].
  - intros s ls vs x v Hdq.
    destruct (PopFront_spec _ _ _ _ _ _ _ Hdq) as (w' & Hrun & Hdq' & Hx & _).
    exists w'. split_and!; [done|done|by destruct Hdq'|done].
Qed.

(** C4.  From a deque holding [vs], pushing [xs] at the back and then
    popping everything at the front returns [vs ++ xs] (insertion order);
    popping [length xs] times at the back instead returns [xs] reversed and
    leaves [vs].  Any sequence of pushes and pops at either end returns what
    the same sequence returns on the front-to-back sequence of values, and
    leaves the deque holding what it leaves.  And on an empty deque the
    scenario PushBack 3, PushBack 4, PushFront 2, PushFront 1, PopFront,
    PopBack prints [3,4], then [1,2,3,4], returns 1 leaving [2,3,4],
    returns 4 leaving [2,3]. *)
Theorem per_end_order w this s ls vs xs :
  is_deque w this s ls vs →
  (N.of_nat (length xs) * sizeof_node ≤ avail w)%N →
  (∃ w1 w2, push_back_all this xs w = Val tt w1 ∧
     pop_front_n this (length (vs ++ xs)) w1 = Val (vs ++ xs) w2 ∧
     is_deque w2 this s [] []) ∧
  (∃ w1 w2, push_back_all this xs w = Val tt w1 ∧
     pop_back_n this (length xs) w1 = Val (reverse xs) w2 ∧
     is_deque w2 this s ls vs) ∧
  (∀ ops outs vs', seq_ops ops vs = Some (outs, vs') →
     (N.of_nat (pushes ops) * sizeof_node ≤ avail w)%N →
     ∃ w' ls', run_ops this ops w = Val outs w' ∧ is_deque w' this s ls' vs') ∧
  (ls = [] → (4 * sizeof_node ≤ avail w)%N → ∀ v1 v2 v3 v4,
     ∃ w' l, scenario this v1 v2 v3 v4 w =
       Val ([v3; v4], [v1; v2; v3; v4], v1, [v2; v3; v4], v4, [v2; v3]) w' ∧
       is_deque w' this s l [v2; v3]).
Proof.
  intros Hdq Hmem.
  destruct (push_back_all_spec this s xs w ls vs Hdq Hmem)
    as (w1 & ls' & Hpush & Hdq1 & Hlen & _).
  split_and!; [| |intros ops outs vs' Hseq Hmem'; by eapply run_ops_spec|].
  - destruct (pop_front_n_spec this s (vs ++ xs) (ls ++ ls') w1 [] [])
      as (w2 & Hpop & Hdq2).
    { rewrite !length_app, Hlen. by rewrite (il_length _ _ _ (dq_list _ _ _ _ _ Hdq)). }
    { by rewrite !app_nil_r. }
    by exists w1, w2.
  - destruct (pop_back_n_spec this s xs ls' w1 ls vs Hlen Hdq1) as (w2 & Hpop & Hdq2).
    by exists w1, w2.
  - intros -> Hmem4 v1 v2 v3 v4.
    assert (vs = []) as ->.
    { destruct Hdq as [_ [Hl _ _] _]. by destruct vs. }
    destruct (PushBack_spec _ _ _ _ _ v3 Hdq) as (wa & Ha & Hdqa & Hava & _); [lia|].
    destruct (PushBack_spec _ _ _ _ _ v4 Hdqa) as (wb & Hb & Hdqb & Havb & _); [lia|].
    destruct (PushFront_spec _ _ _ _ _ v2 Hdqb) as (wc & Hc & Hdqc & Havc & _); [lia|].
    destruct (PushFront_spec _ _ _ _ _ v1 Hdqc) as (wd & Hd & Hdqd & Havd & _); [lia|].
    destruct (PopFront_spec _ _ _ _ _ _ _ Hdqd) as (we & He & Hdqe & _).
    simpl app in *.
    destruct (PopBack_spec _ _ _ [fresh (dom (blocks wb)); fresh (dom (blocks w))]
                [v2; v3] _ v4 Hdqe) as (wf & Hf & Hdqf & _).
    eexists wf, _. split; [|exact Hdqf].
    unfold scenario.
    step ltac:(exact Ha). step ltac:(exact Hb).
    step ltac:(by eapply print_spec).
    step ltac:(exact Hc). step ltac:(exact Hd).
    step ltac:(by eapply print_spec).
    step ltac:(exact He).
    step ltac:(by eapply print_spec).
    step ltac:(exact Hf).
    by step ltac:(by eapply print_spec).
Qed.

(** C5.  For a source deque holding any [vs] (none, one or more values)
    and enough memory for its nodes, the copy constructor, the copy
    constructor with a strategy, copy assignment to another deque object
    and [Copy] into another deque object all leave a destination that
    holds [vs] in nodes of its own (disjoint from the source's, owned by the
    destination's strategy; no node for an empty source, one node that is
    both [start] and [tail] for a single value) while the source is as
    before; afterwards a push, pop or clear on either leaves the other as
    it is. *)
Theorem copies_are_independent w lhs s ls vs :
  is_deque w lhs s ls vs →
  (N.of_nat (length ls) * sizeof_node ≤ avail w)%N →
  (∃ w' this, copy_ctor lhs w = Val this w' ∧
     deques w !! this = None ∧ copy_of w' lhs s ls vs this s) ∧
  (∀ s', is_Some (strategies w !! s') →
     ∃ w' this, copy_ctor_with lhs s' w = Val this w' ∧
       deques w !! this = None ∧ copy_of w' lhs s ls vs this s') ∧
  (∀ this s0 ls0 vs0, this ≠ lhs → is_deque w this s0 ls0 vs0 →
     (∀ a, a ∈ ls0 → a ∉ ls) →
     ∃ w', copy_assign this lhs w = Val tt w' ∧ copy_of w' lhs s ls vs this s) ∧
  (∀ this s0 ls0 vs0 s', this ≠ lhs → is_deque w this s0 ls0 vs0 →
     (∀ a, a ∈ ls0 → a ∉ ls) → is_Some (strategies w !! s') →
     ∃ w', Copy this lhs s' w = Val tt w' ∧ copy_of w' lhs s ls vs this s').
Proof.
  intros Hsrc Hmem. split_and!.
  - by apply copy_ctor_spec.
  - intros s' Hs'. by apply copy_ctor_with_spec.
  - intros this s0 ls0 vs0 Hne Hthis Hdisj. by eapply copy_assign_spec.
  - intros this s0 ls0 vs0 s' Hne Hthis Hdisj Hs'. by eapply Copy_spec.
Qed.

(** C6.  Move construction from a deque, and move assignment from it to
    another deque object, leave the destination holding the source's nodes
    and values in the same order under the source's strategy, and the
    source with null [start] and [tail] (so [IsEmpty] is true) and no
    strategy; construction touches no block; assignment has released the
    destination's former nodes. *)
Theorem move_transfers_ownership w rhs s ls vs :
  is_deque w rhs s ls vs →
  (∃ w' this, move_ctor rhs w = Val this w' ∧
     deques w !! this = None ∧
     is_deque w' this s ls vs ∧
     deques w' !! rhs = Some (Deque None None (Allocator None)) ∧
     IsEmpty rhs w' = Val true w' ∧
     blocks w' = blocks w ∧ strategies w' = strategies w) ∧
  (∀ this s0 ls0 vs0, this ≠ rhs → is_deque w this s0 ls0 vs0 →
     (∀ a, a ∈ ls0 → a ∉ ls) →
     ∃ w', move_assign this rhs w = Val tt w' ∧
       is_deque w' this s ls vs ∧
       deques w' !! rhs = Some (Deque None None (Allocator None)) ∧
       IsEmpty rhs w' = Val true w' ∧
       (∀ a, a ∈ ls0 → blocks w' !! a = None)).
Proof.
  intros Hrhs. split.
  - by apply move_ctor_spec.
  - intros this s0 ls0 vs0 Hne Hthis Hdisj. by eapply move_assign_spec.
Qed.



(** C8.  [dealloc p] on the reference strategy, for a pointer [p] that is
    not in its tracking list, returns without a fault and leaves the whole
    store (tracking list and heap) as it was.  For a tracked pointer (a live
    block, or the null pointer) it frees the block and erases exactly the
    first entry equal to [p]; if that was its only entry, a second
    [dealloc p] changes nothing. *)
Theorem strategy_dealloc_contract w s st p :
  strategies w !! s = Some st →
  (p ∉ allocEls st → strategy_dealloc s p w = Val tt w) ∧
  (p ∈ allocEls st →
     ∃ l1 l2, allocEls st = l1 ++ p :: l2 ∧ (p ∉ l1) ∧
       (∀ a b, p = Some a → blocks w !! a = Some b →
          ∃ w', strategy_dealloc s p w = Val tt w' ∧
            w' = World (delete a (blocks w)) (avail w + bsize b)
                   (<[s := Strategy (l1 ++ l2)]> (strategies w)) (deques w) ∧
            (p ∉ l2 → strategy_dealloc s p w' = Val tt w')) ∧
       (p = None →
          strategy_dealloc s p w =
            Val tt (with_strategies <[s := Strategy (l1 ++ l2)]> w))).
Proof.
  intros Hst. split.
  - intros Hp. by eapply strategy_dealloc_untracked.
  - intros Hp. destruct (erase_split p _ Hp) as (l1 & l2 & Hl & Hl1 & Her).
    exists l1, l2. split_and!; [done|done| |].
    + intros a b -> Hb. eexists. split_and!.
      * erewrite strategy_dealloc_tracked by done. by rewrite Her.
      * done.
      * intros Hl2. eapply strategy_dealloc_untracked; [lookup|].
        fields. sets.
    + intros ->. unfold strategy_dealloc.
      step ltac:(by apply get_strategy_Val).
      destruct (list_find_tracked _ _ Hp) as [i Hi].
      unfold erase in Her. rewrite Hi in Her. rewrite Hi.
      step ltac:(reflexivity). by rewrite Her.
Qed.

(** C9.  On the end position (a null node), [operator*], prefix [++] and
    postfix [++] throw the exception "Try to use end iterator" and leave
    the store as it was.  On a live node, [operator*] yields a reference to
    that node's [data] (reading it gives the value, assigning through it
    changes the value in place), and both increments move the iterator to
    the node's [next].  For a well-formed deque, [begin] is at the first
    node, assigning through the reference of the node at position [i]
    changes exactly the value at position [i], and the loop from [begin]
    to [end] reads the values front to back. *)
Theorem iterator_contract w :
  (∀ this, end_ this w = Val (Iterator None) w) ∧
  (iter_deref (Iterator None) w = Throw (Exception "Try to use end iterator") w ∧
   iter_preinc (Iterator None) w = Throw (Exception "Try to use end iterator") w ∧
   iter_postinc (Iterator None) w = Throw (Exception "Try to use end iterator") w) ∧
  (∀ a sz n, blocks w !! a = Some (Block sz (Obj n)) →
     iter_deref (Iterator (Some a)) w = Val a w ∧
     ref_get a w = Val (data n) w ∧
     (∀ v, ∃ w', ref_set a v w = Val tt w' ∧ ref_get a w' = Val v w') ∧
     iter_preinc (Iterator (Some a)) w = Val (Iterator (next n)) w ∧
     iter_postinc (Iterator (Some a)) w =
       Val (Iterator (next n), Iterator (Some a)) w) ∧
  (∀ this s ls vs, is_deque w this s ls vs →
     begin this w = Val (Iterator (head ls)) w ∧
     (∀ i a v, ls !! i = Some a →
        ∃ w', ref_set a v w = Val tt w' ∧ is_deque w' this s ls (<[i := v]> vs)) ∧
     iterate this w = Val vs w).
Proof.
  split_and!; try done.
  - intros a sz n Hb. split_and!; try done.
    + unfold ref_get. by step ltac:(by eapply load_Val).
    + intros v. eexists. split.
      * unfold ref_set. by eapply update_Val.
      * unfold ref_get. by step ltac:(eapply load_Val; [lookup|done]).
    + unfold iter_preinc. fields. by step ltac:(by eapply load_Val).
    + unfold iter_postinc. fields. by step ltac:(by eapply load_Val).
  - intros this s ls vs Hdq. split_and!.
    + unfold begin. by step ltac:(apply get_deque_Val; exact (dq_obj _ _ _ _ _ Hdq)).
    + intros i a v Hi. destruct (ref_set_spec _ _ _ _ _ _ _ v Hdq Hi) as (w' & ? & _ & ?).
      eauto.
    + by eapply iterate_spec.
Qed.

(** C10.  For a non-empty deque, copy assignment of the deque to itself
    first releases every node of the deque under its own strategy and then
    runs [CopyList] on the first of the released nodes, which reads a
    released block: the assignment is a fault.  With a source that is
    another deque object (with nodes of its own) the assignment returns and
    the destination is a copy of the source. *)
Theorem self_copy_assign_faults w this s x ls v vs :
  is_deque w this s (x :: ls) (v :: vs) →
  (∃ w1, FreeList (Some x) (Allocator (Some s)) w = Val tt w1 ∧
     (∀ a, a ∈ x :: ls → blocks w1 !! a = None) ∧
     CopyList this (Some x) w1 = Fault ∧
     copy_assign this this w = Fault) ∧
  (∀ lhs s' ls' vs', lhs ≠ this → is_deque w lhs s' ls' vs' →
     (∀ a, a ∈ x :: ls → a ∉ ls') →
     (N.of_nat (length ls') * sizeof_node ≤ avail w)%N →
     ∃ w', copy_assign this lhs w = Val tt w' ∧ copy_of w' lhs s' ls' vs' this s').
Proof.
  intros Hdq. split.
  - exact (copy_assign_self _ _ _ _ _ _ _ Hdq).
  - intros lhs s' ls' vs' Hne Hsrc Hdisj Hmem.
    eapply copy_assign_spec; [done|done|by apply not_eq_sym|done|done].
Qed.


(** * Further properties of the code *)

(** ** The bookkeeping of the strategies is kept by every call *)

Lemma elem_of_held (a : loc) (l : list ptr) : a ∈ held l ↔ Some a ∈ l.
Proof.
  unfold held. rewrite list_elem_of_omap. split.
  - intros (x & Hx & Heq). unfold id in Heq. by subst.
  - intros H. by exists (Some a).
Qed.

Lemma held_app (l1 l2 : list ptr) : held (l1 ++ l2) = held l1 ++ held l2.
Proof. apply omap_app. Qed.

Lemma preserves_ret {A} (a : A) : preserves (ret a).
Proof. intros w H. by split. Qed.

Lemma preserves_throw {A} msg : preserves (@throw A msg).
Proof. intros w H. by split. Qed.

Lemma preserves_fault {A} : preserves (@fault A).
Proof. by intros w H. Qed.

Lemma preserves_timeout {A} : preserves (@timeout A).
Proof. by intros w H. Qed.

Lemma preserves_bind {A B} (m : M A) (k : A → M B) :
  preserves m → (∀ a, preserves (k a)) → preserves (bind m k).
Proof.
  intros Hm Hk w H. unfold bind. specialize (Hm w H).
  destruct (m w) as [a w1|e w1| |]; try done. destruct Hm as [H1 Hl1].
  specialize (Hk a w1 H1). destruct (k a w1) as [b w2|e w2| |]; try done.
  - destruct Hk as [H2 Hl2]. split; [done|]. intros Hl. by apply Hl2, Hl1.
  - destruct Hk as [H2 Hl2]. split; [done|]. intros He Hl. by apply Hl2, Hl1.
Qed.

(** The invariant reads the addresses of the live blocks and the tracking
    lists, nothing else. *)
Lemma heap_inv_ext w w' :
  dom (blocks w') = dom (blocks w) → strategies w' = strategies w →
  heap_inv w → heap_inv w'.
Proof.
  intros Hd Hs [H1 H3 H4].
  assert (∀ a, is_Some (blocks w' !! a) ↔ is_Some (blocks w !! a)) as Hb.
  { intros a. rewrite <- !elem_of_dom. by rewrite Hd. }
  assert (∀ s a, tracked w' s a ↔ tracked w s a) as Ht.
  { intros s a. unfold tracked. by rewrite Hs. }
  split.
  - intros s a Htr. apply Hb. eapply H1. by apply Ht.
  - intros s st Hst. rewrite Hs in Hst. eauto.
  - intros s1 s2 a Ht1 Ht2. apply (H4 s1 s2 a); by apply Ht.
Qed.

Lemma no_leak_ext w w' :
  dom (blocks w') = dom (blocks w) → strategies w' = strategies w →
  no_leak w → no_leak w'.
Proof.
  intros Hd Hs H2 a Ha.
  destruct (H2 a) as [s Htr].
  { rewrite <- elem_of_dom in *. by rewrite <- Hd. }
  exists s. unfold tracked. by rewrite Hs.
Qed.

Lemma kept_ext w w' :
  dom (blocks w') = dom (blocks w) → strategies w' = strategies w →
  heap_inv w → heap_inv w' ∧ (no_leak w → no_leak w').
Proof.
  intros Hd Hs H. split; [by apply (heap_inv_ext w)|by apply no_leak_ext].
Qed.

Lemma preserves_fuel : preserves fuel.
Proof. intros w H. by split. Qed.

Lemma preserves_load p : preserves (load p).
Proof.
  intros w H. unfold load. destruct p as [a|]; [|done].
  by destruct (blocks w !! a ≫= peek).
Qed.

Lemma preserves_get_deque this : preserves (get_deque this).
Proof. intros w H. unfold get_deque. by destruct (deques w !! this). Qed.

Lemma preserves_get_strategy s : preserves (get_strategy s).
Proof. intros w H. unfold get_strategy. by destruct (strategies w !! s). Qed.

Lemma preserves_strategy_of a : preserves (strategy_of a).
Proof. destruct a as [[s|]]; [apply preserves_ret|apply preserves_fault]. Qed.

Lemma preserves_with_deques f : preserves (modify (with_deques f)).
Proof. intros w H. unfold modify. by apply (kept_ext w). Qed.

Lemma preserves_new_deque d : preserves (new_deque d).
Proof. intros w H. unfold new_deque. by apply (kept_ext w). Qed.

Lemma preserves_update p f : preserves (update p f).
Proof.
  intros w H. unfold update. destruct p as [a|]; [|done].
  destruct (blocks w !! a) as [b|] eqn:Hb; [|done]. simpl.
  destruct (poke f b) as [b'|]; [|done].
  apply (kept_ext w); [|done..]. fields. by apply dom_insert_lookup_L.
Qed.

Lemma preserves_construct p n : preserves (construct p n).
Proof.
  intros w H. unfold construct. destruct p as [a|]; [|done].
  destruct (blocks w !! a) as [b|] eqn:Hb; [|done].
  apply (kept_ext w); [|done..]. fields. by apply dom_insert_lookup_L.
Qed.

Lemma preserves_destroy p : preserves (destroy p).
Proof.
  intros w H. unfold destroy. destruct p as [a|]; [|by split].
  destruct (blocks w !! a) as [b|] eqn:Hb; [|by split].
  destruct (peek b); [|by split].
  apply (kept_ext w); [|done..]. fields. by apply dom_insert_lookup_L.
Qed.

Lemma preserves_bind_ref p : preserves (bind_ref p).
Proof.
  intros w H. unfold bind_ref. destruct p as [a|]; [|done].
  by destruct (blocks w !! a).
Qed.

Lemma preserves_bind_args args : preserves (bind_args args).
Proof.
  destruct args; simpl; first [apply preserves_bind_ref|apply preserves_ret].
Qed.

Lemma tracked_insert w w' s l' s' a :
  strategies w' = <[s := Strategy l']> (strategies w) →
  tracked w' s' a ↔ (s' = s ∧ Some a ∈ l') ∨ (s' ≠ s ∧ tracked w s' a).
Proof.
  intros Hs. unfold tracked. rewrite Hs. destruct (decide (s' = s)) as [->|Hne].
  - rewrite lookup_insert_eq. split.
    + intros (st & [= <-] & Hin). by left.
    + intros [[_ Hin]|[Hne _]]; [|done]. eexists. split; [done|]. done.
  - rewrite lookup_insert_ne by done. naive_solver.
Qed.

(** A strategy's list changed, the addresses in it did not. *)
Lemma heap_inv_relist w w' s st l' :
  heap_inv w → strategies w !! s = Some st →
  dom (blocks w') = dom (blocks w) →
  strategies w' = <[s := Strategy l']> (strategies w) →
  held l' = held (allocEls st) → heap_inv w' ∧ (no_leak w → no_leak w').
Proof.
  intros [H1 H3 H4] Hst Hd Hs Hheld.
  assert (∀ a, is_Some (blocks w' !! a) ↔ is_Some (blocks w !! a)) as Hb.
  { intros a. rewrite <- !elem_of_dom. by rewrite Hd. }
  assert (∀ s' a, tracked w' s' a ↔ tracked w s' a) as Ht.
  { intros s' a. rewrite (tracked_insert w w' s l') by done.
    rewrite <- elem_of_held, Hheld, elem_of_held. split.
    - intros [[-> Hin]|[_ Htr]]; [by exists st|done].
    - intros Htr. destruct (decide (s' = s)) as [->|Hne]; [|by right].
      left. split; [done|]. destruct Htr as (st0 & Hst0 & Hin). by simplify_eq. }
  split; [split|].
  - intros s' a Htr. apply Hb. eapply H1. by apply Ht.
  - intros s' st' Hst'. rewrite Hs in Hst'. destruct (decide (s' = s)) as [->|Hne].
    + rewrite lookup_insert_eq in Hst'. simplify_eq. fields. rewrite Hheld. eauto.
    + rewrite lookup_insert_ne in Hst' by done. eauto.
  - intros s1 s2 a Ht1 Ht2. apply (H4 s1 s2 a); by apply Ht.
  - intros H2 a Ha. destruct (H2 a) as [s' Htr]; [by apply Hb|]. exists s'. by apply Ht.
Qed.

(** A fresh block handed out by strategy [s]. *)
Lemma heap_inv_alloc w s st b av :
  heap_inv w → strategies w !! s = Some st →
  let w' := World (<[fresh (dom (blocks w)) := b]> (blocks w)) av
    (<[s := Strategy (allocEls st ++ [Some (fresh (dom (blocks w)))])]> (strategies w))
    (deques w) in
  heap_inv w' ∧ (no_leak w → no_leak w').
Proof.
  intros [H1 H3 H4] Hst. cbv zeta.
  pose proof (fresh_block_None w) as Hfresh.
  set (x := fresh (dom (blocks w))) in *.
  assert (∀ s', ¬ tracked w s' x) as Hx.
  { intros s' Htr. destruct (H1 _ _ Htr) as [b' Hb']. congruence. }
  set (w' := World _ _ _ _).
  assert (∀ s' a, tracked w' s' a ↔ tracked w s' a ∨ (s' = s ∧ a = x)) as Ht.
  { intros s' a.
    rewrite (tracked_insert w w' s (allocEls st ++ [Some x])) by done. split.
    - intros [[-> Hin]|[Hne Htr]]; [|by left].
      apply elem_of_app in Hin as [Hin|Hin]; [left; by exists st|].
      right. apply list_elem_of_singleton in Hin. by simplify_eq.
    - intros [Htr|[-> ->]].
      + destruct (decide (s' = s)) as [->|Hne]; [|by right].
        left. split; [done|]. destruct Htr as (st0 & Hst0 & Hin). simplify_eq.
        apply elem_of_app. by left.
      + left. split; [done|]. apply elem_of_app. right.
        by apply list_elem_of_singleton. }
  split; [split|].
  - intros s' a Htr. apply Ht in Htr as [Htr|[-> ->]]; subst w'; fields.
    + apply lookup_insert_is_Some'. right. by eapply H1.
    + rewrite lookup_insert_eq. eauto.
  - intros s' st' Hst'. subst w'. fields in Hst'.
    destruct (decide (s' = s)) as [->|Hne].
    + rewrite lookup_insert_eq in Hst'. simplify_eq. fields.
      rewrite held_app. apply NoDup_app. split_and!; [by eapply H3| |].
      * intros a Ha Hax. apply list_elem_of_singleton in Hax as ->.
        apply (Hx s). exists st. split; [done|]. by apply elem_of_held.
      * apply NoDup_singleton.
    + rewrite lookup_insert_ne in Hst' by done. by eapply H3.
  - intros s1 s2 a Ht1 Ht2. apply Ht in Ht1, Ht2.
    destruct Ht1 as [Ht1|[-> ->]], Ht2 as [Ht2|[-> Hax]].
    + by eapply H4.
    + subst. by destruct (Hx s1).
    + by destruct (Hx s2).
    + done.
  - intros H2 a Ha. subst w'. fields in Ha.
    apply lookup_insert_is_Some' in Ha as [<-|Ha].
    + exists s. apply Ht. by right.
    + destruct (H2 a Ha) as [s' Htr]. exists s'. apply Ht. by left.
Qed.

(** A fresh block that no strategy recorded. *)
Lemma heap_inv_leak w b av :
  heap_inv w →
  heap_inv (with_blocks <[fresh (dom (blocks w)) := b]> (with_avail av w)).
Proof.
  intros [H1 H3 H4]. split.
  - intros s a Htr. fields. apply lookup_insert_is_Some'. right. by eapply H1.
  - done.
  - done.
Qed.

Lemma preserves_strategy_alloc s n : preserves (strategy_alloc s n).
Proof.
  intros w H. destruct (strategies w !! s) as [st|] eqn:Hst.
  - destruct (decide (sizeof_entry ≤ avail w)%N) as [Hroom|Hroom];
      destruct (decide (n ≤ avail w)%N) as [Hn|Hn].
    + rewrite (strategy_alloc_Val _ _ _ _ Hst Hroom Hn). by apply heap_inv_alloc.
    + rewrite (strategy_alloc_null _ _ _ _ Hst Hroom) by lia.
      eapply heap_inv_relist; [done|done|done|done|].
      rewrite held_app. simpl. by rewrite app_nil_r.
    + rewrite (strategy_alloc_leak _ _ _ _ Hst) by (done || lia).
      split; [by apply heap_inv_leak|done].
    + rewrite (strategy_alloc_throws _ _ _ _ Hst) by lia. by split.
  - unfold strategy_alloc, bind, get_strategy. by rewrite Hst.
Qed.

(** The first entry equal to [p] is erased; [p] is a live block or null. *)
Lemma heap_inv_dealloc w w' s st p :
  heap_inv w → strategies w !! s = Some st → p ∈ allocEls st →
  blocks w' = match p with Some a => delete a (blocks w) | None => blocks w end →
  strategies w' = <[s := Strategy (erase p (allocEls st))]> (strategies w) →
  heap_inv w' ∧ (no_leak w → no_leak w').
Proof.
  intros H Hst Hin Hb Hs.
  destruct (erase_split p _ Hin) as (l1 & l2 & Hl & Hl1 & Herase).
  rewrite Herase in Hs. destruct p as [a|].
  - destruct H as [H1 H3 H4].
    pose proof (H3 _ _ Hst) as Hnd. rewrite Hl, held_app in Hnd.
    change (held (Some a :: l2)) with (a :: held l2) in Hnd.
    apply NoDup_app in Hnd as (Hnd1 & Hdisj & Hnd2).
    apply NoDup_cons in Hnd2 as [Ha2 Hnd2].
    assert (a ∉ held l1) as Ha1 by (intros Hin1; apply (Hdisj a Hin1); by left).
    assert (∀ s' a', tracked w' s' a' ↔ tracked w s' a' ∧ a' ≠ a) as Ht.
    { intros s' a'. rewrite (tracked_insert w w' s (l1 ++ l2)) by done.
      rewrite <- elem_of_held, held_app, elem_of_app. split.
      - intros [[-> Hin']|[Hne Htr]].
        + split; [|intros ->; by destruct Hin'].
          exists st. split; [done|]. apply elem_of_held.
          rewrite Hl, held_app. change (held (Some a :: l2)) with (a :: held l2).
          rewrite elem_of_app, elem_of_cons. tauto.
        + split; [done|]. intros ->. apply Hne. apply (H4 s' s a); [done|].
          by exists st.
      - intros [Htr Hne]. destruct (decide (s' = s)) as [->|Hns]; [|by right].
        left. split; [done|]. destruct Htr as (st0 & Hst0 & Hin0). simplify_eq.
        apply elem_of_held in Hin0. rewrite Hl, held_app in Hin0.
        change (held (Some a :: l2)) with (a :: held l2) in Hin0.
        rewrite elem_of_app, elem_of_cons in Hin0. tauto. }
    split; [split|].
    + intros s' a' Htr. apply Ht in Htr as [Htr Hne]. rewrite Hb.
      apply lookup_delete_is_Some. split; [done|]. by eapply H1.
    + intros s' st' Hst'. rewrite Hs in Hst'. destruct (decide (s' = s)) as [->|Hns].
      * rewrite lookup_insert_eq in Hst'. simplify_eq. fields.
        rewrite held_app. apply NoDup_app. split_and!; [done| |done].
        intros y Hy1 Hy2. apply (Hdisj y Hy1). by right.
      * rewrite lookup_insert_ne in Hst' by done. by eapply H3.
    + intros s1 s2 a' Ht1 Ht2. apply Ht in Ht1 as [Ht1 _], Ht2 as [Ht2 _].
      by eapply H4.
    + intros H2 a' Ha'. rewrite Hb in Ha'.
      apply lookup_delete_is_Some in Ha' as [Hne Ha'].
      destruct (H2 a' Ha') as [s' Htr]. exists s'. apply Ht. by split.
  - eapply heap_inv_relist; [done|done|by rewrite Hb|done|].
    by rewrite Hl, !held_app.
Qed.

Lemma preserves_strategy_dealloc s p : preserves (strategy_dealloc s p).
Proof.
  intros w H. destruct (strategies w !! s) as [st|] eqn:Hst.
  - destruct (decide (p ∈ allocEls st)) as [Hin|Hin].
    + destruct p as [a|].
      * destruct (hi_live _ H s a) as [b Hb]; [by exists st|].
        rewrite (strategy_dealloc_tracked _ _ _ _ _ Hst Hin Hb).
        by eapply (heap_inv_dealloc w _ s st (Some a)).
      * unfold strategy_dealloc.
        erewrite bind_Val; [|by apply get_strategy_Val|reflexivity].
        destruct (list_find_tracked _ _ Hin) as [i Hi]. rewrite Hi.
        erewrite bind_Val; [|reflexivity|reflexivity].
        eapply (heap_inv_dealloc w _ s st None); [done|done|done|done|].
        unfold erase. by rewrite Hi.
    + rewrite (strategy_dealloc_untracked _ _ _ _ Hst Hin). by split.
  - unfold strategy_dealloc, bind, get_strategy. by rewrite Hst.
Qed.

Lemma preserves_make_strategy : preserves make_strategy.
Proof.
  intros w [H1 H3 H4]. unfold make_strategy.
  assert (strategies w !! fresh (dom (strategies w)) = None) as Hfresh.
  { apply not_elem_of_dom, is_fresh. }
  set (s := fresh (dom (strategies w))) in *.
  assert (∀ s' a, tracked (with_strategies <[s := Strategy []]> w) s' a ↔ tracked w s' a)
    as Ht.
  { intros s' a. rewrite (tracked_insert w _ s []) by done. split.
    - intros [[_ Hin]|[_ Htr]]; [by apply elem_of_nil in Hin|done].
    - intros Htr. right. split; [|done]. intros ->.
      destruct Htr as (st & Hst & _). congruence. }
  split; [split|].
  - intros s' a Htr. fields. eapply H1. by apply Ht.
  - intros s' st' Hst'. fields in Hst'. destruct (decide (s' = s)) as [->|Hne].
    + rewrite lookup_insert_eq in Hst'. simplify_eq. apply NoDup_nil_2.
    + rewrite lookup_insert_ne in Hst' by done. by eapply H3.
  - intros s1 s2 a Ht1 Ht2. apply (H4 s1 s2 a); by apply Ht.
  - intros H2 a Ha. destruct (H2 a Ha) as [s' Htr]. exists s'. by apply Ht.
Qed.

(** *** [~stupid_strategy_t] *)

Lemma free_all_spec l : ∀ w,
  NoDup (held l) → (∀ a, Some a ∈ l → is_Some (blocks w !! a)) →
  ∃ w', free_all l w = Val tt w' ∧
    (∀ a, Some a ∈ l → blocks w' !! a = None) ∧
    (∀ a, Some a ∉ l → blocks w' !! a = blocks w !! a) ∧
    strategies w' = strategies w ∧ deques w' = deques w ∧
    (avail w ≤ avail w')%N.
Proof.
  induction l as [|el l IH]; intros w Hnd Hlive.
  - exists w. split_and!; try done. intros a Ha. by apply elem_of_nil in Ha.
  - destruct el as [a|].
    + change (held (Some a :: l)) with (a :: held l) in Hnd.
      apply NoDup_cons in Hnd as [Ha Hnd].
      destruct (Hlive a) as [b Hb]; [by left|].
      destruct (IH (with_blocks (delete a) (with_avail (avail w + bsize b) w)))
        as (w' & Hrun & Hgone & Hkept & Hs & Hd & Hav); [done| |].
      { intros a' Ha'. fields. apply lookup_delete_is_Some. split.
        - intros <-. by apply Ha, elem_of_held.
        - apply Hlive. by right. }
      exists w'. split_and!; try done.
      * simpl. eapply bind_Val; [|exact Hrun]. unfold free. by rewrite Hb.
      * intros a' Ha'. apply elem_of_cons in Ha' as [[= ->]|Ha']; [|by apply Hgone].
        rewrite Hkept by (by rewrite <- elem_of_held). fields.
        by rewrite lookup_delete_eq.
      * intros a' Ha'. rewrite Hkept by (intros Hin; apply Ha'; by right).
        fields. apply lookup_delete_ne. intros <-. apply Ha'. by left.
      * fields in Hav. lia.
    + destruct (IH w) as (w' & Hrun & Hgone & Hkept & Hs & Hd & Hav); [done| |].
      { intros a Ha. apply Hlive. by right. }
      exists w'. split_and!; try done.
      * intros a Ha. apply elem_of_cons in Ha as [[=]|Ha]. by apply Hgone.
      * intros a Ha. apply Hkept. intros Hin. apply Ha. by right.
Qed.

Lemma strategy_dtor_spec w s st :
  heap_inv w → strategies w !! s = Some st →
  ∃ w', strategy_dtor s w = Val tt w' ∧
    (∀ a, Some a ∈ allocEls st → blocks w' !! a = None) ∧
    (∀ a, Some a ∉ allocEls st → blocks w' !! a = blocks w !! a) ∧
    strategies w' = delete s (strategies w) ∧ deques w' = deques w ∧
    (avail w ≤ avail w')%N ∧
    heap_inv w' ∧ (no_leak w → no_leak w').
Proof.
  intros H Hst. pose proof H as [H1 H3 H4].
  destruct (free_all_spec (allocEls st) w)
    as (w1 & Hrun & Hgone & Hkept & Hs & Hd & Hav); [by eapply H3| |].
  { intros a Ha. apply (H1 s). by exists st. }
  assert (∀ s' a, tracked (with_strategies (delete s) w1) s' a ↔
                  tracked w s' a ∧ s' ≠ s) as Ht.
  { intros s' a. unfold tracked. fields. rewrite Hs. split.
    - intros (st' & Hst' & Hin). apply lookup_delete_Some in Hst' as [Hne Hst'].
      split; [by exists st'|done].
    - intros [(st' & Hst' & Hin) Hne]. exists st'. split; [|done].
      by rewrite lookup_delete_ne. }
  exists (with_strategies (delete s) w1). split_and!; try done.
  - unfold strategy_dtor.
    step ltac:(by apply get_strategy_Val).
    eapply bind_Val; [exact Hrun|done].
  - fields. by rewrite Hs.
  - split.
    + intros s' a Htr. apply Ht in Htr as [Htr Hne]. fields.
      rewrite Hkept; [by eapply H1|].
      intros Hin. apply Hne. apply (H4 s' s a); [done|by exists st].
    + intros s' st' Hst'. fields in Hst'. rewrite Hs in Hst'.
      apply lookup_delete_Some in Hst' as [_ Hst']. by eapply H3.
    + intros s1 s2 a Ht1 Ht2. apply Ht in Ht1 as [Ht1 _], Ht2 as [Ht2 _].
      by eapply H4.
  - intros H2 a Ha. fields in Ha.
    destruct (decide (Some a ∈ allocEls st)) as [Hin|Hin].
    { rewrite (Hgone a Hin) in Ha. by destruct Ha. }
    rewrite (Hkept a Hin) in Ha. destruct (H2 a Ha) as [s' Htr].
    exists s'. apply Ht. split; [done|]. intros ->.
    destruct Htr as (st' & Hst' & Hin'). by simplify_eq.
Qed.

Lemma preserves_strategy_dtor s : preserves (strategy_dtor s).
Proof.
  intros w H. destruct (strategies w !! s) as [st|] eqn:Hst.
  - destruct (strategy_dtor_spec w s st H Hst) as (w' & -> & _ & _ & _ & _ & _ & H').
    exact H'.
  - unfold strategy_dtor, bind, get_strategy. by rewrite Hst.
Qed.

(** *** The typed allocator and the deque *)

Create HintDb pres.

#[local] Hint Resolve preserves_ret preserves_throw preserves_fault preserves_timeout
  preserves_fuel preserves_load preserves_get_deque preserves_get_strategy
  preserves_strategy_of preserves_with_deques preserves_new_deque preserves_update
  preserves_construct preserves_destroy preserves_bind_ref preserves_bind_args
  preserves_strategy_alloc preserves_strategy_dealloc preserves_make_strategy
  preserves_strategy_dtor : pres.

(** Through the binds and the case distinctions of a definition. *)
Ltac pres :=
  repeat first
    [ solve [eauto with pres]
    | apply preserves_bind; [|intros ?]
    | match goal with
      | |- preserves (match ?x with _ => _ end) => destruct x
      | |- preserves (let _ := _ in _) => cbv zeta
      end ].

Lemma preserves_put_deque this f : preserves (put_deque this f).
Proof. unfold put_deque. pres. Qed.

Lemma preserves_set_start this p : preserves (set_start this p).
Proof. apply preserves_put_deque. Qed.

Lemma preserves_set_tail this p : preserves (set_tail this p).
Proof. apply preserves_put_deque. Qed.

Lemma preserves_set_allocator this a : preserves (set_allocator this a).
Proof. apply preserves_put_deque. Qed.

Lemma preserves_eval_ctor args : preserves (eval_ctor args).
Proof. unfold eval_ctor. pres. Qed.

#[local] Hint Resolve preserves_put_deque preserves_set_start preserves_set_tail
  preserves_set_allocator preserves_eval_ctor : pres.

Lemma preserves_alloc a args : preserves (alloc a args).
Proof. unfold alloc. pres. Qed.

Lemma preserves_dealloc a p : preserves (dealloc a p).
Proof. unfold dealloc. pres. Qed.

#[local] Hint Resolve preserves_alloc preserves_dealloc : pres.

Lemma preserves_FreeList_loop n : ∀ a nd, preserves (FreeList_loop n a nd).
Proof.
  induction n as [|n IH]; intros a [x|]; simpl; pres.
Qed.

#[local] Hint Resolve preserves_FreeList_loop : pres.

Lemma preserves_FreeList begin a : preserves (FreeList begin a).
Proof. unfold FreeList. pres. Qed.

Lemma preserves_CopyList_loop n : ∀ a nd pv, preserves (CopyList_loop n a nd pv).
Proof.
  induction n as [|n IH]; intros a [x|] pv; simpl; pres.
Qed.

#[local] Hint Resolve preserves_FreeList preserves_CopyList_loop : pres.

Lemma preserves_CopyList this p : preserves (CopyList this p).
Proof. unfold CopyList. pres. Qed.

Lemma preserves_print_loop n : ∀ nd, preserves (print_loop n nd).
Proof. induction n as [|n IH]; intros [x|]; simpl; pres. Qed.

Lemma preserves_ref_get r : preserves (ref_get r).
Proof. unfold ref_get. pres. Qed.

Lemma preserves_iter_deref it : preserves (iter_deref it).
Proof. unfold iter_deref. pres. Qed.

Lemma preserves_iter_preinc it : preserves (iter_preinc it).
Proof. unfold iter_preinc. pres. Qed.

#[local] Hint Resolve preserves_CopyList preserves_print_loop preserves_ref_get
  preserves_iter_deref preserves_iter_preinc : pres.

Lemma preserves_iterate_loop n : ∀ it last, preserves (iterate_loop n it last).
Proof.
  induction n as [|n IH]; intros it last; simpl; destruct (iter_ne it last); pres.
Qed.

#[local] Hint Resolve preserves_iterate_loop : pres.

Lemma preserves_deque_ctor s : preserves (deque_ctor s).
Proof. unfold deque_ctor. pres. Qed.

Lemma preserves_exec c : preserves (exec c).
Proof.
  destruct c; simpl;
    unfold deque_ctor, copy_ctor, copy_ctor_with, move_ctor, copy_assign, Copy,
      move_assign, deque_dtor, PushBack, PushFront, PopBack, PopFront, IsEmpty,
      Clear, ChangeAllocator, print, iterate, begin, end_, ref_set, iter_postinc;
    pres.
Qed.


(** ** What a call leaves alone *)

Section keeps.
Context (R : relation world) `{!Reflexive R, !Transitive R}.

Lemma keeps_ret {A} (a : A) : keeps R (ret a).
Proof. intros w. simpl. reflexivity. Qed.

Lemma keeps_throw {A} msg : keeps R (@throw A msg).
Proof. intros w. simpl. reflexivity. Qed.

Lemma keeps_throw_bad_alloc {A} : keeps R (@throw_bad_alloc A).
Proof. intros w. simpl. reflexivity. Qed.

Lemma keeps_fault {A} : keeps R (@fault A).
Proof. by intros w. Qed.

Lemma keeps_timeout {A} : keeps R (@timeout A).
Proof. by intros w. Qed.

Lemma keeps_bind {A B} (m : M A) (k : A → M B) :
  keeps R m → (∀ a, keeps R (k a)) → keeps R (bind m k).
Proof.
  intros Hm Hk w. unfold bind. specialize (Hm w).
  destruct (m w) as [a w1|e w1| |]; try done.
  specialize (Hk a w1). destruct (k a w1); try done; by etrans.
Qed.

Lemma keeps_fuel : keeps R fuel.
Proof. intros w. simpl. reflexivity. Qed.

Lemma keeps_load p : keeps R (load p).
Proof.
  intros w. unfold load. destruct p as [a|]; [|done].
  destruct (blocks w !! a ≫= peek); [reflexivity|done].
Qed.

Lemma keeps_get_deque this : keeps R (get_deque this).
Proof. intros w. unfold get_deque. destruct (deques w !! this); [reflexivity|done]. Qed.

Lemma keeps_get_strategy s : keeps R (get_strategy s).
Proof.
  intros w. unfold get_strategy. destruct (strategies w !! s); [reflexivity|done].
Qed.

Lemma keeps_strategy_of a : keeps R (strategy_of a).
Proof. destruct a as [[s|]]; [apply keeps_ret|apply keeps_fault]. Qed.

Lemma keeps_list_node_room : keeps R list_node_room.
Proof. intros w. simpl. reflexivity. Qed.

Lemma keeps_bind_ref p : keeps R (bind_ref p).
Proof.
  intros w. unfold bind_ref. destruct p as [a|]; [|done].
  destruct (blocks w !! a); [reflexivity|done].
Qed.

Lemma keeps_bind_args args : keeps R (bind_args args).
Proof. destruct args; simpl; first [apply keeps_bind_ref|apply keeps_ret]. Qed.
End keeps.

Create HintDb keeps.

#[local] Hint Resolve keeps_ret keeps_throw keeps_throw_bad_alloc keeps_fault
  keeps_timeout keeps_fuel keeps_load keeps_get_deque keeps_get_strategy
  keeps_strategy_of keeps_list_node_room keeps_bind_ref keeps_bind_args : keeps.

Ltac keeps :=
  repeat first
    [ solve [eauto with keeps typeclass_instances]
    | apply keeps_bind; [try exact _ ..|intros ?]
    | match goal with
      | |- keeps _ (match ?x with _ => _ end) => destruct x
      | |- keeps _ (let _ := _ in _) => cbv zeta
      end ].

#[local] Instance same_deques_refl : Reflexive same_deques.
Proof. by intros w. Qed.

#[local] Instance same_deques_trans : Transitive same_deques.
Proof. intros w1 w2 w3 H1 H2. unfold same_deques in *. congruence. Qed.

#[local] Instance unchanged_refl : Reflexive unchanged.
Proof. by intros w. Qed.

#[local] Instance unchanged_trans : Transitive unchanged.
Proof. intros w1 w2 w3 H1 H2. unfold unchanged in *. congruence. Qed.

Lemma same_deques_with_blocks f : keeps same_deques (modify (with_blocks f)).
Proof. by intros w. Qed.

Lemma same_deques_update p f : keeps same_deques (update p f).
Proof.
  intros w. unfold update. destruct p as [a|]; [|done].
  by destruct (blocks w !! a ≫= poke f).
Qed.

Lemma same_deques_construct p n : keeps same_deques (construct p n).
Proof.
  intros w. unfold construct. destruct p as [a|]; [|done].
  by destruct (blocks w !! a).
Qed.

Lemma same_deques_destroy p : keeps same_deques (destroy p).
Proof.
  intros w. unfold destroy. destruct p as [a|]; [|done].
  destruct (blocks w !! a) as [b|]; [|done]. by destruct (peek b).
Qed.

Lemma same_deques_malloc n : keeps same_deques (malloc n).
Proof. intros w. unfold malloc. by destruct (n <=? avail w)%N. Qed.

Lemma same_deques_free p : keeps same_deques (free p).
Proof.
  intros w. unfold free. destruct p as [a|]; [|done]. by destruct (blocks w !! a).
Qed.

Lemma same_deques_put_strategy s st : keeps same_deques (put_strategy s st).
Proof. by intros w. Qed.

#[local] Hint Resolve same_deques_update same_deques_construct same_deques_destroy
  same_deques_malloc same_deques_free same_deques_put_strategy : keeps.

Lemma same_deques_strategy_alloc s n : keeps same_deques (strategy_alloc s n).
Proof. unfold strategy_alloc. keeps. Qed.

Lemma same_deques_strategy_dealloc s p : keeps same_deques (strategy_dealloc s p).
Proof. unfold strategy_dealloc. keeps. Qed.

Lemma same_deques_eval_ctor args : keeps same_deques (eval_ctor args).
Proof. unfold eval_ctor. keeps. Qed.

#[local] Hint Resolve same_deques_strategy_alloc same_deques_strategy_dealloc
  same_deques_eval_ctor : keeps.

Lemma same_deques_alloc a args : keeps same_deques (alloc a args).
Proof. unfold alloc. keeps. Qed.

Lemma same_deques_dealloc a p : keeps same_deques (dealloc a p).
Proof. unfold dealloc. keeps. Qed.

#[local] Hint Resolve same_deques_alloc same_deques_dealloc : keeps.

Lemma same_deques_FreeList_loop n : ∀ a nd, keeps same_deques (FreeList_loop n a nd).
Proof. induction n as [|n IH]; intros a [x|]; simpl; keeps. Qed.

#[local] Hint Resolve same_deques_FreeList_loop : keeps.

Lemma same_deques_FreeList begin a : keeps same_deques (FreeList begin a).
Proof. unfold FreeList. keeps. Qed.

(** ** Assignment of a deque to itself by move *)

(** One read or write of a deque object whose value is at hand. *)
Ltac dq :=
  first [ step ltac:(apply get_deque_Val; lookup)
        | step ltac:(unfold set_start, set_tail, set_allocator;
                     eapply put_deque_Val; lookup) ];
  fields.

(** The last write of a deque object in a sequence of them. *)
Ltac dq_last :=
  unfold set_start, set_tail, set_allocator;
  erewrite put_deque_Val by lookup;
  unfold with_deques; fields; rewrite ?insert_insert_eq; try done.

Lemma bind_Timeout {A B} (m : M A) (k : A → M B) w :
  m w = Timeout → bind m k w = Timeout.
Proof. unfold bind. by intros ->. Qed.

Lemma get_deque_None this w : deques w !! this = None → get_deque this w = Fault.
Proof. unfold get_deque. by intros ->. Qed.

(** Two sequences that begin with the same call and agree after it. *)
Lemma bind_ext {A B} (m : M A) (k1 k2 : A → M B) w :
  (∀ a w', m w = Val a w' → k1 a w' = k2 a w') → bind m k1 w = bind m k2 w.
Proof. intros H. unfold bind. destruct (m w); try done. by apply H. Qed.

(** X6.  Move assignment of a deque to itself, [d = std::move(d)], does
    what [Clear] does, on every store: the nodes are released, [start] and
    [tail] are null, and the deque keeps its strategy (the [shared_ptr] move
    assignment gives the handle back to the object it took it from). *)
Theorem self_move_assign_is_Clear w this :
  move_assign this this w = Clear this w.
Proof.
  unfold move_assign, Clear.
  apply bind_ext. intros d w0 Hget.
  assert (w0 = w ∧ deques w !! this = Some d) as [-> Hd].
  { unfold get_deque in Hget. destruct (deques w !! this); by simplify_eq. }
  apply bind_ext. intros [] w1 HF.
  pose proof (same_deques_FreeList (start d) (allocator d) w) as Hsame.
  rewrite HF in Hsame. unfold same_deques in Hsame. rewrite <- Hsame in Hd.
  transitivity (Val tt (with_deques <[this := Deque None None (allocator d)]> w1)).
  - do 8 dq. dq_last.
  - symmetry. dq. dq_last.
Qed.

(** ** Copying under the strategy of the source *)

Lemma get_deque_inv this w d w' :
  get_deque this w = Val d w' → w' = w ∧ deques w !! this = Some d.
Proof. unfold get_deque. destruct (deques w !! this); by intros [= <- <-]. Qed.

(** X13.  Given the strategy the source is bound to, [Copy] does what
    [operator=] does and the copying constructor with a strategy does what
    the plain copying constructor does, on every store (also when the
    source is the destination). *)
Theorem copy_with_the_strategy_of_the_source w this lhs l s :
  deques w !! lhs = Some l → allocator l = Allocator (Some s) →
  Copy this lhs s w = copy_assign this lhs w ∧
  copy_ctor_with lhs s w = copy_ctor lhs w.
Proof.
  intros Hl Hal. split.
  - unfold Copy, copy_assign.
    apply bind_ext. intros d w0 [-> Hd]%get_deque_inv.
    apply bind_ext. intros [] w1 HF.
    pose proof (same_deques_FreeList (start d) (allocator d) w) as Hsame.
    rewrite HF in Hsame. unfold same_deques in Hsame.
    symmetry. step ltac:(apply get_deque_Val; by rewrite Hsame).
    by rewrite Hal.
  - unfold copy_ctor_with, copy_ctor.
    symmetry. step ltac:(by apply get_deque_Val).
    rewrite Hal.
    apply bind_ext. intros this' w1 _.
    apply bind_ext. intros l' w2 _.
    destruct (start l') as [a|]; [done|].
    simpl. by rewrite bind_assoc.
Qed.

(** ** The earlier revision *)

(** X10.  The copying constructors and [operator=] of the earlier revision,
    which test for an empty source before they call a [CopyList] that does
    not, do what those of the later revision do, on every store. *)
Theorem copying_agrees_across_revisions w this lhs s :
  copy_ctor_rev1 lhs w = copy_ctor lhs w ∧
  copy_ctor_with_rev1 lhs s w = copy_ctor_with lhs s w ∧
  copy_assign_rev1 this lhs w = copy_assign this lhs w.
Proof.
  split_and!.
  - unfold copy_ctor_rev1, copy_ctor.
    apply bind_ext. intros l w1 _.
    apply bind_ext. intros this' w2 _.
    apply bind_ext. intros l' w3 _.
    by destruct (start l').
  - unfold copy_ctor_with_rev1, copy_ctor_with.
    apply bind_ext. intros this' w1 _.
    apply bind_ext. intros l' w2 _.
    destruct (start l') as [a|]; [done|].
    simpl. by rewrite bind_assoc.
  - unfold copy_assign_rev1, copy_assign.
    apply bind_ext. intros d w1 _.
    apply bind_ext. intros [] w2 _.
    apply bind_ext. intros l w3 _.
    apply bind_ext. intros [] w4 _.
    apply bind_ext. intros l' w5 _.
    by destruct (start l').
Qed.

(** [alloc( *p )] with a null [p]. *)
Lemma alloc_CopyNode_null a w : alloc a (CopyNode None) w = Fault.
Proof. unfold alloc. by apply bind_Fault. Qed.

(** X9.  In the earlier revision [ChangeAllocator] on an empty deque calls
    [CopyList] with the null [begin], which reads through it: undefined
    behaviour, on every store and for every strategy. *)
Theorem ChangeAllocator_rev1_empty_faults w this d s :
  deques w !! this = Some d → start d = None →
  ChangeAllocator_rev1 this s w = Fault.
Proof.
  intros Hd Hstart. unfold ChangeAllocator_rev1.
  dq. dq. dq. rewrite Hstart.
  apply bind_Fault. unfold CopyList_rev1.
  step ltac:(reflexivity). dq.
  apply bind_Fault. apply alloc_CopyNode_null.
Qed.

(** ** Reading a deque *)

Lemma load_cases p w : load p w = Fault ∨ ∃ n, load p w = Val n w.
Proof.
  unfold load. destruct p as [a|]; [|by left].
  destruct (blocks w !! a ≫= peek); eauto.
Qed.

Lemma iterate_loop_print_loop n : ∀ nd w,
  iterate_loop n (Iterator nd) (Iterator None) w = print_loop n nd w.
Proof.
  induction n as [|n IH]; intros [a|] w; try done.
  change (iterate_loop (S n) (Iterator (Some a)) (Iterator None) w)
    with ((r <~ ret a ;;
           v <~ ref_get r ;;
           it' <~ iter_preinc (Iterator (Some a)) ;;
           rest <~ iterate_loop n it' (Iterator None) ;;
           ret (v :: rest)) w).
  change (print_loop (S n) (Some a) w)
    with ((cur <~ load (Some a) ;;
           rest <~ print_loop n (next cur) ;;
           ret (data cur :: rest)) w).
  step ltac:(reflexivity).
  destruct (load_cases (Some a) w) as [E|[cur E]].
  - rewrite (bind_Fault (load (Some a))) by done.
    apply bind_Fault. unfold ref_get. by apply bind_Fault.
  - step ltac:(unfold ref_get; eapply bind_Val; [exact E|reflexivity]).
    step ltac:(unfold iter_preinc; simpl; eapply bind_Val; [exact E|reflexivity]).
    symmetry. step ltac:(exact E). symmetry.
    unfold bind. by rewrite IH.
Qed.

Lemma unchanged_print_loop n : ∀ nd, keeps unchanged (print_loop n nd).
Proof. induction n as [|n IH]; intros [x|]; simpl; keeps. Qed.

(** X11.  Walking a deque from [begin()] to [end()] with [operator*] and
    [operator++] reads what [operator<<] writes, front to back, on every
    store (well-formed or not), and neither writes anything to the store. *)
Theorem iterate_agrees_with_print w this :
  iterate this w = print this w ∧
  (∀ l w', print this w = Val l w' → w' = w).
Proof.
  split.
  - unfold iterate, print, begin, end_.
    apply bind_ext. intros n w1 _.
    rewrite bind_assoc. apply bind_ext. intros d w2 _.
    simpl. unfold bind at 1 2. simpl. apply iterate_loop_print_loop.
  - intros l w' Hp.
    assert (keeps unchanged (print this)) as Hk.
    { unfold print. pose proof unchanged_print_loop. keeps. }
    specialize (Hk w). by rewrite Hp in Hk.
Qed.

(** ** Copying a deque onto itself with [Copy] *)

(** [alloc( *p )] with [p] released. *)
Lemma alloc_CopyNode_freed a h w :
  blocks w !! h = None → alloc a (CopyNode (Some h)) w = Fault.
Proof.
  intros Hh. unfold alloc. apply bind_Fault. simpl. unfold bind_ref. by rewrite Hh.
Qed.

Lemma CopyList_released w this d h :
  deques w !! this = Some d → blocks w !! h = None →
  CopyList this (Some h) w = Fault.
Proof.
  intros Hd Hh. unfold CopyList.
  step ltac:(reflexivity). dq.
  apply bind_Fault. by apply alloc_CopyNode_freed.
Qed.

(** X12.  [d.Copy(d, strategy)] on a deque that holds a value releases the
    nodes of [d] and then copies from the released first node: undefined
    behaviour, whatever the strategy given. *)
Theorem self_Copy_faults w this s x ls v vs s' :
  is_deque w this s (x :: ls) (v :: vs) →
  Copy this this s' w = Fault.
Proof.
  intros Hdq. pose proof (dq_obj _ _ _ _ _ Hdq) as Hobj.
  destruct (FreeList_spec _ _ _ _ _ Hdq) as (w1 & st1 & HF & Hd & Hgone & _).
  assert (deques w1 !! this = deques w !! this) as Hobj1 by (by rewrite Hd).
  rewrite Hobj in Hobj1.
  unfold Copy. dq. step ltac:(exact HF). dq. dq.
  eapply CopyList_released; [lookup|]. fields. apply Hgone. by left.
Qed.

(** ** The typed allocator is as tolerant as the strategy *)

Lemma tracked_once (l : list ptr) (x : loc) :
  NoDup (held l) → Some x ∉ erase (Some x) l.
Proof.
  intros Hnd Hin.
  assert (Some x ∈ l) as Hx by (by eapply elem_of_erase).
  destruct (erase_split _ _ Hx) as (l1 & l2 & Hl & Hl1 & Herase).
  rewrite Hl, held_app in Hnd. change (held (Some x :: l2)) with (x :: held l2) in Hnd.
  apply NoDup_app in Hnd as (_ & Hdisj & Hnd2). apply NoDup_cons in Hnd2 as [Hx2 _].
  rewrite Herase in Hin. apply elem_of_app in Hin as [Hin|Hin].
  - by apply Hl1.
  - by apply Hx2, elem_of_held.
Qed.

(** X14.  [single_allocator_t::dealloc] runs the destructor of the node,
    which is trivial, and then asks the strategy.  With the null pointer,
    and with a node it has released already, the call therefore comes down
    to the lookup of the strategy, which finds no entry: it returns and
    leaves the store as it was.  Nothing is released twice. *)
Theorem typed_dealloc_is_tolerant w a s st x b n :
  heap_inv w →
  allocStrategy a = Some s → strategies w !! s = Some st →
  None ∉ allocEls st →
  Some x ∈ allocEls st → blocks w !! x = Some b → peek b = Some n →
  dealloc a None w = Val tt w ∧
  ∃ w', dealloc a (Some x) w = Val tt w' ∧ blocks w' !! x = None ∧
        dealloc a (Some x) w' = Val tt w'.
Proof.
  intros H Ha Hst Hnull Hin Hb Hp. split.
  - unfold dealloc. step ltac:(reflexivity).
    step ltac:(unfold strategy_of; by rewrite Ha).
    by apply (strategy_dealloc_untracked _ st).
  - eexists. split_and!.
    + by eapply dealloc_Val.
    + fields. by rewrite lookup_delete_eq.
    + unfold dealloc.
      step ltac:(unfold destroy; fields; by rewrite lookup_delete_eq).
      step ltac:(unfold strategy_of; by rewrite Ha).
      eapply strategy_dealloc_untracked; [fields; by rewrite lookup_insert_eq|].
      fields. apply tracked_once. by eapply hi_once.
Qed.

(** ** Empty and moved-from deques *)

Lemma with_deques_id this d w :
  deques w !! this = Some d → with_deques <[this := d]> w = w.
Proof.
  intros H. destruct w as [b a s ds]. unfold with_deques. simpl in *.
  by rewrite insert_id.
Qed.

Lemma is_deque_empty w this s :
  deques w !! this = Some (Deque None None (Allocator (Some s))) →
  is_Some (strategies w !! s) → is_deque w this s [] [].
Proof.
  intros Hd [st Hst]. split; [done|apply is_list_nil|].
  exists st. split; [done|]. intros a Ha. by apply elem_of_nil in Ha.
Qed.

Lemma ChangeAllocator_null_start w this d s2 :
  deques w !! this = Some d → start d = None →
  ChangeAllocator this s2 w =
    Val tt (with_deques <[this := Deque None None (Allocator (Some s2))]> w).
Proof.
  intros Hd Hstart. unfold ChangeAllocator.
  dq. dq. dq. rewrite Hstart. dq. dq_last.
Qed.

(** X8.  [ChangeAllocator] on a deque whose [start] is null (an empty deque,
    or one that was moved from) allocates and releases nothing: it binds
    the deque to the new strategy and leaves it empty and well-formed, so
    that the next push takes its node from the new strategy. *)
Theorem ChangeAllocator_of_an_empty_deque w this d s2 v :
  deques w !! this = Some d → start d = None →
  is_Some (strategies w !! s2) → (sizeof_node ≤ avail w)%N →
  ∃ w', ChangeAllocator this s2 w = Val tt w' ∧
    blocks w' = blocks w ∧ avail w' = avail w ∧ strategies w' = strategies w ∧
    (∀ d', d' ≠ this → deques w' !! d' = deques w !! d') ∧
    is_deque w' this s2 [] [] ∧
    ∃ w'', PushBack this v w' = Val tt w'' ∧
      is_deque w'' this s2 [fresh (dom (blocks w))] [v].
Proof.
  intros Hd Hstart Hs2 Hmem.
  eexists. split; [by eapply ChangeAllocator_null_start|].
  assert (is_deque (with_deques <[this := Deque None None (Allocator (Some s2))]> w)
            this s2 [] []) as Hdq.
  { apply is_deque_empty; [lookup|done]. }
  split_and!; try done.
  - intros d' Hne. fields. by rewrite lookup_insert_ne.
  - destruct (PushBack_spec _ _ _ _ _ v Hdq) as (w'' & Hpush & Hdq' & _); [done|].
    eauto.
Qed.

(** X7.  The deque a move constructor took its nodes from has null [start]
    and [tail] and an empty strategy handle.  It prints as empty and its
    pops throw "Empty list"; [Clear] leaves it as it is; a push dereferences
    the empty handle, which is undefined behaviour; [ChangeAllocator] gives
    it a strategy again and makes it a well-formed empty deque; its
    destructor releases nothing.  The deque that was moved to keeps what it
    took through both. *)
Theorem moved_from_deque w rhs s ls vs v s2 :
  is_deque w rhs s ls vs → is_Some (strategies w !! s2) →
  ∃ w' this, move_ctor rhs w = Val this w' ∧
    print rhs w' = Val [] w' ∧
    PopBack rhs w' = Throw (Exception "Empty list") w' ∧
    PopFront rhs w' = Throw (Exception "Empty list") w' ∧
    Clear rhs w' = Val tt w' ∧
    PushBack rhs v w' = Fault ∧
    PushFront rhs v w' = Fault ∧
    (∃ w'', ChangeAllocator rhs s2 w' = Val tt w'' ∧
       is_deque w'' rhs s2 [] [] ∧ is_deque w'' this s ls vs) ∧
    (∃ w'', deque_dtor rhs w' = Val tt w'' ∧
       blocks w'' = blocks w ∧ is_deque w'' this s ls vs).
Proof.
  intros Hdq Hs2.
  destruct (move_ctor_spec _ _ _ _ _ Hdq)
    as (w' & this & Hrun & Hnew & Hdq' & Hrhs & _ & Hb & Hs).
  assert (rhs ≠ this) as Hne.
  { intros ->. rewrite (dq_obj _ _ _ _ _ Hdq) in Hnew. done. }
  exists w', this. split_and!; try done.
  - unfold print. step ltac:(reflexivity). dq. by destruct (size (blocks w')).
  - by eapply PopBack_empty.
  - by eapply PopFront_empty.
  - unfold Clear. dq. step ltac:(reflexivity). dq.
    unfold set_tail. erewrite put_deque_Val by lookup.
    unfold with_deques at 1. fields. rewrite insert_insert_eq.
    f_equal. by apply with_deques_id.
  - unfold PushBack. dq. by apply bind_Fault.
  - unfold PushFront. dq. by apply bind_Fault.
  - eexists. split; [by eapply ChangeAllocator_null_start|]. split.
    + apply is_deque_empty; [lookup|]. fields. by rewrite Hs.
    + by apply is_deque_other_object.
  - exists (with_deques (delete rhs) w'). split_and!.
    + unfold deque_dtor. dq. eapply bind_Val; [|done].
      unfold FreeList. by step ltac:(reflexivity).
    + done.
    + eapply (is_deque_ext w'); [|done|eauto|done].
      fields. by rewrite lookup_delete_ne.
Qed.

(** ** [Clear] *)

(** X18.  [Clear] on a well-formed deque releases every node of it and
    nothing else, and leaves it well-formed, empty and bound to its
    strategy: [IsEmpty] answers true, the pops throw "Empty list", and a
    second [Clear] changes nothing. *)
Theorem Clear_contract w this s ls vs :
  is_deque w this s ls vs →
  ∃ w', Clear this w = Val tt w' ∧
    is_deque w' this s [] [] ∧
    (∀ x, x ∈ ls → blocks w' !! x = None) ∧
    unchanged_outside ls this w w' ∧
    IsEmpty this w' = Val true w' ∧
    PopBack this w' = Throw (Exception "Empty list") w' ∧
    PopFront this w' = Throw (Exception "Empty list") w' ∧
    Clear this w' = Val tt w'.
Proof.
  intros Hdq.
  destruct (Clear_spec _ _ _ _ _ Hdq) as (w' & Hrun & Hdq' & Hgone & _ & Hout).
  pose proof (dq_obj _ _ _ _ _ Hdq') as Hobj. simpl in Hobj.
  exists w'. split_and!; try done.
  - by rewrite (IsEmpty_Val _ _ _ Hobj).
  - by eapply PopBack_empty.
  - by eapply PopFront_empty.
  - unfold Clear. dq. step ltac:(reflexivity). dq.
    unfold set_tail. erewrite put_deque_Val by lookup.
    unfold with_deques at 1. fields. rewrite insert_insert_eq.
    f_equal. by apply with_deques_id.
Qed.

(** ** [IsEmpty] and the iterators at the ends *)

(** X15.  After any sequence of pushes and pops on a well-formed deque,
    [IsEmpty] answers true exactly when the sequence of values that the
    sequence model is left with is empty, and [begin() == end()] gives the
    same answer. *)
Theorem IsEmpty_reflects_the_contents w this s ls vs ops outs vs' :
  is_deque w this s ls vs → seq_ops ops vs = Some (outs, vs') →
  (N.of_nat (pushes ops) * sizeof_node ≤ avail w)%N →
  ∃ w', run_ops this ops w = Val outs w' ∧
    IsEmpty this w' = Val (match vs' with [] => true | _ => false end) w' ∧
    (it <~ begin this ;; last <~ end_ this ;; ret (iter_eq it last)) w' =
      IsEmpty this w'.
Proof.
  intros Hdq Hseq Hmem.
  destruct (run_ops_spec _ _ _ _ _ _ _ _ Hdq Hseq Hmem) as (w' & ls' & Hrun & Hdq').
  pose proof (dq_obj _ _ _ _ _ Hdq') as Hobj.
  pose proof (il_length _ _ _ (dq_list _ _ _ _ _ Hdq')) as Hlen.
  exists w'. split_and!; [done| |].
  - rewrite (IsEmpty_Val _ _ _ Hobj). fields.
    destruct ls', vs'; simpl in *; done.
  - rewrite (IsEmpty_Val _ _ _ Hobj).
    step ltac:(unfold begin; eapply bind_Val; [by apply get_deque_Val|reflexivity]).
    step ltac:(reflexivity). unfold ret, iter_eq. fields.
    f_equal. by apply bool_decide_ext.
Qed.

(** ** [~deque_t] *)

(** X3.  The destructor of a well-formed deque releases every node of it
    through its strategy and ends the object; no other block and no other
    deque object is written, and every other well-formed deque that shares
    no node with it, on the same strategy or on another, stays
    well-formed. *)
Theorem deque_dtor_contract w this s ls vs :
  is_deque w this s ls vs →
  ∃ w', deque_dtor this w = Val tt w' ∧
    deques w' = delete this (deques w) ∧
    (∀ x, x ∈ ls → blocks w' !! x = None) ∧
    (∀ x, x ∉ ls → blocks w' !! x = blocks w !! x) ∧
    (avail w ≤ avail w')%N ∧
    (∀ d sd lsd vsd, d ≠ this → is_deque w d sd lsd vsd →
       (∀ a, a ∈ lsd → a ∉ ls) → is_deque w' d sd lsd vsd).
Proof.
  intros Hdq. pose proof (dq_obj _ _ _ _ _ Hdq) as Hobj.
  destruct (dq_owns _ _ _ _ _ Hdq) as (st & Hst & Hown).
  destruct (FreeList_spec _ _ _ _ _ Hdq)
    as (w1 & st1 & HF & Hd & Hgone & Hkept & Hav & Hs & Htr).
  exists (with_deques (delete this) w1). split_and!; try done.
  - unfold deque_dtor. dq. by step ltac:(exact HF).
  - fields. by rewrite Hd.
  - intros d sd lsd vsd Hne Hother Hdisj.
    eapply (is_deque_ext w); [| | |done].
    + fields. rewrite lookup_delete_ne by done. by rewrite Hd.
    + intros a Ha. fields. apply Hkept. by apply Hdisj.
    + intros st0 Hst0. fields. rewrite Hs.
      destruct (decide (sd = s)) as [->|Hns].
      * rewrite lookup_insert_eq. eexists. split; [done|].
        intros a Ha Hin. apply (Htr st0 Hst0); [|done].
        intros Hfm. apply list_elem_of_fmap in Hfm as (a' & [= <-] & Ha').
        by apply (Hdisj a).
      * rewrite lookup_insert_ne by done. eauto.
Qed.

(** ** Round trips *)

Lemma app_snoc_unique (p : ptr) (l l1 l2 : list ptr) :
  l ++ [p] = l1 ++ p :: l2 → p ∉ l → l1 = l ∧ l2 = [].
Proof.
  revert l1. induction l as [|a l IH]; intros l1 Heq Hp.
  - destruct l1 as [|b l1]; simpl in Heq; [by simplify_eq|].
    injection Heq as -> Heq. by destruct l1.
  - destruct l1 as [|b l1]; simpl in Heq.
    + injection Heq as -> _. exfalso. apply Hp. by left.
    + injection Heq as -> Heq. destruct (IH l1 Heq) as [-> ->]; [|done].
      intros Hin. apply Hp. by right.
Qed.

Lemma erase_snoc (p : ptr) (l : list ptr) : p ∉ l → erase p (l ++ [p]) = l.
Proof.
  intros Hp. destruct (erase_split p (l ++ [p])) as (l1 & l2 & Heq & _ & ->).
  { apply elem_of_app. right. by left. }
  destruct (app_snoc_unique _ _ _ _ Heq Hp) as [-> ->]. by rewrite app_nil_r.
Qed.

Lemma strategy_dealloc_null_tracked s st w :
  strategies w !! s = Some st → None ∈ allocEls st →
  strategy_dealloc s None w =
    Val tt (with_strategies <[s := Strategy (erase None (allocEls st))]> w).
Proof.
  intros Hs Hin. unfold strategy_dealloc, erase.
  step ltac:(by apply get_strategy_Val).
  destruct (list_find_tracked _ _ Hin) as [i ->].
  by eapply bind_Val.
Qed.

(** The store after a block was obtained from [s] and given back. *)
Lemma world_restored w x b s st av :
  blocks w !! x = None → strategies w !! s = Some st → av = avail w →
  Some x ∉ allocEls st →
  World (delete x (<[x := b]> (blocks w))) av
    (<[s := Strategy (erase (Some x) (allocEls st ++ [Some x]))]>
       (<[s := Strategy (allocEls st ++ [Some x])]> (strategies w)))
    (deques w) = w.
Proof.
  intros Hx Hs -> Hin. destruct w as [bl a ss ds]. simpl in *.
  rewrite delete_insert_id by done. rewrite insert_insert_eq.
  rewrite erase_snoc by done. destruct st as [l]. simpl.
  by rewrite insert_id.
Qed.

Lemma fresh_untracked w st :
  (∀ x, Some x ∈ allocEls st → is_Some (blocks w !! x)) →
  Some (fresh (dom (blocks w))) ∉ allocEls st.
Proof.
  intros Hlive Hin. destruct (Hlive _ Hin) as [b Hb].
  by rewrite fresh_block_None in Hb.
Qed.

(** X5.  A block obtained from a strategy and given straight back leaves
    the store exactly as it was: the heap, the bytes available and the
    tracking list; so does a node built by the typed allocator and released
    again.  When [malloc] fails the strategy records the null pointer and
    [dealloc] of it takes the record out again. *)
Theorem alloc_dealloc_round_trip w a s st n v pr nx :
  allocStrategy a = Some s → strategies w !! s = Some st →
  (∀ x, Some x ∈ allocEls st → is_Some (blocks w !! x)) →
  ((avail w < n)%N → None ∉ allocEls st) →
  (sizeof_node ≤ avail w)%N →
  (p <~ strategy_alloc s n ;; strategy_dealloc s p) w = Val tt w ∧
  (p <~ alloc a (ByValue v pr nx) ;; dealloc a p) w = Val tt w.
Proof.
  intros Ha Hs Hlive Hnull Hmem.
  pose proof (fresh_untracked _ _ Hlive) as Hnew.
  pose proof (fresh_block_None w) as Hfresh.
  split.
  - destruct (decide (n ≤ avail w)%N) as [Hn|Hn].
    + step ltac:(by apply strategy_alloc_Val).
      erewrite strategy_dealloc_tracked; [|lookup|fields; sets|lookup].
      fields. f_equal. apply world_restored; [done|done| |done].
      fields. lia.
    + step ltac:(apply strategy_alloc_null; [done|done|lia]).
      erewrite strategy_dealloc_null_tracked; [|lookup|fields; sets].
      f_equal. unfold with_strategies. fields. rewrite insert_insert_eq.
      rewrite erase_snoc by (apply Hnull; lia).
      destruct w as [bl av ss ds], st as [l]. simpl in *. by rewrite insert_id.
  - step ltac:(by eapply alloc_Val).
    erewrite dealloc_Val; [|done|lookup|fields; sets|lookup|done].
    fields. f_equal. apply world_restored; [done|done| |done].
    fields. lia.
Qed.

Lemma world_eq w bl av ss ds :
  bl = blocks w → av = avail w → ss = strategies w → ds = deques w →
  World bl av ss ds = w.
Proof. intros -> -> -> ->. by destruct w. Qed.

(** Equality of two heaps written as inserts and deletes, key by key. *)
Ltac heap_eq :=
  apply map_eq; intros ?;
  repeat first [rewrite lookup_insert | rewrite lookup_delete | case_decide];
  simplify_eq; try done.

Lemma strategies_restored (ss : gmap sid stupid_strategy_t) s st x :
  ss !! s = Some st → Some x ∉ allocEls st →
  <[s := Strategy (erase (Some x) (allocEls st ++ [Some x]))]>
    (<[s := Strategy (allocEls st ++ [Some x])]> ss) = ss.
Proof.
  intros Hs Hx. rewrite insert_insert_eq, erase_snoc by done.
  destruct st as [l]. by rewrite insert_id.
Qed.

Lemma push_pop_back w this s st ls vs v :
  is_deque w this s ls vs → strategies w !! s = Some st →
  (∀ a, Some a ∈ allocEls st → is_Some (blocks w !! a)) →
  (sizeof_node ≤ avail w)%N →
  (PushBack this v ;;; PopBack this) w = Val v w.
Proof.
  intros [Hobj Hlist (st' & Hst' & Hown)] Hst Hlive Hmem. simplify_eq.
  pose proof (fresh_untracked _ _ Hlive) as Huntr.
  pose proof (fresh_block_None w) as Hfresh.
  set (x := fresh (dom (blocks w))) in *.
  assert (∀ a b, blocks w !! a = Some b → x ≠ a) as Hnew.
  { intros a b Hb <-. rewrite Hfresh in Hb. done. }
  destruct ls as [|t l0 _] using rev_ind.
  - (* the empty deque *)
    simpl in Hobj.
    eapply bind_Val.
    { unfold PushBack.
      step ltac:(by apply get_deque_Val).
      step ltac:(by eapply alloc_Val).
      unfold set_tail.
      step ltac:(by eapply put_deque_Val).
      step ltac:(apply get_deque_Val; lookup).
      fields. unfold set_start. eapply put_deque_Val. lookup. }
    cbv beta. unfold PopBack.
    step ltac:(apply get_deque_Val; lookup). fields.
    step ltac:(eapply load_Val; [lookup|done]). fields.
    step ltac:(eapply update_Val; lookup).
    step ltac:(eapply dealloc_Val; [done|lookup|fields; sets|lookup|done]).
    unfold set_tail.
    step ltac:(eapply put_deque_Val; lookup).
    eapply bind_Val; [unfold set_start; eapply put_deque_Val; lookup|].
    unfold ret. f_equal. unfold with_deques, with_blocks. fields.
    apply world_eq.
    + fold x. heap_eq.
    + lia.
    + by apply strategies_restored.
    + rewrite !insert_insert_eq. by rewrite insert_id.
  - (* a deque with last node [t] *)
    pose proof (il_length _ _ _ Hlist) as Hlen.
    destruct vs as [|vt v0 _] using rev_ind.
    { rewrite length_app in Hlen. simpl in Hlen. lia. }
    destruct (is_list_last _ _ _ _ _ Hlist) as [szt Hbt].
    rewrite last_snoc in Hobj.
    assert (is_Some (head (l0 ++ [t]))) as [h Hh].
    { destruct l0; simpl; eauto. }
    rewrite Hh in Hobj.
    assert (x ≠ t) as Hxt by (by eapply Hnew).
    eapply bind_Val.
    { unfold PushBack.
      step ltac:(by apply get_deque_Val).
      step ltac:(by eapply alloc_Val).
      unfold set_tail.
      step ltac:(by eapply put_deque_Val).
      step ltac:(apply get_deque_Val; lookup).
      fields.
      step ltac:(eapply load_Val; [lookup|done]).
      fields. eapply update_Val. fields.
      rewrite lookup_insert_ne; [done|done]. }
    cbv beta. unfold PopBack.
    step ltac:(apply get_deque_Val; lookup). fields.
    step ltac:(eapply load_Val;
      [fields; rewrite lookup_insert_ne by done; by rewrite lookup_insert_eq|done]).
    fields.
    step ltac:(eapply update_Val; fields;
      rewrite lookup_insert_ne by done; by rewrite lookup_insert_eq).
    step ltac:(eapply dealloc_Val; [done|lookup|fields; sets|lookup|done]).
    unfold set_tail.
    step ltac:(eapply put_deque_Val; lookup).
    eapply bind_Val.
    { eapply update_Val. fields. rewrite lookup_delete_ne by done.
      rewrite lookup_insert_ne by done. by rewrite lookup_insert_eq. }
    unfold ret. f_equal. unfold with_deques, with_blocks. fields.
    apply world_eq.
    + fold x. heap_eq.
    + lia.
    + by apply strategies_restored.
    + rewrite !insert_insert_eq. by rewrite insert_id.
Qed.

Lemma push_pop_front w this s st ls vs v :
  is_deque w this s ls vs → strategies w !! s = Some st →
  (∀ a, Some a ∈ allocEls st → is_Some (blocks w !! a)) →
  (sizeof_node ≤ avail w)%N →
  (PushFront this v ;;; PopFront this) w = Val v w.
Proof.
  intros [Hobj Hlist (st' & Hst' & Hown)] Hst Hlive Hmem. simplify_eq.
  pose proof (fresh_untracked _ _ Hlive) as Huntr.
  pose proof (fresh_block_None w) as Hfresh.
  set (x := fresh (dom (blocks w))) in *.
  assert (∀ a b, blocks w !! a = Some b → x ≠ a) as Hnew.
  { intros a b Hb <-. rewrite Hfresh in Hb. done. }
  destruct ls as [|h l0].
  - (* the empty deque *)
    simpl in Hobj.
    eapply bind_Val.
    { unfold PushFront.
      step ltac:(by apply get_deque_Val).
      step ltac:(by eapply alloc_Val).
      unfold set_start.
      step ltac:(by eapply put_deque_Val).
      step ltac:(apply get_deque_Val; lookup).
      fields. unfold set_tail. eapply put_deque_Val. lookup. }
    cbv beta. unfold PopFront.
    step ltac:(apply get_deque_Val; lookup). fields.
    step ltac:(eapply load_Val; [lookup|done]). fields.
    step ltac:(eapply update_Val; lookup).
    step ltac:(eapply dealloc_Val; [done|lookup|fields; sets|lookup|done]).
    unfold set_start.
    step ltac:(eapply put_deque_Val; lookup).
    eapply bind_Val; [unfold set_tail; eapply put_deque_Val; lookup|].
    unfold ret. f_equal. unfold with_deques, with_blocks. fields.
    apply world_eq.
    + fold x. heap_eq.
    + lia.
    + by apply strategies_restored.
    + rewrite !insert_insert_eq. by rewrite insert_id.
  - (* a deque with first node [h] *)
    pose proof (il_length _ _ _ Hlist) as Hlen.
    destruct vs as [|vh v0]; [done|].
    destruct (is_list_head _ _ _ _ _ Hlist) as [szh Hbh].
    assert (is_Some (last (h :: l0))) as [t Hlast].
    { rewrite last_lookup. apply lookup_lt_is_Some_2. simpl. lia. }
    rewrite Hlast in Hobj. simpl in Hobj.
    assert (x ≠ h) as Hxh by (by eapply Hnew).
    eapply bind_Val.
    { unfold PushFront.
      step ltac:(by apply get_deque_Val).
      step ltac:(by eapply alloc_Val).
      unfold set_start.
      step ltac:(by eapply put_deque_Val).
      step ltac:(apply get_deque_Val; lookup).
      fields.
      step ltac:(eapply load_Val; [lookup|done]).
      fields. eapply update_Val. fields.
      rewrite lookup_insert_ne; [done|done]. }
    cbv beta. unfold PopFront.
    step ltac:(apply get_deque_Val; lookup). fields.
    step ltac:(eapply load_Val;
      [fields; rewrite lookup_insert_ne by done; by rewrite lookup_insert_eq|done]).
    fields.
    step ltac:(eapply update_Val; fields;
      rewrite lookup_insert_ne by done; by rewrite lookup_insert_eq).
    step ltac:(eapply dealloc_Val; [done|lookup|fields; sets|lookup|done]).
    unfold set_start.
    step ltac:(eapply put_deque_Val; lookup).
    eapply bind_Val.
    { eapply update_Val. fields. rewrite lookup_delete_ne by done.
      rewrite lookup_insert_ne by done. by rewrite lookup_insert_eq. }
    unfold ret. f_equal. unfold with_deques, with_blocks. fields.
    apply world_eq.
    + fold x. heap_eq.
    + lia.
    + by apply strategies_restored.
    + rewrite !insert_insert_eq. by rewrite insert_id.
Qed.

(** X4.  On a well-formed deque whose strategy tracks live blocks only, a
    push followed by a pop at the same end returns the value pushed and
    leaves the whole store exactly as it was: the nodes and their links,
    the heap, the bytes available, the tracking list and the deque object. *)
Theorem push_pop_round_trip w this s st ls vs v :
  is_deque w this s ls vs → strategies w !! s = Some st →
  (∀ a, Some a ∈ allocEls st → is_Some (blocks w !! a)) →
  (sizeof_node ≤ avail w)%N →
  (PushBack this v ;;; PopBack this) w = Val v w ∧
  (PushFront this v ;;; PopFront this) w = Val v w.
Proof.
  intros Hdq Hst Hlive Hmem. split.
  - by eapply push_pop_back.
  - by eapply push_pop_front.
Qed.

(** ** The bookkeeping over whole histories *)

Lemma heap_inv_empty n : heap_inv (World ∅ n ∅ ∅).
Proof.
  split.
  - intros s a (st & Hst & _). fields in Hst. by rewrite lookup_empty in Hst.
  - intros s st Hst. fields in Hst. by rewrite lookup_empty in Hst.
  - intros s1 s2 a (st & Hst & _). fields in Hst. by rewrite lookup_empty in Hst.
Qed.

Lemma no_leak_empty n : no_leak (World ∅ n ∅ ∅).
Proof. intros a [b Hb]. fields in Hb. by rewrite lookup_empty in Hb. Qed.

Lemma exec_all_heap_inv cs : ∀ w w',
  heap_inv w → exec_all cs w = Val tt w' → heap_inv w'.
Proof.
  induction cs as [|c cs IH]; intros w w' H Hrun; simpl in Hrun.
  - by injection Hrun as <-.
  - unfold bind, catch in Hrun. pose proof (preserves_exec c w H) as Hp.
    destruct (exec c w) as [u w1|e w1| |]; try done;
      destruct Hp as [H1 _]; by eapply IH.
Qed.

Lemma exec_log_kept cs : ∀ w log w',
  heap_inv w → exec_log cs w = Val log w' →
  heap_inv w' ∧ (bad_alloc ∉ log → no_leak w → no_leak w').
Proof.
  induction cs as [|c cs IH]; intros w log w' H Hrun; simpl in Hrun.
  - injection Hrun as <- <-. by split.
  - unfold bind, attempt in Hrun. pose proof (preserves_exec c w H) as Hp.
    destruct (exec c w) as [u w1|e w1| |]; try done; destruct Hp as [H1 Hl1];
      destruct (exec_log cs w1) as [later w2|? ?| |] eqn:E; try done;
      injection Hrun as <- <-; destruct (IH _ _ _ H1 E) as [H2 Hl2];
      (split; [done|]); intros Hlog Hl.
    + apply Hl2; [done|by apply Hl1].
    + apply not_elem_of_cons in Hlog as [He Hlog].
      apply Hl2; [done|]. apply Hl1; [by intros ->|done].
Qed.

(** X1.  Start from the empty store and let a client make any calls, in
    any order, on strategies, typed allocators, deques and iterators,
    catching what they throw.  Whenever the calls all come back, every
    block a strategy tracks is live, and it is tracked by one strategy,
    once in its list: no block can be released twice.  If none of the calls
    threw [std::bad_alloc], every live block is tracked as well; hence once
    the last strategy object is gone, no block is left on the heap.  (An
    [alloc] of a strategy that ends in [std::bad_alloc] may leave behind the
    block it had obtained.) *)
Theorem bookkeeping_invariant cs n log w' :
  exec_log cs (World ∅ n ∅ ∅) = Val log w' →
  heap_inv w' ∧
  (bad_alloc ∉ log → no_leak w' ∧ (strategies w' = ∅ → blocks w' = ∅)).
Proof.
  intros Hrun.
  destruct (exec_log_kept _ _ _ _ (heap_inv_empty n) Hrun) as [H Hl].
  split; [done|]. intros Hlog.
  assert (no_leak w') as Hnl by (apply Hl; [done|apply no_leak_empty]).
  split; [done|]. intros Hs. apply map_eq. intros a. rewrite lookup_empty.
  destruct (blocks w' !! a) as [b|] eqn:Hb; [|done].
  destruct (Hnl a) as (s & st & Hst & _); [by eexists|].
  rewrite Hs in Hst. by rewrite lookup_empty in Hst.
Qed.

(** X2.  After any such history the destructor of a strategy comes back:
    each block it tracks is live and is released, once; no other block, no
    other strategy and no deque object is written. *)
Theorem strategy_dtor_releases_what_it_tracks cs n w s st :
  exec_all cs (World ∅ n ∅ ∅) = Val tt w → strategies w !! s = Some st →
  ∃ w', strategy_dtor s w = Val tt w' ∧
    (∀ a, Some a ∈ allocEls st → is_Some (blocks w !! a) ∧ blocks w' !! a = None) ∧
    (∀ a, Some a ∉ allocEls st → blocks w' !! a = blocks w !! a) ∧
    strategies w' = delete s (strategies w) ∧ deques w' = deques w.
Proof.
  intros Hrun Hst.
  pose proof (exec_all_heap_inv _ _ _ (heap_inv_empty n) Hrun) as H.
  destruct (strategy_dtor_spec w s st H Hst)
    as (w' & Hd & Hgone & Hkept & Hs & Hdq & _ & _).
  exists w'. split_and!; try done.
  intros a Ha. split; [|by apply Hgone]. apply (hi_live _ H s). by exists st.
Qed.

(** ** [ChangeAllocator] and the death of the old strategy *)

Lemma ChangeAllocator_other_strategy w this s1 st1 s2 x ls v vs :
  is_deque w this s1 (x :: ls) (v :: vs) →
  strategies w !! s1 = Some st1 → s2 ≠ s1 → is_Some (strategies w !! s2) →
  (∀ a, Some a ∈ allocEls st1 → is_Some (blocks w !! a)) →
  (N.of_nat (length (x :: ls)) * sizeof_node ≤ avail w)%N →
  ∃ w' new, ChangeAllocator this s2 w = Val tt w' ∧
    deques w' !! this = Some (Deque (head new) (last new) (Allocator (Some s2))) ∧
    chain w' new (v :: vs) ∧ NoDup new ∧
    (∀ a, a ∈ new → blocks w !! a = None) ∧
    strategies w' !! s1 = Some st1 ∧
    (∀ a, a ∈ x :: ls → is_Some (blocks w' !! a)).
Proof.
  intros Hdq Hst1 Hne [st2 Hst2] Hlive Hmem.
  destruct (ChangeAllocator_rebuild w this s1 s2 st2 x ls v vs Hdq Hst2 Hmem)
    as (w6 & x0 & new & Hrun & Hlist & Hnone & Hd & Hs & Hold).
  assert (strategies w6 !! s1 = Some st1) as Hst1'.
  { rewrite Hs. by rewrite lookup_insert_ne. }
  pose proof (is_list_chain _ _ _ Hlist) as Hc.
  pose proof (il_NoDup _ _ _ Hlist) as Hnd.
  destruct (FreeList_loop_untracked (x0 :: new) (v :: vs) (S (size (blocks w6))) w6
              (Allocator (Some s1)) s1 st1)
    as (w7 & Hfree & Hd7 & Hs7 & Hav7 & Hkept & Hdead & Hc7); [done..| | |].
  { intros a Ha Htr. destruct (Hlive a Htr) as [b Hb]. by rewrite (Hnone a Ha) in Hb. }
  { assert (length (x0 :: new) ≤ size (blocks w6)); [|lia].
    apply length_le_size; [done|]. intros a Ha. by eapply chain_live. }
  exists w7, (x0 :: new). split_and!; try done.
  - by rewrite Hrun.
  - rewrite Hd7, Hd. by rewrite lookup_insert_eq.
  - by rewrite Hs7.
  - intros a Ha. rewrite Hkept; [by apply Hold|].
    intros Hin. destruct (is_list_block _ _ _ _ (dq_list _ _ _ _ _ Hdq) Ha)
      as (sz & n & Hb). by rewrite (Hnone a Hin) in Hb.
Qed.

(** X16.  The nodes that [ChangeAllocator] leaves with the old strategy are
    released when the old strategy object is destroyed: after
    [ChangeAllocator] to another strategy they are still allocated, after
    the destructor of the old strategy they are not, and the deque prints
    the same values as before from its new nodes. *)
Theorem old_nodes_go_with_the_old_strategy w this s1 st1 s2 x ls v vs :
  heap_inv w → is_deque w this s1 (x :: ls) (v :: vs) →
  strategies w !! s1 = Some st1 → s2 ≠ s1 → is_Some (strategies w !! s2) →
  (N.of_nat (length (x :: ls)) * sizeof_node ≤ avail w)%N →
  ∃ w' w'', ChangeAllocator this s2 w = Val tt w' ∧
    strategy_dtor s1 w' = Val tt w'' ∧
    (∀ a, a ∈ x :: ls → is_Some (blocks w' !! a) ∧ blocks w'' !! a = None) ∧
    print this w' = Val (v :: vs) w' ∧
    print this w'' = Val (v :: vs) w''.
Proof.
  intros H Hdq Hst1 Hne Hs2 Hmem.
  assert (∀ a, Some a ∈ allocEls st1 → is_Some (blocks w !! a)) as Hlive.
  { intros a Ha. apply (hi_live _ H s1). by exists st1. }
  destruct (ChangeAllocator_other_strategy _ _ _ _ _ _ _ _ _ Hdq Hst1 Hne Hs2 Hlive Hmem)
    as (w' & new & Hrun & Hobj & Hc & Hnd & Hnone & Hst1' & Hold).
  assert (heap_inv w') as H'.
  { pose proof (preserves_exec (CChangeAllocator this s2) w H) as Hp.
    simpl in Hp. rewrite Hrun in Hp. by destruct Hp. }
  destruct (strategy_dtor_spec w' s1 st1 H' Hst1')
    as (w'' & Hd & Hgone & Hkept & Hs & Hdq'' & _ & _).
  destruct (dq_owns _ _ _ _ _ Hdq) as (st & Hst & Hown). simplify_eq.
  assert (chain w'' new (v :: vs)) as Hc''.
  { eapply chain_frame; [|done]. intros a Ha. apply Hkept. intros Htr.
    destruct (Hlive a Htr) as [b Hb]. by rewrite (Hnone a Ha) in Hb. }
  assert (∀ w0, chain w0 new (v :: vs) →
            deques w0 !! this = Some (Deque (head new) (last new) (Allocator (Some s2))) →
            print this w0 = Val (v :: vs) w0) as Hprint.
  { intros w0 Hc0 Hobj0. unfold print.
    step ltac:(reflexivity). dq.
    apply (print_loop_spec new); [done|].
    assert (length new ≤ size (blocks w0)); [|lia].
    apply length_le_size; [done|]. intros a Ha. by eapply chain_live. }
  exists w', w''. split_and!; try done.
  - intros a Ha. split; [by apply Hold|]. apply Hgone. by apply Hown.
  - by apply Hprint.
  - apply Hprint; [done|]. by rewrite Hdq''.
Qed.

(** ** Iterators across changes of the deque *)

Lemma read_at w this s ls vs i a u :
  is_deque w this s ls vs → ls !! i = Some a → vs !! i = Some u →
  (r <~ iter_deref (Iterator (Some a)) ;; ref_get r) w = Val u w.
Proof.
  intros Hdq Ha Hu.
  destruct (il_nodes _ _ _ (dq_list _ _ _ _ _ Hdq) i a u Ha Hu) as [sz Hb].
  step ltac:(reflexivity). unfold ref_get.
  step ltac:(by eapply load_Val). done.
Qed.

Lemma read_released w a :
  blocks w !! a = None →
  (r <~ iter_deref (Iterator (Some a)) ;; ref_get r) w = Fault.
Proof.
  intros Hb. step ltac:(reflexivity). unfold ref_get.
  apply bind_Fault. by apply load_freed.
Qed.

Lemma finishes_Val {A} (m : M A) w a w1 w' :
  m w = Val a w1 → finishes m w w' → w' = w1.
Proof. intros Hm [[a' H]|[e H]]; rewrite Hm in H; by simplify_eq. Qed.

(** X17.  An iterator at a node of a well-formed deque outlives every push
    and every pop of another node: it still reads the value it read before.
    After the pop of its own node, and after [Clear], reading through it is
    a read of a released block. *)
Theorem iterator_validity w this s ls vs i a u m w' :
  is_deque w this s ls vs → ls !! i = Some a → vs !! i = Some u →
  (sizeof_node ≤ avail w)%N →
  finishes (mutate m this) w w' →
  (r <~ iter_deref (Iterator (Some a)) ;; ref_get r) w' =
    match m with
    | MPushBack _ => Val u w'
    | MPushFront _ => Val u w'
    | MPopBack => if decide (S i = length ls) then Fault else Val u w'
    | MPopFront => if decide (i = 0) then Fault else Val u w'
    | MClear => Fault
    end.
Proof.
  intros Hdq Ha Hu Hmem Hfin.
  pose proof (il_length _ _ _ (dq_list _ _ _ _ _ Hdq)) as Hlen.
  destruct m as [v|v| | |]; simpl in Hfin.
  - destruct (PushBack_spec _ _ _ _ _ v Hdq Hmem) as (w1 & Hrun & Hdq1 & _).
    apply (finishes_Val _ _ _ _ _ Hrun) in Hfin as ->.
    eapply read_at; [done| |].
    + by apply lookup_app_l_Some.
    + by apply lookup_app_l_Some.
  - destruct (PushFront_spec _ _ _ _ _ v Hdq Hmem) as (w1 & Hrun & Hdq1 & _).
    apply (finishes_Val _ _ _ _ _ Hrun) in Hfin as ->.
    by eapply (read_at _ _ _ _ _ (S i)).
  - destruct ls as [|z l0 _] using rev_ind; [done|].
    destruct vs as [|vz v0 _] using rev_ind.
    { rewrite length_app in Hlen. simpl in Hlen. lia. }
    rewrite !length_app in Hlen. simpl in Hlen.
    destruct (PopBack_spec _ _ _ _ _ _ _ Hdq) as (w1 & Hrun & Hdq1 & Hgone & _).
    assert ((PopBack this ;;; ret tt) w = Val tt w1) as Hrun'.
    { by eapply bind_Val. }
    apply (finishes_Val _ _ _ _ _ Hrun') in Hfin as ->.
    rewrite length_app. simpl. case_decide as Hi.
    + assert (i = length l0) as -> by lia.
      rewrite lookup_app_r, Nat.sub_diag in Ha by lia. simpl in Ha. simplify_eq.
      by apply read_released.
    + pose proof (lookup_lt_Some _ _ _ Ha) as Hlt.
      rewrite length_app in Hlt. simpl in Hlt.
      rewrite lookup_app_l in Ha by lia. rewrite lookup_app_l in Hu by lia.
      by eapply read_at.
  - destruct ls as [|x l0]; [done|]. destruct vs as [|vx v0]; [done|].
    destruct (PopFront_spec _ _ _ _ _ _ _ Hdq) as (w1 & Hrun & Hdq1 & Hgone & _).
    assert ((PopFront this ;;; ret tt) w = Val tt w1) as Hrun'.
    { by eapply bind_Val. }
    apply (finishes_Val _ _ _ _ _ Hrun') in Hfin as ->.
    case_decide as Hi.
    + subst i. simpl in Ha. simplify_eq. by apply read_released.
    + destruct i as [|j]; [done|]. simpl in Ha, Hu. by eapply read_at.
  - destruct (Clear_spec _ _ _ _ _ Hdq) as (w1 & Hrun & _ & Hgone & _).
    apply (finishes_Val _ _ _ _ _ Hrun) in Hfin as ->.
    apply read_released, Hgone. by eapply list_elem_of_lookup_2.
Qed.

(** ** The number of blocks a strategy has outstanding *)

Lemma PushBack_tracking w this s st ls vs v :
  is_deque w this s ls vs → strategies w !! s = Some st →
  (sizeof_node ≤ avail w)%N →
  ∃ w', PushBack this v w = Val tt w' ∧
    strategies w' =
      <[s := Strategy (allocEls st ++ [Some (fresh (dom (blocks w)))])]> (strategies w).
Proof.
  intros [Hobj Hlist _] Hst Hmem.
  pose proof (fresh_block_None w) as Hfresh.
  set (x := fresh (dom (blocks w))) in *.
  destruct ls as [|t l0 _] using rev_ind.
  - simpl in Hobj. eexists. split.
    + unfold PushBack.
      step ltac:(by apply get_deque_Val).
      step ltac:(by eapply alloc_Val).
      unfold set_tail.
      step ltac:(by eapply put_deque_Val).
      step ltac:(apply get_deque_Val; lookup).
      fields. unfold set_start. eapply put_deque_Val. lookup.
    + done.
  - pose proof (il_length _ _ _ Hlist) as Hlen.
    destruct vs as [|vt v0 _] using rev_ind.
    { rewrite length_app in Hlen. simpl in Hlen. lia. }
    destruct (is_list_last _ _ _ _ _ Hlist) as [szt Hbt].
    rewrite last_snoc in Hobj.
    assert (is_Some (head (l0 ++ [t]))) as [h Hh].
    { destruct l0; simpl; eauto. }
    rewrite Hh in Hobj.
    assert (x ≠ t) as Hxt by (intros ->; by rewrite Hfresh in Hbt).
    eexists. split.
    + unfold PushBack.
      step ltac:(by apply get_deque_Val).
      step ltac:(by eapply alloc_Val).
      unfold set_tail.
      step ltac:(by eapply put_deque_Val).
      step ltac:(apply get_deque_Val; lookup).
      fields.
      step ltac:(eapply load_Val; [lookup|done]).
      fields. eapply update_Val. fields.
      rewrite lookup_insert_ne; [done|done].
    + done.
Qed.

Lemma PushFront_tracking w this s st ls vs v :
  is_deque w this s ls vs → strategies w !! s = Some st →
  (sizeof_node ≤ avail w)%N →
  ∃ w', PushFront this v w = Val tt w' ∧
    strategies w' =
      <[s := Strategy (allocEls st ++ [Some (fresh (dom (blocks w)))])]> (strategies w).
Proof.
  intros [Hobj Hlist _] Hst Hmem.
  pose proof (fresh_block_None w) as Hfresh.
  set (x := fresh (dom (blocks w))) in *.
  destruct ls as [|h l0].
  - simpl in Hobj. eexists. split.
    + unfold PushFront.
      step ltac:(by apply get_deque_Val).
      step ltac:(by eapply alloc_Val).
      unfold set_start.
      step ltac:(by eapply put_deque_Val).
      step ltac:(apply get_deque_Val; lookup).
      fields. unfold set_tail. eapply put_deque_Val. lookup.
    + done.
  - pose proof (il_length _ _ _ Hlist) as Hlen.
    destruct vs as [|vh v0]; [done|].
    destruct (is_list_head _ _ _ _ _ Hlist) as [szh Hbh].
    assert (is_Some (last (h :: l0))) as [t Hlast].
    { rewrite last_lookup. apply lookup_lt_is_Some_2. simpl. lia. }
    rewrite Hlast in Hobj. simpl in Hobj.
    assert (x ≠ h) as Hxh by (intros ->; by rewrite Hfresh in Hbh).
    eexists. split.
    + unfold PushFront.
      step ltac:(by apply get_deque_Val).
      step ltac:(by eapply alloc_Val).
      unfold set_start.
      step ltac:(by eapply put_deque_Val).
      step ltac:(apply get_deque_Val; lookup).
      fields.
      step ltac:(eapply load_Val; [lookup|done]).
      fields. eapply update_Val. fields.
      rewrite lookup_insert_ne; [done|done].
    + done.
Qed.

Lemma PopBack_tracking w this s st ls vs x v :
  is_deque w this s (ls ++ [x]) (vs ++ [v]) → strategies w !! s = Some st →
  ∃ w', PopBack this w = Val v w' ∧
    strategies w' = <[s := Strategy (erase (Some x) (allocEls st))]> (strategies w).
Proof.
  intros [Hobj Hlist (st' & Hst' & Hown)] Hst. simplify_eq.
  rewrite last_snoc in Hobj.
  destruct (is_list_last _ _ _ _ _ Hlist) as [sz Hbx].
  pose proof (il_NoDup _ _ _ Hlist) as Hnd.
  apply NoDup_app in Hnd as (Hnd & Hx & _).
  assert (x ∉ ls) as Hxls by (intros Hin; apply (Hx x Hin); sets).
  assert (Some x ∈ allocEls st') as Htr by (apply Hown; sets).
  destruct (last ls) as [t|] eqn:Hlast.
  - assert (t ∈ ls) as Ht.
    { rewrite last_lookup in Hlast. by eapply list_elem_of_lookup_2. }
    assert (t ≠ x) as Htx by (by intros ->).
    destruct (is_list_block _ _ _ t Hlist) as (szt & nt & Hbt); [sets|].
    eexists. split.
    + unfold PopBack.
      step ltac:(by apply get_deque_Val). fields.
      step ltac:(by eapply load_Val). fields.
      step ltac:(by eapply update_Val).
      step ltac:(eapply dealloc_Val; [done|done|done|lookup|done]).
      unfold set_tail.
      step ltac:(by eapply put_deque_Val).
      eapply bind_Val; [|done].
      eapply update_Val. fields.
      rewrite lookup_delete_ne by done. by rewrite lookup_insert_ne.
    + done.
  - eexists. split.
    + unfold PopBack.
      step ltac:(by apply get_deque_Val). fields.
      step ltac:(by eapply load_Val). fields.
      step ltac:(by eapply update_Val).
      step ltac:(eapply dealloc_Val; [done|done|done|lookup|done]).
      unfold set_tail.
      step ltac:(by eapply put_deque_Val).
      eapply bind_Val; [|done].
      unfold set_start. eapply put_deque_Val. lookup.
    + done.
Qed.

Lemma PopFront_tracking w this s st ls vs x v :
  is_deque w this s (x :: ls) (v :: vs) → strategies w !! s = Some st →
  ∃ w', PopFront this w = Val v w' ∧
    strategies w' = <[s := Strategy (erase (Some x) (allocEls st))]> (strategies w).
Proof.
  intros [Hobj Hlist (st' & Hst' & Hown)] Hst. simplify_eq.
  simpl in Hobj.
  destruct (is_list_head _ _ _ _ _ Hlist) as [sz Hbx].
  pose proof (il_NoDup _ _ _ Hlist) as Hnd.
  apply NoDup_cons in Hnd as (Hxls & Hnd).
  assert (Some x ∈ allocEls st') as Htr by (apply Hown; sets).
  destruct ls as [|h l0].
  - simpl in Hobj. eexists. split.
    + unfold PopFront.
      step ltac:(by apply get_deque_Val). fields.
      step ltac:(by eapply load_Val). fields.
      step ltac:(by eapply update_Val).
      step ltac:(eapply dealloc_Val; [done|done|done|lookup|done]).
      unfold set_start.
      step ltac:(by eapply put_deque_Val).
      eapply bind_Val; [|done].
      unfold set_tail. eapply put_deque_Val. lookup.
    + done.
  - assert (h ≠ x) as Hhx by (intros ->; sets).
    destruct (is_list_block _ _ _ h Hlist) as (szh & nh & Hbh); [sets|].
    change (last (x :: h :: l0)) with (last (h :: l0)) in Hobj.
    eexists. split.
    + unfold PopFront.
      step ltac:(by apply get_deque_Val). fields.
      step ltac:(by eapply load_Val). fields.
      step ltac:(by eapply update_Val).
      step ltac:(eapply dealloc_Val; [done|done|done|lookup|done]).
      unfold set_start.
      step ltac:(by eapply put_deque_Val).
      eapply bind_Val; [|done].
      eapply update_Val. fields.
      rewrite lookup_delete_ne by done. by rewrite lookup_insert_ne.
    + done.
Qed.

Lemma length_erase (p : ptr) (l : list ptr) :
  p ∈ l → S (length (erase p l)) = length l.
Proof.
  intros Hin. destruct (erase_split p l Hin) as (l1 & l2 & -> & _ & ->).
  rewrite !length_app. simpl. lia.
Qed.

Lemma run_op_tracking w this s ls vs o out vs1 :
  is_deque w this s ls vs → seq_op o vs = Some (out, vs1) →
  (N.of_nat (pushes [o]) * sizeof_node ≤ avail w)%N →
  ∃ w1 ls1 k k1, run_op this o w = Val out w1 ∧ is_deque w1 this s ls1 vs1 ∧
    (avail w - N.of_nat (pushes [o]) * sizeof_node ≤ avail w1)%N ∧
    outstanding s w = Some k ∧ outstanding s w1 = Some k1 ∧
    k1 + length vs = k + length vs1.
Proof.
  intros Hdq Ho Hmem.
  destruct (dq_owns _ _ _ _ _ Hdq) as (st & Hst & Hown).
  unfold outstanding. rewrite Hst. simpl.
  destruct o as [v|v| |]; simpl in Ho; cbn [pushes] in Hmem.
  - simplify_eq.
    destruct (PushBack_spec _ _ _ _ _ v Hdq) as (w1 & Hrun & Hdq1 & Hav & _); [lia|].
    destruct (PushBack_tracking _ _ _ _ _ _ v Hdq Hst) as (w1' & Hrun' & Hs); [lia|].
    rewrite Hrun in Hrun'. simplify_eq.
    eexists w1', _, _, _. split_and!; [|exact Hdq1| |done| |].
    + unfold run_op. by step ltac:(exact Hrun).
    + cbn [pushes]. lia.
    + rewrite Hs, lookup_insert_eq. simpl. done.
    + rewrite !length_app. simpl. lia.
  - simplify_eq.
    destruct (PushFront_spec _ _ _ _ _ v Hdq) as (w1 & Hrun & Hdq1 & Hav & _); [lia|].
    destruct (PushFront_tracking _ _ _ _ _ _ v Hdq Hst) as (w1' & Hrun' & Hs); [lia|].
    rewrite Hrun in Hrun'. simplify_eq.
    eexists w1', _, _, _. split_and!; [|exact Hdq1| |done| |].
    + unfold run_op. by step ltac:(exact Hrun).
    + cbn [pushes]. lia.
    + rewrite Hs, lookup_insert_eq. simpl. done.
    + rewrite !length_app. simpl. lia.
  - destruct vs as [|v vs _] using rev_ind; [done|].
    rewrite reverse_snoc in Ho. rewrite reverse_involutive in Ho. simplify_eq.
    destruct ls as [|x ls _] using rev_ind.
    { destruct Hdq as [_ [Hl _ _] _]. rewrite length_app in Hl. simpl in Hl. lia. }
    destruct (PopBack_spec _ _ _ _ _ _ _ Hdq) as (w1 & Hrun & Hdq1 & _ & Hav & _).
    destruct (PopBack_tracking _ _ _ _ _ _ _ _ Hdq Hst) as (w1' & Hrun' & Hs).
    rewrite Hrun in Hrun'. simplify_eq.
    eexists w1', _, _, _. split_and!; [|exact Hdq1| |done| |].
    + unfold run_op. by step ltac:(exact Hrun).
    + lia.
    + rewrite Hs, lookup_insert_eq. simpl. done.
    + rewrite length_app. simpl.
      assert (Some x ∈ allocEls st) as Hin by (apply Hown; sets).
      pose proof (length_erase _ _ Hin). lia.
  - destruct vs as [|v vs]; [done|]. simplify_eq.
    destruct ls as [|x ls].
    { by destruct Hdq as [_ [Hl _ _] _]. }
    destruct (PopFront_spec _ _ _ _ _ _ _ Hdq) as (w1 & Hrun & Hdq1 & _ & Hav & _).
    destruct (PopFront_tracking _ _ _ _ _ _ _ _ Hdq Hst) as (w1' & Hrun' & Hs).
    rewrite Hrun in Hrun'. simplify_eq.
    eexists w1', _, _, _. split_and!; [|exact Hdq1| |done| |].
    + unfold run_op. by step ltac:(exact Hrun).
    + lia.
    + rewrite Hs, lookup_insert_eq. simpl. done.
    + simpl.
      assert (Some x ∈ allocEls st) as Hin by (apply Hown; sets).
      pose proof (length_erase _ _ Hin). lia.
Qed.

Lemma run_ops_tracking this s ops : ∀ w ls vs outs vs',
  is_deque w this s ls vs → seq_ops ops vs = Some (outs, vs') →
  (N.of_nat (pushes ops) * sizeof_node ≤ avail w)%N →
  ∃ w' ls' k k', run_ops this ops w = Val outs w' ∧ is_deque w' this s ls' vs' ∧
    outstanding s w = Some k ∧ outstanding s w' = Some k' ∧
    k' + length vs = k + length vs'.
Proof.
  induction ops as [|o ops IH]; intros w ls vs outs vs' Hdq Hseq Hmem.
  - simpl in Hseq. simplify_eq.
    destruct (dq_owns _ _ _ _ _ Hdq) as (st & Hst & _).
    exists w, ls, (length (allocEls st)), (length (allocEls st)).
    unfold outstanding. rewrite Hst. by split_and!.
  - simpl in Hseq.
    destruct (seq_op o vs) as [[out vs1]|] eqn:Ho; [|done]. simpl in Hseq.
    destruct (seq_ops ops vs1) as [[rest vs2]|] eqn:Hrest; [|done]. simpl in Hseq.
    simplify_eq.
    assert (pushes (o :: ops) = pushes [o] + pushes ops) as Hp.
    { by destruct o. }
    rewrite Hp, Nat2N.inj_add, N.mul_add_distr_r in Hmem.
    destruct (run_op_tracking w this s ls vs o out vs1 Hdq Ho)
      as (w1 & ls1 & k & k1 & Hrun & Hdq1 & Hav & Hk & Hk1 & Heq); [lia|].
    destruct (IH w1 ls1 vs1 rest vs' Hdq1 Hrest)
      as (w' & ls' & k1' & k' & Hrun' & Hdq' & Hk1' & Hk' & Heq'); [lia|].
    rewrite Hk1 in Hk1'. simplify_eq.
    exists w', ls', k, k'. split_and!; try done; [|lia].
    simpl. step ltac:(exact Hrun). by step ltac:(exact Hrun').
Qed.

(** X19.  Along any sequence of pushes and pops on a well-formed deque,
    the number of blocks its strategy has outstanding moves with the number
    of values held: each push adds one entry to the tracking list, each pop
    takes one out.  A deque built on a strategy with nothing outstanding
    therefore keeps exactly as many blocks outstanding as it holds values. *)
Theorem outstanding_follows_size w this s ls vs ops outs vs' :
  is_deque w this s ls vs → seq_ops ops vs = Some (outs, vs') →
  (N.of_nat (pushes ops) * sizeof_node ≤ avail w)%N →
  ∃ w' k k', run_ops this ops w = Val outs w' ∧
    outstanding s w = Some k ∧ outstanding s w' = Some k' ∧
    k' + length vs = k + length vs'.
Proof.
  intros Hdq Hseq Hmem.
  destruct (run_ops_tracking this s ops w ls vs outs vs' Hdq Hseq Hmem)
    as (w' & ls' & k & k' & Hrun & _ & Hk & Hk' & Heq).
  by exists w', k, k'.
Qed.

(** ** [ChangeAllocator] in the two revisions *)

Lemma with_blocks_id a b w :
  blocks w !! a = Some b → with_blocks <[a := b]> w = w.
Proof.
  intros H. destruct w as [bl av ss ds]. unfold with_blocks. simpl in *.
  by rewrite insert_id.
Qed.

(** Moving out of a node whose value the move leaves as it was copies it. *)
Lemma eval_ctor_MoveNode_id src w :
  (∀ v, moved_from v = v) →
  eval_ctor (MoveNode src) w = eval_ctor (CopyNode src) w.
Proof.
  intros Hid. unfold eval_ctor.
  destruct (load_cases src w) as [E|[n E]].
  - rewrite E. by apply bind_Fault.
  - rewrite E. step ltac:(exact E).
    destruct src as [a|]; [|done].
    unfold load in E. destruct (blocks w !! a) as [b|] eqn:Hb; [|done].
    simpl in E. destruct (peek b) as [n'|] eqn:Hp; [|done]. simplify_eq.
    eapply bind_Val; [|done].
    unfold update. rewrite Hb. simpl. unfold poke, peek in *.
    destruct b as [sz [|n0|n0]]; simpl in *; simplify_eq;
      rewrite Hid; destruct n as [nx pv dt]; unfold set_data; simpl;
      f_equal; by apply with_blocks_id.
Qed.

Lemma alloc_MoveNode_id a src w :
  (∀ v, moved_from v = v) →
  alloc a (MoveNode src) w = alloc a (CopyNode src) w.
Proof.
  intros Hid. unfold alloc.
  change (bind_args (MoveNode src)) with (bind_args (CopyNode src)).
  apply bind_ext. intros [] w0 _.
  apply bind_ext. intros s w1 _.
  apply bind_ext. intros p w2 _.
  unfold bind. by rewrite eval_ctor_MoveNode_id.
Qed.

Lemma bind_Val_inv {A B} (m : M A) (k : A → M B) w b w' :
  bind m k w = Val b w' → ∃ a w1, m w = Val a w1 ∧ k a w1 = Val b w'.
Proof. unfold bind. destruct (m w) as [a w1| | |]; [eauto|done..]. Qed.

Lemma construct_inv p n w w' :
  construct p n w = Val tt w' →
  ∃ a sz, p = Some a ∧ blocks w' = <[a := Block sz (Obj n)]> (blocks w) ∧
    is_Some (blocks w !! a).
Proof.
  unfold construct. destruct p as [a|]; [|done].
  destruct (blocks w !! a) as [b|] eqn:Hb; [|done].
  intros [= <-]. exists a, (bsize b). by eauto.
Qed.

(** After [alloc( *h )] the new node reads as the node at [h] does. *)
Lemma alloc_CopyNode_inv a h w p w' :
  alloc a (CopyNode (Some h)) w = Val p w' →
  ∃ n, load p w' = Val n w' ∧ load (Some h) w' = Val n w'.
Proof.
  unfold alloc. intros Hrun.
  apply bind_Val_inv in Hrun as ([] & w0 & _ & Hrun).
  apply bind_Val_inv in Hrun as (s & w0' & _ & Hrun).
  apply bind_Val_inv in Hrun as (p0 & w1 & _ & Hrun).
  apply bind_Val_inv in Hrun as (n & w1' & El & Hrun).
  apply bind_Val_inv in Hrun as ([] & w2 & Ec & Hrun).
  unfold ret in Hrun.
  change (eval_ctor (CopyNode (Some h))) with (load (Some h)) in El.
  destruct (load_cases (Some h) w1) as [E'|[n' E']]; rewrite E' in El; [done|].
  injection El as -> <-. injection Hrun as <- <-. rename E' into El.
  destruct (construct_inv _ _ _ _ Ec) as (x & sz & -> & Hb & Hlive).
  exists n. split.
  - eapply load_Val; [rewrite Hb; by rewrite lookup_insert_eq|done].
  - unfold load in El |- *. rewrite Hb.
    destruct (decide (x = h)) as [->|Hne].
    + rewrite lookup_insert_eq. simpl.
      destruct (blocks w1 !! h ≫= peek) as [n'|] eqn:Hp; [|done]. by simplify_eq.
    + rewrite lookup_insert_ne by done.
      destruct (blocks w1 !! h ≫= peek) as [n'|] eqn:Hp; [|done]. by simplify_eq.
Qed.

Lemma load_with_deques p n f w :
  load p w = Val n w → load p (with_deques f w) = Val n (with_deques f w).
Proof.
  unfold load. destruct p as [a|]; [|done]. fields.
  destruct (blocks w !! a ≫= peek); [|done]. by intros [= ->].
Qed.

Lemma put_deque_inv this f w w' :
  put_deque this f w = Val tt w' →
  ∃ d, deques w !! this = Some d ∧ w' = with_deques <[this := f d]> w.
Proof.
  unfold put_deque, bind, get_deque, modify.
  destruct (deques w !! this) as [d|]; [|done]. intros [= <-]. eauto.
Qed.

Lemma bind_cong_l {A B} (m m' : M A) (k : A → M B) w :
  m w = m' w → bind m k w = bind m' k w.
Proof. unfold bind. by intros ->. Qed.

(** X20.  For an element type that a move leaves as it was (the scalars),
    [ChangeAllocator] of the earlier revision does on a deque with a first
    node what that of the later revision does, on every store: both hand
    the list they have just built to [FreeList] under the previous
    allocator. *)
Theorem ChangeAllocator_agrees_across_revisions w this d h s :
  (∀ v, moved_from v = v) → deques w !! this = Some d → start d = Some h →
  ChangeAllocator_rev1 this s w = ChangeAllocator this s w.
Proof.
  intros Hid Hd Hstart. unfold ChangeAllocator_rev1, ChangeAllocator.
  apply bind_ext. intros d0 w0 [-> Hd0]%get_deque_inv. simplify_eq. cbv zeta.
  apply bind_ext. intros [] w1 (d0 & Hd0 & ->)%put_deque_inv. simplify_eq.
  apply bind_ext. intros d1 w2 [-> Hd1]%get_deque_inv.
  fields in Hd1. rewrite lookup_insert_eq in Hd1. simplify_eq. fields.
  rewrite Hstart. unfold CopyList_rev1.
  rewrite bind_assoc.
  apply bind_ext. intros n w3 [= <- <-].
  rewrite bind_assoc. dq.
  rewrite bind_assoc.
  rewrite (bind_cong_l (alloc _ (MoveNode _)) (alloc _ (CopyNode (Some h))))
    by (by apply alloc_MoveNode_id).
  apply bind_ext. intros p w4 Halloc.
  destruct (alloc_CopyNode_inv _ _ _ _ _ Halloc) as (n0 & Hl1 & Hl2).
  rewrite bind_assoc.
  apply bind_ext. intros [] w5 (d0 & Hd0 & ->)%put_deque_inv.
  rewrite bind_assoc.
  step ltac:(by apply load_with_deques).
  symmetry. step ltac:(by apply load_with_deques). symmetry.
  rewrite bind_assoc.
  apply bind_ext. intros pv w6 _.
  by rewrite bind_assoc.
Qed.

(** ** The stores used in the examples *)

Lemma heap_inv_fresh_world n : heap_inv (fresh_world n).
Proof.
  split.
  - intros s a (st & Hst & Hin). unfold fresh_world in Hst. fields in Hst.
    destruct s as [|[|s]]; simplify_map_eq; by apply elem_of_nil in Hin.
  - intros s st Hst. unfold fresh_world in Hst. fields in Hst.
    destruct s as [|[|s]]; simplify_map_eq; apply NoDup_nil_2.
  - intros s1 s2 a (st & Hst & Hin). unfold fresh_world in Hst. fields in Hst.
    destruct s1 as [|[|s1]]; simplify_map_eq; by apply elem_of_nil in Hin.
Qed.

Lemma preserves_push_back_all this xs : preserves (push_back_all this xs).
Proof.
  induction xs as [|x xs IH]; simpl; [apply preserves_ret|].
  apply preserves_bind; [|done]. apply (preserves_exec (CPushBack this x)).
Qed.

Lemma build_heap_inv s xs w this w' :
  heap_inv w → build s xs w = Val this w' → heap_inv w'.
Proof.
  intros H Hrun.
  assert (preserves (build s xs)) as Hp.
  { unfold build. apply preserves_bind; [apply (preserves_deque_ctor s)|].
    intros d. apply preserves_bind; [apply preserves_push_back_all|].
    intros _. apply preserves_ret. }
  specialize (Hp w H). rewrite Hrun in Hp. by destruct Hp.
Qed.

(** ** [deqGenetor] *)

Lemma move_ctor_frame rhs w this w' :
  move_ctor rhs w = Val this w' →
  ∀ d, d ≠ rhs → d ≠ this → deques w' !! d = deques w !! d.
Proof.
  intros Hrun.
  destruct (deques w !! rhs) as [r|] eqn:Hr.
  - assert (∃ t w0, move_ctor rhs w = Val t w0 ∧
              ∀ d, d ≠ rhs → d ≠ t → deques w0 !! d = deques w !! d)
      as (t & w0 & Hexact & Hframe).
    { set (w1 := with_deques <[rhs := Deque (start r) (tail r) (Allocator None)]> w).
      assert (fresh (dom (deques w1)) ≠ rhs) as Hne.
      { intros Heq. pose proof (fresh_deque_None w1) as Hf. rewrite Heq in Hf.
        subst w1. fields in Hf. by rewrite lookup_insert_eq in Hf. }
      eexists _, _. split.
      - unfold move_ctor. dq.
        step ltac:(unfold set_allocator; eapply put_deque_Val; done).
        fold w1. step ltac:(reflexivity).
        step ltac:(unfold set_start; eapply put_deque_Val; fields;
                   rewrite lookup_insert_ne by done; subst w1; lookup).
        eapply bind_Val; [|reflexivity].
        unfold set_tail. eapply put_deque_Val. lookup.
      - intros d Hd1 Hd2. subst w1. fields. by rewrite !lookup_insert_ne. }
    rewrite Hexact in Hrun. by injection Hrun as <- <-.
  - unfold move_ctor in Hrun.
    by rewrite (bind_Fault _ _ _ (get_deque_None _ _ Hr)) in Hrun.
Qed.

(** X21.  With room for one node, [deqGenetor(x)] returns a new well-formed
    deque that holds just [x], in one node, on a strategy that did not
    exist before and tracks that node only; the local deque it was moved
    out of is gone, and no deque object and no block that existed before
    is written. *)
Theorem deqGenetor_returns_a_singleton w x :
  (sizeof_node ≤ avail w)%N →
  ∃ w' r s a, deqGenetor x w = Val r w' ∧
    deques w !! r = None ∧ strategies w !! s = None ∧ blocks w !! a = None ∧
    is_deque w' r s [a] [x] ∧
    strategies w' !! s = Some (Strategy [Some a]) ∧
    (∀ d, d ≠ r → deques w' !! d = deques w !! d) ∧
    (∀ b, is_Some (blocks w !! b) → blocks w' !! b = blocks w !! b).
Proof.
  intros Hmem.
  assert (strategies w !! fresh (dom (strategies w)) = None) as Hs.
  { apply not_elem_of_dom, is_fresh. }
  set (s := fresh (dom (strategies w))) in *.
  set (w1 := with_strategies <[s := Strategy []]> w).
  destruct (deque_ctor_spec w1 s) as (w2 & deq & Hctor & Hdeq & Hdq2 & Hb2 & Hav2 & Hs2).
  { subst w1. fields. rewrite lookup_insert_eq. eauto. }
  assert (deques w2 = <[deq := Deque None None (Allocator (Some s))]> (deques w1)) as Hd2.
  { unfold deque_ctor, new_deque in Hctor. by injection Hctor as <- <-. }
  assert (strategies w2 !! s = Some (Strategy [])) as Hst2.
  { rewrite Hs2. subst w1. fields. by rewrite lookup_insert_eq. }
  destruct (PushBack_spec _ _ _ _ _ x Hdq2) as (w3 & Hpush & Hdq3 & _ & Hout3).
  { rewrite Hav2. done. }
  destruct (PushBack_tracking _ _ _ _ _ _ x Hdq2 Hst2) as (w3' & Hpush' & Hs3).
  { rewrite Hav2. done. }
  rewrite Hpush in Hpush'. simplify_eq. simpl in Hdq3, Hs3.
  destruct Hout3 as (Hd3 & Hb3 & _).
  destruct (move_ctor_spec _ _ _ _ _ Hdq3)
    as (w4 & r & Hmove & Hr & Hdq4 & Hdeq4 & _ & Hb4 & Hs4).
  pose proof (move_ctor_frame _ _ _ _ Hmove) as Hd4.
  assert (deq ≠ r) as Hne.
  { intros ->. rewrite (dq_obj _ _ _ _ _ Hdq3) in Hr. done. }
  exists (with_deques (delete deq) w4), r, s, (fresh (dom (blocks w2))).
  split_and!.
  - unfold deqGenetor.
    step ltac:(reflexivity). step ltac:(exact Hctor). step ltac:(exact Hpush).
    step ltac:(exact Hmove).
    eapply bind_Val; [|done].
    unfold deque_dtor. dq. eapply bind_Val; [|done].
    unfold FreeList. by step ltac:(reflexivity).
  - rewrite Hd3, Hd2 in Hr by done. by rewrite lookup_insert_ne in Hr.
  - done.
  - rewrite Hb2. exact (fresh_block_None w1).
  - eapply (is_deque_ext w4); [|done|eauto|done].
    fields. by rewrite lookup_delete_ne.
  - fields. by rewrite Hs4, Hs3, lookup_insert_eq.
  - intros d Hdr. fields. destruct (decide (d = deq)) as [->|Hdd].
    + by rewrite lookup_delete_eq.
    + rewrite lookup_delete_ne by done. rewrite Hd4, Hd3, Hd2 by done.
      by rewrite lookup_insert_ne.
  - intros b Hb. fields. rewrite Hb4. rewrite Hb3; [by rewrite Hb2| |by rewrite Hb2].
    intros Hin. by apply elem_of_nil in Hin.
Qed.

(** ** Writing an element through an iterator *)

Lemma ref_set_inv a v w w' :
  ref_set a v w = Val tt w' →
  deques w' = deques w ∧ strategies w' = strategies w ∧
  ∀ b, b ≠ a → blocks w' !! b = blocks w !! b.
Proof.
  unfold ref_set, update.
  destruct (blocks w !! a ≫= poke (set_data v)) as [b'|]; [|done].
  intros [= <-]. split_and!; [done|done|].
  intros b Hb. fields. by rewrite lookup_insert_ne.
Qed.

(** X22.  Assigning through an iterator at the [i]-th node of a well-formed
    deque replaces its [i]-th value and nothing else: the deque stays
    well-formed and prints the updated sequence, and every other
    well-formed deque that shares no node with it (a copy of it, or the
    deque it was copied from) prints what it printed before. *)
Theorem element_writes_stay_in_their_deque w d1 s1 ls1 vs1 d2 s2 ls2 vs2 i a v :
  is_deque w d1 s1 ls1 vs1 → is_deque w d2 s2 ls2 vs2 →
  (∀ x, x ∈ ls1 → x ∉ ls2) → ls1 !! i = Some a →
  ∃ w', (r <~ iter_deref (Iterator (Some a)) ;; ref_set r v) w = Val tt w' ∧
    is_deque w' d1 s1 ls1 (<[i := v]> vs1) ∧ is_deque w' d2 s2 ls2 vs2 ∧
    print d1 w' = Val (<[i := v]> vs1) w' ∧ print d2 w' = Val vs2 w'.
Proof.
  intros Hdq1 Hdq2 Hdisj Hi.
  destruct (ref_set_spec _ _ _ _ _ _ _ v Hdq1 Hi) as (w' & Hset & _ & Hdq1').
  destruct (ref_set_inv _ _ _ _ Hset) as (Hd & Hs & Hb).
  assert (is_deque w' d2 s2 ls2 vs2) as Hdq2'.
  { eapply (is_deque_ext w); [by rewrite Hd| |by rewrite Hs; eauto|done].
    intros x Hx. apply Hb. intros ->. apply (Hdisj a); [|done].
    by eapply list_elem_of_lookup_2. }
  exists w'. split_and!; [|done|done|by eapply print_spec|by eapply print_spec].
  by step ltac:(reflexivity).
Qed.
End Deque.

(** * The claims on concrete inputs

    [deque_t<int>], as the demonstration driver uses it: [T] is [Z],
    moving an [int] leaves it as it is, a node takes 24 bytes. *)

Arguments Val {T A} a w.
Arguments Throw {T A} e w.
Arguments Fault {T A}.
Arguments Timeout {T A}.

Notation "x <~ m ;; k" := (bind m (λ x, k))
  (at level 100, m at next level, right associativity).
Notation "m ;;; k" := (bind m (λ _, k))
  (at level 100, k at level 200, right associativity).

Open Scope Z_scope.

Lemma fresh_world_strategy {T} n s :
  (s < 2)%nat → is_Some (strategies (fresh_world (T:=T) n) !! s).
Proof. intros Hs. destruct s as [|[|s]]; [by eexists|by eexists|lia]. Qed.

(** [run H] runs the first action of a sequence with the result [H]. *)
Ltac run H := eapply bind_Val; [exact H | cbv beta].

Lemma ChangeAllocator_strands_old_nodes_witness :
  ∃ w w' : world,
    build id 24 0 [1; 2; 3] (fresh_world 1000) = Val 0%nat w ∧
    outstanding 0 w = Some 3%nat ∧
    ChangeAllocator id 24 0 1 w = Val tt w' ∧
    print 0 w' = Val [1; 2; 3] w' ∧
    outstanding 0 w' = Some 3%nat.
Proof.
  destruct (build_spec id 24 (fresh_world 1000) 0 [1; 2; 3])
    as (this & w & ls & Hrun & _ & Hdq & _);
    [by apply fresh_world_strategy; lia|by vm_compute|].
  pose proof Hrun as Hc. vm_compute in Hc. injection Hc as <- Hw.
  pose proof (il_length _ _ _ (dq_list _ _ _ _ _ Hdq)) as Hl.
  destruct ls as [|a ls]; [done|].
  assert (outstanding 0 w = Some 3%nat) as Hout by (by rewrite <- Hw).
  destruct (ChangeAllocator_strands_old_nodes id 24 w 0 0
              (Strategy [Some 1; Some 2; Some 3]%positive) 1 a ls 1 [2; 3] Hdq)
    as (w' & new & Hca & _ & Hprint & _ & _ & _ & Hsame).
  - by rewrite <- Hw.
  - done.
  - rewrite <- Hw. by eexists.
  - intros b Hb. rewrite <- Hw.
    repeat (apply elem_of_cons in Hb as [[= ->]|Hb]; [by eexists|]).
    by apply elem_of_nil in Hb.
  - rewrite Hl, <- Hw. by vm_compute.
  - exists w, w'. split_and!; [done|done|done|done|by rewrite Hsame].
Defined.

Lemma ChangeAllocator_same_strategy_dangles_witness :
  ∃ (w w' : world) d,
    build id 24 0 [1; 2] (fresh_world 1000) = Val 0%nat w ∧
    ChangeAllocator id 24 0 0 w = Val tt w' ∧
    deques w' !! 0%nat = Some d ∧
    ¬ deque_invariant w' d ∧
    print 0 w' = Fault.
Proof.
  destruct (build_spec id 24 (fresh_world 1000) 0 [1; 2])
    as (this & w & ls & Hrun & _ & Hdq & _);
    [by apply fresh_world_strategy; lia|by vm_compute|].
  pose proof Hrun as Hc. vm_compute in Hc. injection Hc as <- Hw.
  pose proof (il_length _ _ _ (dq_list _ _ _ _ _ Hdq)) as Hl.
  destruct ls as [|a [|b ls]]; [done|done|].
  destruct (ChangeAllocator_same_strategy_dangles id 24 w 0 0 a (b :: ls) 1 [2] Hdq)
    as (w' & d & h & t & Hca & Hd & _ & _ & _ & _ & Hprint & Hinv).
  - rewrite Hl, <- Hw. by vm_compute.
  - exists w, w', d. split_and!; [done|done|done|by apply Hinv|done].
Defined.

Lemma pop_contract_witness :
  ∃ w w1 w2 : world,
    build id 24 0 [7; 8] (fresh_world 100) = Val 0%nat w ∧
    PopBack id 0 w = Val 8 w1 ∧
    PopFront id 0 w1 = Val 7 w2 ∧
    PopBack id 0 w2 = Throw (Exception "Empty list") w2 ∧
    PopFront id 0 w2 = Throw (Exception "Empty list") w2.
Proof.
  destruct (build_spec id 24 (fresh_world 100) 0 [7; 8])
    as (this & w & ls & Hrun & _ & Hdq & _);
    [by apply fresh_world_strategy; lia|by vm_compute|].
  pose proof Hrun as Hc. vm_compute in Hc. injection Hc as <- _.
  pose proof (il_length _ _ _ (dq_list _ _ _ _ _ Hdq)) as Hl.
  destruct ls as [|a [|b [|c ls]]]; try done.
  change [a; b] with ([a] ++ [b]) in Hdq. change [7; 8] with ([7] ++ [8]) in Hdq.
  destruct (pop_contract id w 0) as (_ & Hback & _).
  destruct (Hback 0%nat [a] [7] b 8 Hdq) as (w1 & Hpop1 & _ & _ & Hdq1).
  destruct (pop_contract id w1 0) as (_ & _ & Hfront).
  destruct (Hfront 0%nat [] [] a 7 Hdq1) as (w2 & Hpop2 & _ & Hobj2 & _).
  destruct (pop_contract id w2 0) as (Hempty & _ & _).
  destruct (Hempty _ Hobj2 eq_refl eq_refl) as [He1 He2].
  by exists w, w1, w2.
Defined.

Lemma per_end_order_witness :
  ∃ w w1 w2 w3 w4 : world,
    deque_ctor 0 (fresh_world 200) = Val 0%nat w ∧
    push_back_all id 24 0 [3; 4; 5] w = Val tt w1 ∧
    pop_front_n id 0 3 w1 = Val [3; 4; 5] w2 ∧
    pop_back_n id 0 3 w1 = Val [5; 4; 3] w3 ∧
    scenario id 24 0 1 2 3 4 w =
      Val ([3; 4], [1; 2; 3; 4], 1, [2; 3; 4], 4, [2; 3]) w4 ∧
    ∃ w5 ls, run_ops id 24 0 [OPushBack 3; OPushFront 2; OPopBack; OPushBack 4;
                              OPopFront; OPopFront] w = Val [3; 2; 4] w5 ∧
      is_deque w5 0 0 ls [].
Proof.
  destruct (deque_ctor_spec (fresh_world (T:=Z) 200) 0)
    as (w & this & Hrun & _ & Hdq & _ & Hav & _);
    [by apply fresh_world_strategy; lia|].
  pose proof Hrun as Hc. vm_compute in Hc. injection Hc as <- _.
  destruct (per_end_order id 24 w 0 0 [] [] [3; 4; 5] Hdq)
    as ((w1 & w2 & Hpush & Hfifo & _) & (w1' & w3 & Hpush' & Hlifo & _) & Hops & Hscen).
  { rewrite Hav. by vm_compute. }
  destruct (Hscen eq_refl) with (v1 := 1) (v2 := 2) (v3 := 3) (v4 := 4)
    as (w4 & l & Hs & _).
  { rewrite Hav. by vm_compute. }
  destruct (Hops [OPushBack 3; OPushFront 2; OPopBack; OPushBack 4; OPopFront; OPopFront]
              [3; 2; 4] []) as (w5 & ls5 & Hrun5 & Hdq5).
  { by vm_compute. }
  { rewrite Hav. by vm_compute. }
  rewrite Hpush in Hpush'. injection Hpush' as <-.
  exists w, w1, w2, w3, w4. split_and!; [done..|]. by exists w5, ls5.
Defined.

(** Two deques: deque 0 holds 1, 2 under strategy 0, deque 1 holds 9 under
    strategy 1. *)
Lemma two_deques :
  ∃ (w : world) ls0 ls1,
    (d0 <~ build id 24 0 [1; 2] ;; d1 <~ build id 24 1 [9] ;; ret (d0, d1))
      (fresh_world 1000) = Val (0%nat, 1%nat) w ∧
    is_deque w 0 0 ls0 [1; 2] ∧ is_deque w 1 1 ls1 [9] ∧
    (∀ a, a ∈ ls0 → a ∉ ls1) ∧
    avail w = 928%N ∧ is_Some (strategies w !! 1%nat).
Proof.
  destruct (build_spec id 24 (fresh_world 1000) 0 [1; 2])
    as (d0 & w0 & ls0 & Hrun0 & _ & Hdq0 & Hav0 & Hs0 & _);
    [by apply fresh_world_strategy; lia|by vm_compute|].
  pose proof Hrun0 as Hc. vm_compute in Hc. injection Hc as <- _.
  destruct (build_spec id 24 w0 1 [9])
    as (d1 & w & ls1 & Hrun1 & _ & Hdq1 & Hav1 & Hs1 & Hfr).
  { by apply Hs0, fresh_world_strategy; lia. }
  { rewrite Hav0. by vm_compute. }
  destruct (Hfr _ _ _ _ Hdq0) as (_ & Hdq0' & Hdisj).
  assert (d1 = 1%nat) as ->.
  { assert ((d0 <~ build id 24 0 [1; 2] ;; d1 <~ build id 24 1 [9] ;; ret d1)
              (fresh_world 1000) = Val d1 w) as Hboth.
    { run Hrun0. by run Hrun1. }
    vm_compute in Hboth. by injection Hboth as <- _. }
  exists w, ls0, ls1. split_and!; [|done|done|done| |].
  - run Hrun0. by run Hrun1.
  - rewrite Hav1, Hav0. by vm_compute.
  - by apply Hs1, Hs0, fresh_world_strategy; lia.
Defined.

Lemma copies_are_independent_witness :
  ∃ (w : world) ls,
    (d0 <~ build id 24 0 [1; 2] ;; d1 <~ build id 24 1 [9] ;; ret (d0, d1))
      (fresh_world 1000) = Val (0%nat, 1%nat) w ∧
    (∃ w' this w'', copy_ctor id 24 0 w = Val this w' ∧
       copy_of id 24 w' 0 0 ls [1; 2] this 0 ∧
       PopBack id this w' = Val 2 w'' ∧
       print this w'' = Val [1] w'' ∧ print 0 w'' = Val [1; 2] w'') ∧
    (∃ w' this, copy_ctor_with id 24 0 1 w = Val this w' ∧
       copy_of id 24 w' 0 0 ls [1; 2] this 1) ∧
    (∃ w' w'', copy_assign id 24 1 0 w = Val tt w' ∧
       copy_of id 24 w' 0 0 ls [1; 2] 1 0 ∧
       PopFront id 0 w' = Val 1 w'' ∧
       print 0 w'' = Val [2] w'' ∧ print 1 w'' = Val [1; 2] w'') ∧
    (∃ w', Copy id 24 1 0 1 w = Val tt w' ∧
       copy_of id 24 w' 0 0 ls [1; 2] 1 1).
Proof.
  destruct two_deques as (w & ls0 & ls1 & Hrun & Hdq0 & Hdq1 & Hdisj & Hav & Hs1).
  pose proof (il_length _ _ _ (dq_list _ _ _ _ _ Hdq0)) as Hl.
  destruct (copies_are_independent id 24 w 0 0 ls0 [1; 2] Hdq0)
    as (Hctor & Hwith & Hassign & Hcopy).
  { rewrite Hl, Hav. by vm_compute. }
  assert (∀ a, a ∈ ls1 → a ∉ ls0) as Hdisj' by (intros a H1 H0; by eapply Hdisj).
  exists w, ls0. split_and!.
  - done.
  - destruct Hctor as (w' & this & Hc & _ & Hof).
    pose proof Hof as (ls' & Hdst & Hsrc & _ & _ & Hkeep & _).
    pose proof (il_length _ _ _ (dq_list _ _ _ _ _ Hdst)) as Hl'.
    destruct ls' as [|a [|b [|c ls']]]; try done.
    destruct (PopBack_spec id w' this 0 [a] [1] b 2 Hdst) as (w'' & Hpop & Hdst' & _).
    exists w', this, w''. split_and!; [done|done|done|by eapply print_spec|].
    eapply print_spec, (Hkeep MPopBack). left. exists tt.
    cbn [mutate]. by run Hpop.
  - destruct (Hwith 1%nat Hs1) as (w' & this & ? & _ & ?). eauto.
  - destruct (Hassign 1%nat 1%nat ls1 [9]) as (w' & Hc & Hof); [done..|].
    pose proof Hof as (ls' & Hdst & Hsrc & _ & _ & _ & Hkeep).
    destruct ls0 as [|a ls0]; [done|].
    destruct (PopFront_spec id w' 0 0 ls0 [2] a 1 Hsrc) as (w'' & Hpop & Hsrc' & _).
    exists w', w''. split_and!; [done|done|done|by eapply print_spec|].
    eapply print_spec, (Hkeep MPopFront). left. exists tt.
    cbn [mutate]. by run Hpop.
  - by apply (Hcopy 1%nat 1%nat ls1 [9] 1%nat).
Defined.

Lemma move_transfers_ownership_witness :
  ∃ (w : world) ls,
    (d0 <~ build id 24 0 [1; 2] ;; d1 <~ build id 24 1 [9] ;; ret (d0, d1))
      (fresh_world 1000) = Val (0%nat, 1%nat) w ∧
    (∃ w' this, move_ctor 0 w = Val this w' ∧
       is_deque w' this 0 ls [1; 2] ∧ IsEmpty 0 w' = Val true w') ∧
    (∃ w', move_assign 1 0 w = Val tt w' ∧
       is_deque w' 1 0 ls [1; 2] ∧ IsEmpty 0 w' = Val true w' ∧
       print 1 w' = Val [1; 2] w').
Proof.
  destruct two_deques as (w & ls0 & ls1 & Hrun & Hdq0 & Hdq1 & Hdisj & Hav & Hs1).
  destruct (move_transfers_ownership w 0 0 ls0 [1; 2] Hdq0) as (Hctor & Hassign).
  assert (∀ a, a ∈ ls1 → a ∉ ls0) as Hdisj' by (intros a H1 H0; by eapply Hdisj).
  exists w, ls0. split_and!.
  - done.
  - destruct Hctor as (w' & this & ? & _ & ? & _ & ? & _). eauto.
  - destruct (Hassign 1%nat 1%nat ls1 [9]) as (w' & ? & Hdq' & _ & ? & _); [done..|].
    exists w'. split_and!; [done|done|done|by eapply print_spec].
Defined.



Lemma strategy_dealloc_contract_witness :
  ∃ w w' : world,
    build id 24 0 [7] (fresh_world 100) = Val 0%nat w ∧
    strategy_dealloc 0 (Some 5%positive) w = Val tt w ∧
    strategy_dealloc 0 (Some 1%positive) w = Val tt w' ∧
    blocks w' !! 1%positive = None ∧
    (allocEls <$> strategies w' !! 0%nat) = Some [] ∧
    strategy_dealloc 0 (Some 1%positive) w' = Val tt w'.
Proof.
  eexists _, _. split; [by vm_compute|].
  match goal with |- strategy_dealloc _ _ ?w = _ ∧ _ => set (w0 := w) end.
  assert (strategies w0 !! 0%nat = Some (Strategy [Some 1%positive])) as Hst by done.
  destruct (strategy_dealloc_contract w0 0 _ (Some 5%positive) Hst) as [Hun _].
  destruct (strategy_dealloc_contract w0 0 _ (Some 1%positive) Hst) as [_ Htr].
  destruct Htr as (l1 & l2 & Hl & Hl1 & Hsome & _); [apply elem_of_cons; by left|].
  destruct l1 as [|q l1]; [|destruct l1; done].
  injection Hl as <-.
  destruct (Hsome 1%positive (Block 24 (Obj (Node None None 7))) eq_refl eq_refl)
    as (w' & Hrun & -> & Hagain).
  split_and!.
  - apply Hun. by intros [[= ?]|?%elem_of_nil]%elem_of_cons.
  - exact Hrun.
  - done.
  - done.
  - apply Hagain. by intros ?%elem_of_nil.
Defined.

Lemma iterator_contract_witness :
  ∃ (w : world) it it' r r',
    build id 24 0 [7; 8] (fresh_world 100) = Val 0%nat w ∧
    begin 0 w = Val it w ∧
    iter_deref it w = Val r w ∧ ref_get r w = Val 7 w ∧
    iter_preinc it w = Val it' w ∧
    iter_deref it' w = Val r' w ∧ ref_get r' w = Val 8 w ∧
    iterate 0 w = Val [7; 8] w ∧
    iter_deref (Iterator None) w = Throw (Exception "Try to use end iterator") w.
Proof.
  destruct (build_spec id 24 (fresh_world 100) 0 [7; 8])
    as (this & w & ls & Hrun & _ & Hdq & _);
    [by apply fresh_world_strategy; lia|by vm_compute|].
  pose proof Hrun as Hc. vm_compute in Hc. injection Hc as <- _.
  pose proof (il_length _ _ _ (dq_list _ _ _ _ _ Hdq)) as Hl.
  destruct ls as [|a [|b [|c ls]]]; try done.
  destruct (il_nodes _ _ _ (dq_list _ _ _ _ _ Hdq) 0%nat a 7 eq_refl eq_refl) as [sza Hba].
  destruct (il_nodes _ _ _ (dq_list _ _ _ _ _ Hdq) 1%nat b 8 eq_refl eq_refl) as [szb Hbb].
  destruct (iterator_contract w) as (_ & (Hend & _) & Hnode & Hdeque).
  destruct (Hnode _ _ _ Hba) as (Hda & Hga & _ & Hinc & _).
  destruct (Hnode _ _ _ Hbb) as (Hdb & Hgb & _).
  destruct (Hdeque _ _ _ _ Hdq) as (Hbegin & _ & Hiter).
  exists w, (Iterator (Some a)), (Iterator (Some b)), a, b.
  by split_and!.
Defined.

Lemma self_copy_assign_faults_witness :
  ∃ w : world,
    build id 24 0 [1; 2] (fresh_world 100) = Val 0%nat w ∧
    copy_assign id 24 0 0 w = Fault.
Proof.
  destruct (build_spec id 24 (fresh_world 100) 0 [1; 2])
    as (this & w & ls & Hrun & _ & Hdq & _);
    [by apply fresh_world_strategy; lia|by vm_compute|].
  pose proof Hrun as Hc. vm_compute in Hc. injection Hc as <- _.
  pose proof (il_length _ _ _ (dq_list _ _ _ _ _ Hdq)) as Hl.
  destruct ls as [|a ls]; [done|].
  destruct (self_copy_assign_faults id 24 w 0 0 a ls 1 [2] Hdq)
    as ((w1 & _ & _ & _ & Hfault) & _).
  by exists w.
Defined.

(** * The further properties on concrete inputs *)

(** Deque 0 holds 1, 2, 3 under strategy 0; strategy 1 has handed out
    nothing; 928 bytes are left. *)
Lemma a_deque :
  ∃ (w : world) a b c,
    build id 24 0 [1; 2; 3] (fresh_world 1000) = Val 0%nat w ∧
    is_deque w 0 0 [a; b; c] [1; 2; 3] ∧ heap_inv w ∧
    strategies w !! 0%nat = Some (Strategy [Some 1; Some 2; Some 3]%positive) ∧
    avail w = 928%N ∧ is_Some (strategies w !! 1%nat).
Proof.
  destruct (build_spec id 24 (fresh_world 1000) 0 [1; 2; 3])
    as (this & w & ls & Hrun & _ & Hdq & Hav & Hs & _);
    [by apply fresh_world_strategy; lia|by vm_compute|].
  pose proof (build_heap_inv id 24 _ _ _ _ _ (heap_inv_fresh_world 1000) Hrun) as Hinv.
  pose proof Hrun as Hc. vm_compute in Hc. injection Hc as <- Hw.
  pose proof (il_length _ _ _ (dq_list _ _ _ _ _ Hdq)) as Hl.
  destruct ls as [|a [|b [|c [|? ?]]]]; try done.
  exists w, a, b, c. split_and!; [done|done|done| | |].
  - by rewrite <- Hw.
  - by rewrite <- Hw.
  - apply Hs. apply fresh_world_strategy. lia.
Qed.

Lemma bookkeeping_invariant_witness :
  (∃ w' : world,
     exec_log id 24
       [CMakeStrategy; CMakeStrategy; CDequeCtor 0; CPushBack 0 1; CPushBack 0 2;
        CChangeAllocator 0 1; CPopFront 0; CPopFront 0; CPopFront 0;
        CStrategyDtor 0; CDequeDtor 0; CStrategyDtor 1]
       (World ∅ 1000 ∅ ∅) = Val [Exception "Empty list"] w' ∧
     heap_inv w' ∧ blocks w' = ∅) ∧
  (∃ w' : world,
     exec_log (T:=Z) id 24 [CMakeStrategy; CStrategyAlloc 0 8; CStrategyDtor 0]
       (World ∅ 10 ∅ ∅) = Val [bad_alloc] w' ∧
     heap_inv w' ∧ strategies w' = ∅ ∧
     blocks w' = {[1%positive := Block 8 Raw]}).
Proof.
  split.
  - assert (∃ w' : world,
      exec_log id 24
        [CMakeStrategy; CMakeStrategy; CDequeCtor 0; CPushBack 0 1; CPushBack 0 2;
         CChangeAllocator 0 1; CPopFront 0; CPopFront 0; CPopFront 0;
         CStrategyDtor 0; CDequeDtor 0; CStrategyDtor 1]
        (World ∅ 1000 ∅ ∅) = Val [Exception "Empty list"] w') as [w' Hrun].
    { eexists. vm_compute. reflexivity. }
    destruct (bookkeeping_invariant id 24 _ _ _ _ Hrun) as [Hinv Hquiet].
    destruct Hquiet as [_ Hempty].
    { intros Hin. by apply list_elem_of_singleton in Hin. }
    exists w'. split_and!; [done|done|]. apply Hempty.
    vm_compute in Hrun. by injection Hrun as <-.
  - assert (∃ w' : world,
      exec_log (T:=Z) id 24 [CMakeStrategy; CStrategyAlloc 0 8; CStrategyDtor 0]
        (World ∅ 10 ∅ ∅) = Val [bad_alloc] w') as [w' Hrun].
    { eexists. vm_compute. reflexivity. }
    destruct (bookkeeping_invariant id 24 _ _ _ _ Hrun) as [Hinv _].
    exists w'. split_and!; [done|done| |];
      vm_compute in Hrun; by injection Hrun as <-.
Defined.

Lemma strategy_dtor_releases_what_it_tracks_witness :
  ∃ w w' : world,
    exec_all id 24 [CMakeStrategy; CDequeCtor 0; CPushBack 0 1; CPushBack 0 2]
      (World ∅ 100 ∅ ∅) = Val tt w ∧
    strategies w !! 0%nat = Some (Strategy [Some 1; Some 2]%positive) ∧
    strategy_dtor 0 w = Val tt w' ∧
    blocks w' !! 1%positive = None ∧ blocks w' !! 2%positive = None.
Proof.
  assert (∃ w : world,
    exec_all id 24 [CMakeStrategy; CDequeCtor 0; CPushBack 0 1; CPushBack 0 2]
      (World ∅ 100 ∅ ∅) = Val tt w) as [w Hrun].
  { eexists. vm_compute. reflexivity. }
  assert (strategies w !! 0%nat = Some (Strategy [Some 1; Some 2]%positive)) as Hst.
  { vm_compute in Hrun. by injection Hrun as <-. }
  destruct (strategy_dtor_releases_what_it_tracks id 24 _ _ _ _ _ Hrun Hst)
    as (w' & Hd & Hgone & _).
  exists w, w'. split_and!; [done|done|done| |].
  - apply Hgone. by left.
  - apply Hgone. right. by left.
Defined.

Lemma deque_dtor_contract_witness :
  ∃ (w w' : world) a b c,
    build id 24 0 [1; 2; 3] (fresh_world 1000) = Val 0%nat w ∧
    is_deque w 0 0 [a; b; c] [1; 2; 3] ∧
    deque_dtor 0 w = Val tt w' ∧
    deques w' !! 0%nat = None ∧
    blocks w' !! a = None ∧ blocks w' !! b = None ∧ blocks w' !! c = None.
Proof.
  destruct a_deque as (w & a & b & c & Hrun & Hdq & _).
  destruct (deque_dtor_contract w 0 0 [a; b; c] [1; 2; 3] Hdq)
    as (w' & Hd & Hobj & Hgone & _).
  exists w, w', a, b, c. split_and!; [done|done|done| | | |].
  - rewrite Hobj. by rewrite lookup_delete_eq.
  - apply Hgone. by left.
  - apply Hgone. right. by left.
  - apply Hgone. do 2 right. by left.
Defined.

Lemma push_pop_round_trip_witness :
  ∃ w : world,
    build id 24 0 [1; 2; 3] (fresh_world 1000) = Val 0%nat w ∧
    (PushBack id 24 0 7 ;;; PopBack id 0) w = Val 7 w ∧
    (PushFront id 24 0 7 ;;; PopFront id 0) w = Val 7 w.
Proof.
  destruct a_deque as (w & a & b & c & Hrun & Hdq & Hinv & Hst & Hav & _).
  exists w. split; [done|].
  apply (push_pop_round_trip id 24 w 0 0 _ [a; b; c] [1; 2; 3] 7 Hdq Hst).
  - intros x Hx. apply (hi_live _ Hinv 0%nat). by eexists.
  - by rewrite Hav.
Defined.

Lemma alloc_dealloc_round_trip_witness :
  (p <~ strategy_alloc 24 0 8 ;; strategy_dealloc 0 p) (fresh_world (T:=Z) 100) =
    Val tt (fresh_world 100) ∧
  (p <~ alloc id 24 (Allocator (Some 0%nat)) (ByValue 5 None None) ;;
   dealloc (Allocator (Some 0%nat)) p) (fresh_world 100) =
    Val tt (fresh_world 100).
Proof.
  apply (alloc_dealloc_round_trip id 24 (fresh_world 100) (Allocator (Some 0%nat))
           0 (Strategy []) 8 5 None None).
  - done.
  - done.
  - intros x Hx. by apply elem_of_nil in Hx.
  - intros _ Hx. by apply elem_of_nil in Hx.
  - by vm_compute.
Defined.

Lemma moved_from_deque_witness :
  ∃ (w w' : world) this,
    build id 24 0 [1; 2; 3] (fresh_world 1000) = Val 0%nat w ∧
    move_ctor 0 w = Val this w' ∧
    print 0 w' = Val [] w' ∧
    PopBack id 0 w' = Throw (Exception "Empty list") w' ∧
    PushBack id 24 0 7 w' = Fault ∧
    ∃ w'', ChangeAllocator id 24 0 1 w' = Val tt w'' ∧
      is_deque w'' 0 1 [] [] ∧ print this w'' = Val [1; 2; 3] w''.
Proof.
  destruct a_deque as (w & a & b & c & Hrun & Hdq & _ & _ & _ & Hs1).
  destruct (moved_from_deque id 24 w 0 0 [a; b; c] [1; 2; 3] 7 1 Hdq Hs1)
    as (w' & this & Hmove & Hprint & Hpop & _ & _ & Hpush & _ &
        (w'' & Hca & Hempty & Hkept) & _).
  exists w, w', this. split_and!; [done..|].
  exists w''. split_and!; [done|done|]. by eapply print_spec.
Defined.

(** A new deque on strategy 0. *)
Lemma an_empty_deque :
  ∃ w : world,
    deque_ctor 0 (fresh_world (T:=Z) 100) = Val 0%nat w ∧
    is_deque w 0 0 [] [] ∧ avail w = 100%N ∧
    is_Some (strategies w !! 1%nat) ∧
    strategies w !! 0%nat = Some (Strategy []).
Proof.
  destruct (deque_ctor_spec (fresh_world (T:=Z) 100) 0)
    as (w & this & Hrun & _ & Hdq & _ & Hav & Hs);
    [by apply fresh_world_strategy; lia|].
  pose proof Hrun as Hc. vm_compute in Hc. injection Hc as <- _.
  exists w. split_and!; [done|done|by rewrite Hav| |].
  - rewrite Hs. apply fresh_world_strategy. lia.
  - by rewrite Hs.
Qed.

Lemma ChangeAllocator_of_an_empty_deque_witness :
  ∃ (w w' w'' : world) x,
    deque_ctor 0 (fresh_world 100) = Val 0%nat w ∧
    ChangeAllocator id 24 0 1 w = Val tt w' ∧
    is_deque w' 0 1 [] [] ∧
    PushBack id 24 0 7 w' = Val tt w'' ∧
    is_deque w'' 0 1 [x] [7].
Proof.
  destruct an_empty_deque as (w & Hrun & Hdq & Hav & Hs1 & _).
  destruct (ChangeAllocator_of_an_empty_deque id 24 w 0 _ 1 7 (dq_obj _ _ _ _ _ Hdq))
    as (w' & Hca & _ & _ & _ & _ & Hdq' & w'' & Hpush & Hdq'');
    [done|done|by rewrite Hav|].
  by exists w, w', w'', (fresh (dom (blocks w))).
Defined.

Lemma ChangeAllocator_rev1_empty_faults_witness :
  ∃ w : world,
    deque_ctor 0 (fresh_world (T:=Z) 100) = Val 0%nat w ∧
    ChangeAllocator_rev1 id 24 0 1 w = Fault.
Proof.
  destruct an_empty_deque as (w & Hrun & Hdq & _).
  exists w. split; [done|].
  by apply (ChangeAllocator_rev1_empty_faults id 24 w 0 _ 1 (dq_obj _ _ _ _ _ Hdq)).
Defined.

Lemma self_Copy_faults_witness :
  ∃ w : world,
    build id 24 0 [1; 2; 3] (fresh_world 1000) = Val 0%nat w ∧
    Copy id 24 0 0 1 w = Fault.
Proof.
  destruct a_deque as (w & a & b & c & Hrun & Hdq & _).
  exists w. split; [done|].
  exact (self_Copy_faults id 24 w 0 0 a [b; c] 1 [2; 3] 1 Hdq).
Defined.

Lemma copy_with_the_strategy_of_the_source_witness :
  ∃ w : world,
    (d0 <~ build id 24 0 [1; 2] ;; d1 <~ build id 24 1 [9] ;; ret (d0, d1))
      (fresh_world 1000) = Val (0%nat, 1%nat) w ∧
    Copy id 24 1 0 0 w = copy_assign id 24 1 0 w ∧
    copy_ctor_with id 24 0 0 w = copy_ctor id 24 0 w.
Proof.
  destruct two_deques as (w & ls0 & ls1 & Hrun & Hdq0 & _).
  exists w. split; [done|].
  by apply (copy_with_the_strategy_of_the_source id 24 w 1 0 _ 0
              (dq_obj _ _ _ _ _ Hdq0)).
Defined.

Lemma typed_dealloc_is_tolerant_witness :
  ∃ (w w' : world) a,
    build id 24 0 [1; 2; 3] (fresh_world 1000) = Val 0%nat w ∧
    dealloc (Allocator (Some 0%nat)) None w = Val tt w ∧
    dealloc (Allocator (Some 0%nat)) (Some a) w = Val tt w' ∧
    dealloc (Allocator (Some 0%nat)) (Some a) w' = Val tt w'.
Proof.
  destruct a_deque as (w & a & b & c & Hrun & Hdq & Hinv & Hst & _).
  destruct (is_list_block _ _ _ a (dq_list _ _ _ _ _ Hdq)) as (sz & n & Hb); [by left|].
  destruct (dq_owns _ _ _ _ _ Hdq) as (st & Hst' & Hown).
  destruct (typed_dealloc_is_tolerant w (Allocator (Some 0%nat)) 0 st a
              (Block sz (Obj n)) n Hinv eq_refl Hst')
    as (Hnull & w' & Hfst & _ & Hsnd); [|by apply Hown; left|exact Hb|done|].
  - rewrite Hst in Hst'. injection Hst' as <-. simpl. intros Hin.
    repeat (apply elem_of_cons in Hin as [?|Hin]; [done|]).
    by apply elem_of_nil in Hin.
  - by exists w, w', a.
Defined.

Lemma IsEmpty_reflects_the_contents_witness :
  ∃ w w' : world,
    build id 24 0 [1; 2; 3] (fresh_world 1000) = Val 0%nat w ∧
    run_ops id 24 0 [OPopFront; OPopBack; OPopFront] w = Val [1; 3; 2] w' ∧
    IsEmpty 0 w' = Val true w' ∧
    (it <~ begin 0 ;; last <~ end_ 0 ;; ret (iter_eq it last)) w' = Val true w'.
Proof.
  destruct a_deque as (w & a & b & c & Hrun & Hdq & _).
  destruct (IsEmpty_reflects_the_contents id 24 w 0 0 [a; b; c] [1; 2; 3]
              [OPopFront; OPopBack; OPopFront] [1; 3; 2] [] Hdq)
    as (w' & Hops & Hempty & Hends); [done|simpl; lia|].
  exists w, w'. split_and!; [done|done|done|]. by rewrite Hends.
Defined.

Lemma old_nodes_go_with_the_old_strategy_witness :
  ∃ (w w' w'' : world) a,
    build id 24 0 [1; 2; 3] (fresh_world 1000) = Val 0%nat w ∧
    ChangeAllocator id 24 0 1 w = Val tt w' ∧
    is_Some (blocks w' !! a) ∧
    strategy_dtor 0 w' = Val tt w'' ∧
    blocks w'' !! a = None ∧
    print 0 w'' = Val [1; 2; 3] w''.
Proof.
  destruct a_deque as (w & a & b & c & Hrun & Hdq & Hinv & Hst & Hav & Hs1).
  destruct (old_nodes_go_with_the_old_strategy id 24 w 0 0 _ 1 a [b; c] 1 [2; 3]
              Hinv Hdq Hst)
    as (w' & w'' & Hca & Hd & Hold & _ & Hprint); [done|done|by rewrite Hav|].
  destruct (Hold a) as [Hlive Hgone]; [by left|].
  by exists w, w', w'', a.
Defined.

Lemma iterator_validity_witness :
  ∃ (w w' : world) a b,
    build id 24 0 [1; 2; 3] (fresh_world 1000) = Val 0%nat w ∧
    PopFront id 0 w = Val 1 w' ∧
    (r <~ iter_deref (Iterator (Some b)) ;; ref_get r) w' = Val 2 w' ∧
    (r <~ iter_deref (Iterator (Some a)) ;; ref_get r) w' = Fault.
Proof.
  destruct a_deque as (w & a & b & c & Hrun & Hdq & _ & _ & Hav & _).
  destruct (PopFront_spec id _ _ _ _ _ _ _ Hdq) as (w' & Hpop & _).
  assert (finishes (mutate id 24 MPopFront 0) w w') as Hfin.
  { left. exists tt. simpl. by run Hpop. }
  exists w, w', a, b. split_and!; [done|done| |].
  - apply (iterator_validity id 24 w 0 0 [a; b; c] [1; 2; 3] 1 b 2 MPopFront w' Hdq);
      [done|done|by rewrite Hav|done].
  - apply (iterator_validity id 24 w 0 0 [a; b; c] [1; 2; 3] 0 a 1 MPopFront w' Hdq);
      [done|done|by rewrite Hav|done].
Defined.

Lemma Clear_contract_witness :
  ∃ w w' : world,
    build id 24 0 [1; 2; 3] (fresh_world 1000) = Val 0%nat w ∧
    Clear 0 w = Val tt w' ∧
    IsEmpty 0 w' = Val true w' ∧
    PopBack id 0 w' = Throw (Exception "Empty list") w' ∧
    Clear 0 w' = Val tt w'.
Proof.
  destruct a_deque as (w & a & b & c & Hrun & Hdq & _).
  destruct (Clear_contract id w 0 0 [a; b; c] [1; 2; 3] Hdq)
    as (w' & Hclear & _ & _ & _ & Hempty & Hpop & _ & Hagain).
  by exists w, w'.
Defined.

Lemma outstanding_follows_size_witness :
  ∃ w w' : world,
    build id 24 0 [1; 2; 3] (fresh_world 1000) = Val 0%nat w ∧
    outstanding 0 w = Some 3%nat ∧
    run_ops id 24 0 [OPushBack 4; OPopFront; OPopFront] w = Val [1; 2] w' ∧
    outstanding 0 w' = Some 2%nat.
Proof.
  destruct a_deque as (w & a & b & c & Hrun & Hdq & _ & Hst & Hav & _).
  assert (outstanding 0 w = Some 3%nat) as Hout.
  { unfold outstanding. by rewrite Hst. }
  destruct (outstanding_follows_size id 24 w 0 0 [a; b; c] [1; 2; 3]
              [OPushBack 4; OPopFront; OPopFront] [1; 2] [3; 4] Hdq)
    as (w' & k & k' & Hops & Hk & Hk' & Heq); [done|by rewrite Hav|].
  rewrite Hout in Hk. simplify_eq. simpl in Heq.
  exists w, w'. split_and!; [done|done|done|]. rewrite Hk'. f_equal. lia.
Defined.

Lemma ChangeAllocator_agrees_across_revisions_witness :
  ∃ w : world,
    build id 24 0 [1; 2; 3] (fresh_world 1000) = Val 0%nat w ∧
    ChangeAllocator_rev1 id 24 0 1 w = ChangeAllocator id 24 0 1 w.
Proof.
  destruct a_deque as (w & a & b & c & Hrun & Hdq & _).
  exists w. split; [done|].
  by apply (ChangeAllocator_agrees_across_revisions id 24 w 0 _ a 1 (λ v, eq_refl)
              (dq_obj _ _ _ _ _ Hdq)).
Defined.

Lemma deqGenetor_returns_a_singleton_witness :
  ∃ w' : world,
    deqGenetor id 24 5 (World ∅ 100 ∅ ∅) = Val 1%nat w' ∧
    deques w' !! 0%nat = None ∧
    print 1 w' = Val [5] w'.
Proof.
  destruct (deqGenetor_returns_a_singleton id 24 (World ∅ 100 ∅ ∅) 5)
    as (w' & r & s & a & Hrun & _ & _ & _ & Hdq & _ & Hframe & _); [by vm_compute|].
  pose proof Hrun as Hc. vm_compute in Hc. injection Hc as <- _.
  exists w'. split_and!; [done| |by eapply print_spec].
  by rewrite Hframe.
Defined.

Lemma element_writes_stay_in_their_deque_witness :
  ∃ (w w1 w2 : world) this a,
    build id 24 0 [1; 2; 3] (fresh_world 1000) = Val 0%nat w ∧
    copy_ctor id 24 0 w = Val this w1 ∧
    (r <~ iter_deref (Iterator (Some a)) ;; ref_set r 7) w1 = Val tt w2 ∧
    print this w2 = Val [1; 7; 3] w2 ∧
    print 0 w2 = Val [1; 2; 3] w2.
Proof.
  destruct a_deque as (w & a & b & c & Hrun & Hdq & _ & _ & Hav & _).
  destruct (copy_ctor_spec id 24 w 0 0 [a; b; c] [1; 2; 3] Hdq)
    as (w1 & this & Hcopy & _ & ls' & Hdq' & Hsrc & Hlen & Hdisj & _);
    [by rewrite Hav|].
  destruct ls' as [|a' [|b' [|c' [|? ?]]]]; try done.
  destruct (element_writes_stay_in_their_deque w1 this 0 [a'; b'; c'] [1; 2; 3]
              0 0 [a; b; c] [1; 2; 3] 1 b' 7 Hdq' Hsrc Hdisj eq_refl)
    as (w2 & Hset & _ & _ & Hp1 & Hp2).
  by exists w, w1, w2, this, b'.
Defined.
